(** * Meow_Bot music player: queue, playback state, cache and downloader

    A shallow embedding of the core of [module/music_player] and of the
    end-of-song callback of [cogs/music_cog.py], with the properties of the
    design document stated over it.

    Conventions.
    - Python [int] is [Z]; list lengths are taken through [Z.of_nat].
    - [time.time()] is a rational number of seconds ([Q]): the readings of the
      clock are passed to the operations explicitly as [now].
    - A finite [float] is the rational number it denotes. Differences of
      readings of the clock are taken exactly; the float arithmetic of the
      progress bar and of the durations read from JSON rounds as IEEE 754
      binary64 does ([F64]).
    - A method that mutates [self] and returns a value is a function from the
      old state to the pair (returned value, new state).
    - [None] and a raised-and-swallowed exception are [option]. *)

From Stdlib Require Import ZArith QArith Qround Qabs Qpower Lia Lqa List Bool.
From Stdlib Require Import Ascii String.
From stdpp Require Import base option list gmap sets strings pretty.

Local Open Scope Z_scope.

(** ** Python helpers *)

Module Py.

(** [len(l)] *)
Definition len {A} (l : list A) : Z := Z.of_nat (length l).

(** [l[i]] with Python's negative indices; [None] stands for [IndexError]. *)
Definition index {A} (l : list A) (i : Z) : option A :=
  if 0 <=? i then l !! Z.to_nat i
  else if 0 <=? len l + i then l !! Z.to_nat (len l + i)
  else None.

(** [l.pop(i)] for an index already known to be in range: the list without
    its [i]-th element. *)
Definition pop {A} (l : list A) (i : nat) : list A := take i l ++ drop (S i) l.

(** [range(a, b)] *)
Definition range (a b : Z) : list Z :=
  map (fun k => a + Z.of_nat k) (seq 0 (Z.to_nat (b - a))).

(** [l[start:stop]] with Python's rules: a negative bound counts from the
    end, and both bounds are clamped to the list. *)
Definition slice_bound {A} (l : list A) (i : Z) : Z :=
  if i <? 0 then Z.max (i + len l) 0 else Z.min i (len l).

Definition slice {A} (l : list A) (start stop : Z) : list A :=
  let a := slice_bound l start in
  let b := slice_bound l stop in
  take (Z.to_nat (b - a)) (drop (Z.to_nat a) l).

End Py.

(** ** Python's [float]

    IEEE 754 binary64 with rounding to nearest, ties to even: 53 bits of
    precision, the smallest positive float [2^-1074], the floats of size
    [2^1024] and above missing. *)

Module F64.

(** [2^k] for an integer [k] of either sign. *)
Definition pow2 (k : Z) : Q := (2 ^ k)%Q.

(** The integer part of the binary logarithm of a positive rational. *)
Definition ilog2 (x : Q) : Z :=
  let k := Z.log2 (Qnum x) - Z.log2 (Z.pos (Qden x)) in
  if Qle_bool (pow2 k) x then k else k - 1.

(** The integer nearest to [x], the even one of the two when [x] lies
    half-way. *)
Definition rne (x : Q) : Z :=
  let f := Qfloor x in
  match (x - inject_Z f ?= 1 # 2)%Q with
  | Lt => f
  | Gt => f + 1
  | Eq => if Z.even f then f else f + 1
  end.

(** The exponent of the last bit of the floats around a positive [x]: 52
    below the exponent of [x], and never below that of the subnormal
    floats. *)
Definition exponent (x : Q) : Z := Z.max (-1074) (ilog2 x - 52).

Definition round_pos (x : Q) : Q :=
  let e := exponent x in (inject_Z (rne (x / pow2 e)) * pow2 e)%Q.

(** The float nearest to [x], were the exponent unbounded above. *)
Definition round (x : Q) : Q :=
  match Qnum x with
  | Z0 => 0%Q
  | Zpos _ => round_pos x
  | Zneg _ => (- round_pos (- x))%Q
  end.

(** Whether [x] rounds beyond the largest float: [float(x)] of an [int] then
    raises [OverflowError], and a literal of that value reads as an
    infinity. *)
Definition overflows (x : Q) : bool := Qle_bool (pow2 1024) (Qabs (round x)).

(** [a / b] and [a * b] on floats, and on [int]s where [/] is concerned (the
    true division of two [int]s is the correctly rounded quotient). *)
Definition div (a b : Q) : Q := round (a / b).

Definition mul (a b : Q) : Q := round (a * b).

End F64.

(** ** core/queue.py *)

Module Queue.

(** [@dataclass class Song] *)
Record Song := mkSong {
  id : string;
  title : string;
  url : string;
  duration : Z;
  uploader : string;
  uploader_url : string;
  thumbnail : string;
  requester_id : option Z;
  cached_path : option string
}.

(** [class MusicQueue]: the three fields set by [__init__] (the lock only
    serialises the asynchronous mutators, each of which is one atomic
    function here). *)
Record MusicQueue := mkQueue {
  _queue : list Song;
  _current_index : Z;
  _loop : bool
}.

Definition init : MusicQueue :=
  {| _queue := []; _current_index := -1; _loop := false |}.

Definition size (q : MusicQueue) : Z := Py.len (_queue q).

Definition is_empty (q : MusicQueue) : bool := size q =? 0.

Definition set_loop (value : bool) (q : MusicQueue) : MusicQueue :=
  {| _queue := _queue q; _current_index := _current_index q; _loop := value |}.

Definition set_index (i : Z) (q : MusicQueue) : MusicQueue :=
  {| _queue := _queue q; _current_index := i; _loop := _loop q |}.

Definition current_song (q : MusicQueue) : option Song :=
  if (_current_index q <? 0) || (_current_index q >=? size q) then None
  else Py.index (_queue q) (_current_index q).

Definition current_index_one_based (q : MusicQueue) : Z :=
  if _current_index q >=? 0 then _current_index q + 1 else 0.

(** [add]: append, and make the first song the current one. *)
Definition add (song : Song) (q : MusicQueue) : Song * MusicQueue :=
  let queue' := _queue q ++ [song] in
  let index' := if Py.len queue' =? 1 then 0 else _current_index q in
  (song, {| _queue := queue'; _current_index := index'; _loop := _loop q |}).

Definition add_many (songs : list Song) (q : MusicQueue)
  : list Song * MusicQueue :=
  let first_add := Py.len (_queue q) =? 0 in
  let queue' := _queue q ++ songs in
  let index' :=
    if first_add && (Py.len queue' >? 0) then 0 else _current_index q in
  (songs, {| _queue := queue'; _current_index := index'; _loop := _loop q |}).

(** The index adjustment shared, textually, by [remove] and
    [remove_by_index]: [queue'] is the list after the [pop], [i] the popped
    position. *)
Definition adjust_index (queue' : list Song) (i cur : Z) : Z :=
  if Py.len queue' =? 0 then -1
  else if i <? cur then cur - 1
  else if i =? cur then
    (if cur >=? Py.len queue' then Py.len queue' - 1 else cur)
  else cur.

(** [for i, song in enumerate(self._queue): if song.id == song_id]: the
    position of the first song with that identifier. *)
Fixpoint find_id (song_id : string) (l : list Song) : option nat :=
  match l with
  | [] => None
  | song :: l' =>
      if String.eqb (id song) song_id then Some 0%nat
      else S <$> find_id song_id l'
  end.

Definition remove (song_id : string) (q : MusicQueue)
  : option Song * MusicQueue :=
  match find_id song_id (_queue q) with
  | Some i =>
      let removed := _queue q !! i in
      let queue' := Py.pop (_queue q) i in
      (removed,
       {| _queue := queue';
          _current_index := adjust_index queue' (Z.of_nat i) (_current_index q);
          _loop := _loop q |})
  | None => (None, q)
  end.

(** [index] is 1-based. *)
Definition remove_by_index (index : Z) (q : MusicQueue)
  : option Song * MusicQueue :=
  let pos := index - 1 in
  if (pos <? 0) || (pos >=? Py.len (_queue q)) then (None, q)
  else
    let removed := _queue q !! Z.to_nat pos in
    let queue' := Py.pop (_queue q) (Z.to_nat pos) in
    (removed,
     {| _queue := queue';
        _current_index := adjust_index queue' pos (_current_index q);
        _loop := _loop q |}).

Definition clear (q : MusicQueue) : Z * MusicQueue :=
  (Py.len (_queue q),
   {| _queue := []; _current_index := -1; _loop := _loop q |}).

Definition next (q : MusicQueue) : option Song * MusicQueue :=
  if Py.len (_queue q) =? 0 then (None, q)
  else if _loop q then
    let q' := set_index ((_current_index q + 1) mod Py.len (_queue q)) q in
    (current_song q', q')
  else if _current_index q + 1 >=? Py.len (_queue q) then (None, q)
  else
    let q' := set_index (_current_index q + 1) q in
    (current_song q', q').

Definition previous (q : MusicQueue) : option Song * MusicQueue :=
  if Py.len (_queue q) =? 0 then (None, q)
  else if _loop q then
    let q' := set_index ((_current_index q - 1) mod Py.len (_queue q)) q in
    (current_song q', q')
  else if _current_index q <=? 0 then (None, q)
  else
    let q' := set_index (_current_index q - 1) q in
    (current_song q', q').

(** [index] is 0-based. *)
Definition jump_to (index : Z) (q : MusicQueue) : option Song * MusicQueue :=
  if (index <? 0) || (index >=? Py.len (_queue q)) then (None, q)
  else
    let q' := set_index index q in
    (current_song q', q').

Definition jump_to_one_based (index : Z) (q : MusicQueue) :=
  jump_to (index - 1) q.

Definition has_next (q : MusicQueue) : bool :=
  if Py.len (_queue q) =? 0 then false
  else if _loop q then Py.len (_queue q) >? 1
  else _current_index q + 1 <? Py.len (_queue q).

Definition has_previous (q : MusicQueue) : bool :=
  if Py.len (_queue q) =? 0 then false
  else if _loop q then Py.len (_queue q) >? 1
  else _current_index q >? 0.

(** The queue after [n] calls of [next] in a row. *)
Fixpoint next_times (n : nat) (q : MusicQueue) : MusicQueue :=
  match n with
  | O => q
  | S n' => (next (next_times n' q)).2
  end.

(** The queue operations of the design document, as one type, and their
    effect on the queue. *)
Inductive op :=
| OpAdd (song : Song)
| OpAddMany (songs : list Song)
| OpRemove (song_id : string)
| OpRemoveByIndex (index : Z)
| OpClear
| OpNext
| OpPrevious
| OpJumpTo (index : Z).

Definition run (o : op) (q : MusicQueue) : MusicQueue :=
  match o with
  | OpAdd song => snd (add song q)
  | OpAddMany songs => snd (add_many songs q)
  | OpRemove song_id => snd (remove song_id q)
  | OpRemoveByIndex index => snd (remove_by_index index q)
  | OpClear => snd (clear q)
  | OpNext => snd (next q)
  | OpPrevious => snd (previous q)
  | OpJumpTo index => snd (jump_to index q)
  end.

(** The index invariant of the data model: [-1] on the empty queue,
    a position of the queue otherwise. *)
Definition index_inv (q : MusicQueue) : Prop :=
  (_queue q = [] /\ _current_index q = -1) \/
  (0 <= _current_index q < size q).

(** States reached from the empty queue. *)
Inductive reachable : MusicQueue -> Prop :=
| reach_init : reachable init
| reach_loop value q : reachable q -> reachable (set_loop value q)
| reach_run o q : reachable q -> reachable (run o q).

(** [index] is 1-based. *)
Definition get_song (index : Z) (q : MusicQueue) : option Song :=
  let pos := index - 1 in
  if (pos <? 0) || (pos >=? Py.len (_queue q)) then None
  else Py.index (_queue q) pos.

Definition get_upcoming (count : Z) (q : MusicQueue) : list Song :=
  if (Py.len (_queue q) =? 0) || (_current_index q <? 0) then []
  else
    let start := _current_index q + 1 in
    let stop := Z.min (start + count) (Py.len (_queue q)) in
    Py.slice (_queue q) start stop.

Definition get_previous_songs (count : Z) (q : MusicQueue) : list Song :=
  if (Py.len (_queue q) =? 0) || (_current_index q <=? 0) then []
  else
    let start := Z.max 0 (_current_index q - count) in
    let stop := _current_index q in
    Py.slice (_queue q) start stop.

(** The dict returned by [get_page]. *)
Record Page := mkPage {
  songs : list Song;
  start_index : Z;
  current_page : Z;
  total_pages : Z;
  total_songs : Z;
  page_current_index : Z
}.

(** [get_page]; [None] is the [ZeroDivisionError] of [// per_page]. Python's
    [//] rounds towards minus infinity, as [Z.div] does. *)
Definition get_page (page per_page : Z) (q : MusicQueue) : option Page :=
  if per_page =? 0 then None
  else
    let total := Py.len (_queue q) in
    let total_pages := Z.max 1 ((total + per_page - 1) / per_page) in
    let page := Z.max 1 (Z.min page total_pages) in
    let start := (page - 1) * per_page in
    let stop := start + per_page in
    Some {| songs := Py.slice (_queue q) start stop;
            start_index := start + 1;
            current_page := page;
            total_pages := total_pages;
            total_songs := total;
            page_current_index :=
              if _current_index q >=? 0 then _current_index q + 1 else 0 |}.

(** [total_pages] of [get_page]: the quotient rounded up, and 1 for no
    songs. *)
Definition page_count (per_page : Z) (q : MusicQueue) : Z :=
  Z.max 1 ((size q + per_page - 1) / per_page).

Definition _get_window_indices (behind ahead : Z) (q : MusicQueue) : list Z :=
  if _current_index q <? 0 then []
  else
    let start := Z.max 0 (_current_index q - behind) in
    let stop := Z.min (Py.len (_queue q)) (_current_index q + ahead + 1) in
    Py.range start stop.

(** The songs of the pages [1] .. [n] of [get_page], one after the other;
    [None] when a page cannot be computed. *)
Fixpoint pages_upto (n : nat) (per_page : Z) (q : MusicQueue)
  : option (list Song) :=
  match n with
  | O => Some []
  | S n' =>
      before ← pages_upto n' per_page q;
      page ← get_page (Z.of_nat n) per_page q;
      Some (before ++ songs page)
  end.

End Queue.

(** ** core/state.py *)

Module State.

(** [@dataclass class PlaybackState], with the defaults of its fields. *)
Record PlaybackState := mkState {
  is_playing : bool;
  is_paused : bool;
  _start_time : Q;
  _pause_start : Q;
  _total_paused : Q;
  _duration : Z;
  _current_song_id : option string;
  _last_manual_operation_time : Q
}.

Definition init : PlaybackState :=
  {| is_playing := false; is_paused := false;
     _start_time := 0; _pause_start := 0; _total_paused := 0;
     _duration := 0; _current_song_id := None;
     _last_manual_operation_time := 0 |}.

(** [int(x)] on a float: truncation towards zero. *)
Definition int_of_float (x : Q) : Z := Z.quot (Qnum x) (Z.pos (Qden x)).

Definition start (now : Q) (duration : Z) (song_id : option string)
    (s : PlaybackState) : PlaybackState :=
  {| is_playing := true; is_paused := false;
     _start_time := now; _pause_start := _pause_start s; _total_paused := 0;
     _duration := duration; _current_song_id := song_id;
     _last_manual_operation_time := _last_manual_operation_time s |}.

Definition pause (now : Q) (s : PlaybackState) : bool * PlaybackState :=
  if is_playing s && negb (is_paused s) then
    (true,
     {| is_playing := is_playing s; is_paused := true;
        _start_time := _start_time s; _pause_start := now;
        _total_paused := _total_paused s;
        _duration := _duration s; _current_song_id := _current_song_id s;
        _last_manual_operation_time := _last_manual_operation_time s |})
  else (false, s).

Definition resume (now : Q) (s : PlaybackState) : bool * PlaybackState :=
  if is_paused s then
    (true,
     {| is_playing := is_playing s; is_paused := false;
        _start_time := _start_time s; _pause_start := _pause_start s;
        _total_paused := (_total_paused s + (now - _pause_start s))%Q;
        _duration := _duration s; _current_song_id := _current_song_id s;
        _last_manual_operation_time := _last_manual_operation_time s |})
  else (false, s).

Definition stop (s : PlaybackState) : PlaybackState :=
  {| is_playing := false; is_paused := false;
     _start_time := 0; _pause_start := 0; _total_paused := 0;
     _duration := _duration s; _current_song_id := None;
     _last_manual_operation_time := _last_manual_operation_time s |}.

Definition reset (s : PlaybackState) : PlaybackState :=
  let s' := stop s in
  {| is_playing := is_playing s'; is_paused := is_paused s';
     _start_time := _start_time s'; _pause_start := _pause_start s';
     _total_paused := _total_paused s';
     _duration := 0; _current_song_id := _current_song_id s';
     _last_manual_operation_time := _last_manual_operation_time s' |}.

(** The float [elapsed] of [current_position], before [int] and the clamp. *)
Definition elapsed (now : Q) (s : PlaybackState) : Q :=
  if is_paused s then (_pause_start s - _start_time s - _total_paused s)%Q
  else (now - _start_time s - _total_paused s)%Q.

(** The property [current_position], read when the clock shows [now]. *)
Definition current_position (now : Q) (s : PlaybackState) : Z :=
  if negb (is_playing s) then 0
  else Z.max 0 (Z.min (int_of_float (elapsed now s)) (_duration s)).

Definition remaining (now : Q) (s : PlaybackState) : Z :=
  Z.max 0 (_duration s - current_position now s).

Definition is_finished (now : Q) (s : PlaybackState) : bool :=
  if negb (is_playing s) then false
  else current_position now s >=? _duration s.

Definition mark_manual_operation (now : Q) (s : PlaybackState)
  : PlaybackState :=
  {| is_playing := is_playing s; is_paused := is_paused s;
     _start_time := _start_time s; _pause_start := _pause_start s;
     _total_paused := _total_paused s;
     _duration := _duration s; _current_song_id := _current_song_id s;
     _last_manual_operation_time := now |}.

Definition last_manual_operation_time (s : PlaybackState) : Q :=
  _last_manual_operation_time s.

(** The calls that change a [PlaybackState]. *)
Inductive call :=
| Start (duration : Z) (song_id : option string)
| Pause
| Resume
| Stop
| Reset
| MarkManualOperation.

(** [run now c s]: the state after call [c] made when the clock shows [now]. *)
Definition run (now : Q) (c : call) (s : PlaybackState) : PlaybackState :=
  match c with
  | Start duration song_id => start now duration song_id s
  | Pause => snd (pause now s)
  | Resume => snd (resume now s)
  | Stop => stop s
  | Reset => reset s
  | MarkManualOperation => mark_manual_operation now s
  end.

(** A song's duration is never negative (data model); [start] is called
    with [song.duration]. *)
Definition call_ok (c : call) : Prop :=
  match c with
  | Start duration _ => 0 <= duration
  | _ => True
  end.

(** States reached from a fresh [PlaybackState()] by calls made at
    arbitrary clock readings. *)
Inductive reachable : PlaybackState -> Prop :=
| reach_init : reachable init
| reach_call now c s : reachable s -> call_ok c -> reachable (run now c s).

(** The position as the design document derives it: time since the start,
    minus the time spent in finished pauses, minus the time since the
    running pause began, then truncated and clamped to [[0, duration]]. *)
Definition derived_position (now : Q) (s : PlaybackState) : Z :=
  let elapsed_since_start := (now - _start_time s)%Q in
  let time_since_pause :=
    if is_paused s then (now - _pause_start s)%Q else 0%Q in
  Z.max 0
    (Z.min
       (int_of_float
          (elapsed_since_start - _total_paused s - time_since_pause)%Q)
       (_duration s)).

(** The property [progress_percentage]: the quotient of the two [int]s and
    its product with 100, each rounded to a float. *)
Definition progress_percentage (now : Q) (s : PlaybackState) : Q :=
  if _duration s <=? 0 then 0%Q
  else
    F64.mul
      (F64.div (inject_Z (current_position now s)) (inject_Z (_duration s)))
      100.

(** [s * n] on strings: [n] copies, none for [n <= 0]. *)
Definition str_times (s : string) (n : Z) : string :=
  Nat.iter (Z.to_nat n) (String.append s) EmptyString.

(** [filled] of [progress_bar]:
    [int((self.progress_percentage / 100) * total_blocks)], in floats. *)
Definition progress_filled (now : Q) (s : PlaybackState) : Z :=
  int_of_float
    (F64.mul (F64.div (progress_percentage now s) 100) (inject_Z 15)).

(** The property [progress_bar]. *)
Definition progress_bar (now : Q) (s : PlaybackState) : string :=
  let total_blocks := 15 in
  let filled := progress_filled now s in
  let empty := total_blocks - filled in
  (str_times "▓" filled +:+ str_times "░" empty)%string.

(** A series of calls, each with the reading of the clock at which it is
    made, run one after the other. *)
Definition run_all (calls : list (Q * call)) (s : PlaybackState)
  : PlaybackState :=
  foldl (fun s' tc => run tc.1 tc.2 s') s calls.

(** The reading of the clock at the last [mark_manual_operation] of a series
    of calls, if there is one. *)
Fixpoint last_mark (calls : list (Q * call)) : option Q :=
  match calls with
  | [] => None
  | (t, c) :: rest =>
      match last_mark rest with
      | Some t' => Some t'
      | None => match c with MarkManualOperation => Some t | _ => None end
      end
  end.

End State.

(** ** core/cache.py *)

Module Cache.

(** A file path. [CacheFile song_id] is [cache_dir / f"{song_id}.opus"],
    the only kind of path [CacheManager] builds; every other path is an
    [OtherFile]. An identifier with a [/] in it names a file below or
    outside the cache directory; two spellings of one such file are not
    identified. *)
Inductive path :=
| CacheFile (song_id : string)
| OtherFile (name : string).

#[global] Instance path_eq_dec : EqDecision path.
Proof. solve_decision. Defined.

Definition path_to_sum (p : path) : string + string :=
  match p with CacheFile s => inl s | OtherFile s => inr s end.

Definition path_of_sum (x : string + string) : path :=
  match x with inl s => CacheFile s | inr s => OtherFile s end.

#[global] Instance path_countable : Countable path.
Proof.
  refine (inj_countable' path_to_sum path_of_sum _).
  intros []; reflexivity.
Defined.

(** [asyncio.Task] as the manager sees it: the song it downloads and
    [task.done()]. *)
Record Task := mkTask {
  task_song : Queue.Song;
  task_done : bool
}.

(** Which system calls raise: the manager swallows these exceptions and
    only logs a warning. *)
Record OS := mkOS {
  unlink_raises : path -> bool;
  rename_raises : path -> path -> bool
}.

(** [class CacheManager]; the directory itself is the file system, passed
    along as the set of paths that exist. *)
Record CacheManager := mkCache {
  window_behind : Z;
  window_ahead : Z;
  _preload_tasks : gmap string Task;
  _keep_ids : gset string
}.

Definition new (window_behind window_ahead : Z) : CacheManager :=
  {| window_behind := window_behind; window_ahead := window_ahead;
     _preload_tasks := ∅; _keep_ids := ∅ |}.

Definition get_path (song_id : string) : path := CacheFile song_id.

Definition exists_ (fs : gset path) (song_id : string) : bool :=
  bool_decide (get_path song_id ∈ fs).


(** [put]: the file system after the call. *)
Definition put (os : OS) (song_id : string) (file_path : path)
    (fs : gset path) : gset path :=
  let target := get_path song_id in
  let source := file_path in
  if bool_decide (source = target) then fs
  else if bool_decide (target ∈ fs) then fs
  else if bool_decide (source ∈ fs) then
    (if rename_raises os source target then fs
     else {[target]} ∪ (fs ∖ {[source]}))
  else fs.

(** Whether an identifier has a path separator in it. *)
Fixpoint has_separator (song_id : string) : bool :=
  match song_id with
  | EmptyString => false
  | String ch rest => Ascii.eqb ch "/" || has_separator rest
  end.

(** [name.rfind(".")] *)
Fixpoint rfind_dot (name : string) : option nat :=
  match name with
  | EmptyString => None
  | String ch rest =>
      match rfind_dot rest with
      | Some i => Some (S i)
      | None => if Ascii.eqb ch "." then Some 0%nat else None
      end
  end.

(** [PurePath.stem] on a file name: [name[:i]] for [i = name.rfind(".")]
    when [0 < i < len(name) - 1], else the whole name. A dot at the start
    of the name begins no suffix. *)
Definition name_stem (name : string) : string :=
  match rfind_dot name with
  | Some i =>
      if ((0 <? i) && (i <? String.length name - 1))%nat
      then substring 0 i name
      else name
  | None => name
  end.

(** [file.stem] of a file directly in the cache directory. *)
Definition stem (file : path) : string :=
  match file with
  | CacheFile song_id => name_stem (song_id +:+ ".opus")
  | OtherFile name => name_stem name
  end.

(** Whether [cache_dir.glob("*.opus")] lists the file: the pattern has no
    [**], so only files directly in the cache directory match, and these are
    the files built from an identifier without a separator. A name that
    starts with a dot matches as well. *)
Definition in_cache_dir (file : path) : bool :=
  match file with
  | CacheFile song_id => negb (has_separator song_id)
  | OtherFile _ => false
  end.

(** [cache_dir.glob("*.opus")] *)
Definition glob_opus (fs : gset path) : list path :=
  filter (fun file => in_cache_dir file = true) (elements fs).

Definition set_keep_ids (keep : gset string) (c : CacheManager)
  : CacheManager :=
  {| window_behind := window_behind c; window_ahead := window_ahead c;
     _preload_tasks := _preload_tasks c; _keep_ids := keep |}.

Definition set_preload_tasks (tasks : gmap string Task) (c : CacheManager)
  : CacheManager :=
  {| window_behind := window_behind c; window_ahead := window_ahead c;
     _preload_tasks := tasks; _keep_ids := _keep_ids c |}.

Definition keep_start (c : CacheManager) (current_index : Z) : Z :=
  Z.max 0 (current_index - window_behind c).

Definition keep_end (c : CacheManager) (queue : list Queue.Song)
    (current_index : Z) : Z :=
  Z.min (Py.len queue) (current_index + window_ahead c + 1).

(** [_update_keep_ids]; [None] is an [IndexError] out of [queue[i]]. *)
Definition _update_keep_ids (queue : list Queue.Song) (current_index : Z)
    (c : CacheManager) : option CacheManager :=
  ids ← mapM (fun i => Queue.id <$> Py.index queue i)
             (Py.range (keep_start c current_index)
                       (keep_end c queue current_index));
  Some (set_keep_ids (list_to_set ids) c).

(** One turn of the loop of [_cleanup_old]. *)
Definition cleanup_step (os : OS) (keep : gset string) (fs : gset path)
    (file : path) : gset path :=
  let song_id := stem file in
  if bool_decide (song_id ∉ keep) then
    (if unlink_raises os file then fs else fs ∖ {[file]})
  else fs.

Definition _cleanup_old (os : OS) (c : CacheManager) (fs : gset path)
  : gset path :=
  foldl (cleanup_step os (_keep_ids c)) fs (glob_opus fs).

(** [song.id in self._preload_tasks and not task.done()] *)
Definition preload_pending (tasks : gmap string Task) (song_id : string)
  : bool :=
  match tasks !! song_id with
  | Some task => negb (task_done task)
  | None => false
  end.

(** The loop of [_preload_ahead] over the remaining offsets: the task table
    and the tasks handed to [asyncio.create_task] so far, oldest first.
    [None] is an [IndexError]. *)
Fixpoint preload_loop (fs : gset path) (queue : list Queue.Song)
    (current_index : Z) (offsets : list Z)
    (tasks : gmap string Task) (created : list Task)
  : option (gmap string Task * list Task) :=
  match offsets with
  | [] => Some (tasks, created)
  | offset :: rest =>
      let next_index := current_index + offset in
      if next_index >=? Py.len queue then Some (tasks, created)
      else
        song ← Py.index queue next_index;
        if exists_ fs (Queue.id song) then
          preload_loop fs queue current_index rest tasks created
        else if preload_pending tasks (Queue.id song) then
          preload_loop fs queue current_index rest tasks created
        else
          let task := {| task_song := song; task_done := false |} in
          preload_loop fs queue current_index rest
            (<[Queue.id song := task]> tasks) (created ++ [task])
  end.

Definition _preload_ahead (fs : gset path) (queue : list Queue.Song)
    (current_index : Z) (c : CacheManager)
  : option (CacheManager * list Task) :=
  r ← preload_loop fs queue current_index
        (Py.range 1 (window_ahead c + 1)) (_preload_tasks c) [];
  Some (set_preload_tasks r.1 c, r.2).

(** What a call leaves behind: the manager, the file system and the tasks
    it created. None of the three coroutines awaits anything that yields,
    so a call of [on_song_change] runs to its end in one piece. *)
Record outcome := mkOutcome {
  manager : CacheManager;
  files : gset path;
  created_tasks : list Task
}.

(** [on_song_change]; the downloader is only handed on to the tasks. *)
Definition on_song_change (os : OS) (queue : list Queue.Song)
    (current_index : Z) (c : CacheManager) (fs : gset path)
  : option outcome :=
  if bool_decide (queue = []) || (current_index <? 0) then
    Some {| manager := c; files := fs; created_tasks := [] |}
  else
    c1 ← _update_keep_ids queue current_index c;
    let fs1 := _cleanup_old os c1 fs in
    r ← _preload_ahead fs1 queue current_index c1;
    Some {| manager := r.1; files := fs1; created_tasks := r.2 |}.

(** [is_preloading] *)
Definition is_preloading (c : CacheManager) (song_id : string) : bool :=
  match _preload_tasks c !! song_id with
  | None => false
  | Some task => negb (task_done task)
  end.

(** [cancel_all_preloads]: the number of tasks cancelled, which are those not
    done yet, and the manager with its task table cleared. *)
Definition cancel_all_preloads (c : CacheManager) : Z * CacheManager :=
  let cancelled :=
    filter (fun kv : string * Task => task_done kv.2 = false)
           (map_to_list (_preload_tasks c)) in
  (Py.len cancelled, set_preload_tasks ∅ c).

(** [cleanup]: cancels, and leaves every file where it is. *)
Definition cleanup (c : CacheManager) (fs : gset path)
  : CacheManager * gset path :=
  ((cancel_all_preloads c).2, fs).

(** An operating system on which no call fails. *)
Definition reliable : OS :=
  {| unlink_raises := fun _ => false; rename_raises := fun _ _ => false |}.

End Cache.

(** ** downloader/yt_dlp.py *)

Module Downloader.

(** [YTDLPDownloader.ERROR_PATTERNS]: a dict literal, iterated in the order
    it is written. *)
Definition ERROR_PATTERNS : list (string * list string) :=
  [ ("age_restricted",
     [ "sign in to confirm your age";
       "age-restricted";
       "inappropriate for some users" ]);
    ("copyright",
     [ "copyright grounds";
       "blocked it";
       "content owner";
       "has blocked" ]);
    ("region_blocked",
     [ "not available in your country" ]);
    ("private",
     [ "private video";
       "sign in if you've been granted access" ]);
    ("unavailable",
     [ "video unavailable";
       "this video is unavailable";
       "no longer available";
       "has been removed";
       "account has been terminated" ]) ]%string.

(** [pattern in text] on strings. *)
Fixpoint contains (pattern text : string) : bool :=
  String.prefix pattern text ||
  match text with
  | EmptyString => false
  | String _ rest => contains pattern rest
  end.

(** [str.lower()] restricted to ASCII text: the letters [A]..[Z] go to
    [a]..[z], every other byte stays. *)
Definition ascii_lower_char (c : ascii) : ascii :=
  let n := nat_of_ascii c in
  if (65 <=? n)%nat && (n <=? 90)%nat then ascii_of_nat (n + 32) else c.

Fixpoint ascii_lower (s : string) : string :=
  match s with
  | EmptyString => EmptyString
  | String c rest => String (ascii_lower_char c) (ascii_lower rest)
  end.

(** [a or b] on strings: the empty string is falsy. *)
Definition str_or (a b : string) : string :=
  match a with EmptyString => b | _ => a end.

(** The dict built by [_create_error_response]. *)
Record ErrorResponse := mkError {
  success : bool;
  error_type : string;
  error_message : string;
  display_message : string;
  url : string;
  timestamp : Q
}.

(** The dict built by [_parse_video_data]. *)
Record VideoInfo := mkInfo {
  vi_id : option string;
  vi_title : string;
  vi_uploader : string;
  vi_uploader_url : string;
  vi_duration : Z;
  vi_url : string;
  vi_thumbnail : string
}.

(** How the [yt-dlp] subprocess of [extract_info] ended: a timeout, another
    exception, or an exit with the decoded and stripped output streams. *)
Inductive proc_outcome :=
| ProcTimeout
| ProcException
| ProcExit (returncode : Z) (stdout_str stderr_str : string).

(** The dict [messages] of [_get_user_friendly_message]. *)
Definition messages : gmap string string :=
  list_to_map
    [ ("age_restricted", "此影片有年齡限制，無法播放");
      ("copyright", "此影片因版權問題被阻擋");
      ("region_blocked", "此影片在您的地區無法觀看");
      ("private", "此影片為私人或不公開");
      ("unavailable", "此影片已不可用");
      ("unknown", "無法取得影片資訊") ]%string.

Definition _get_user_friendly_message (error_type : string) : string :=
  default (messages !!! "unknown"%string) (messages !! error_type).

(** The two nested loops of [_detect_error_type] over a table, the inner one
    as [existsb]: the first category one of whose patterns occurs. *)
Fixpoint detect_in (table : list (string * list string)) (error_lower : string)
  : string :=
  match table with
  | [] => "unknown"%string
  | (error_type, patterns) :: rest =>
      if existsb (fun pattern => contains pattern error_lower) patterns
      then error_type
      else detect_in rest error_lower
  end.

(** [error_msg = stderr_str or stdout_str or f"未知錯誤 (returncode=...)"] of
    [extract_info]. *)
Definition failure_message (returncode : Z) (stdout_str stderr_str : string)
  : string :=
  str_or stderr_str
    (str_or stdout_str
       ("未知錯誤 (returncode=" +:+ pretty returncode +:+ ")")).

Section WithEnvironment.

(** [str.lower]: Python's Unicode lower-casing, of which [ascii_lower] is the
    ASCII part. *)
Variable str_lower : string -> string.

(** [json.loads] followed by [_parse_video_data]: [None] for output that is
    not JSON and for a video that [_is_valid_video] rejects. *)
Variable parse_video_json : string -> option VideoInfo.

(** The second half of [download]: the [yt-dlp] download and the [ffmpeg]
    transcoding of a song that is not cached yet, from the URL, the song
    identifier, its metadata and the file system to the returned pair and
    the file system left behind. *)
Variable fetch_and_convert :
  string -> string -> VideoInfo -> gset Cache.path ->
  (option (ErrorResponse + VideoInfo) * option Cache.path) * gset Cache.path.

Definition _detect_error_type (error_msg : string) : string :=
  let error_lower := str_lower error_msg in
  detect_in ERROR_PATTERNS error_lower.

Definition _create_error_response (now : Q) (error_msg url : string)
  : ErrorResponse :=
  let error_type := _detect_error_type error_msg in
  {| success := false;
     error_type := error_type;
     error_message := error_msg;
     display_message := _get_user_friendly_message error_type;
     url := url;
     timestamp := now |}.

(** [extract_info], given how its subprocess ended: [None], an error dict or
    the metadata. *)
Definition extract_info (now : Q) (url : string) (run : proc_outcome)
  : option (ErrorResponse + VideoInfo) :=
  match run with
  | ProcExit returncode stdout_str stderr_str =>
      if negb (returncode =? 0) then
        let error_msg := failure_message returncode stdout_str stderr_str in
        Some (inl (_create_error_response now error_msg url))
      else inr <$> parse_video_json stdout_str
  | ProcTimeout | ProcException => None
  end.

(** [f"{song_id}"] for [song_id = info["id"]]. *)
Definition id_str (info : VideoInfo) : string :=
  default "None"%string (vi_id info).

(** [download]: the returned pair (info, path) and the file system after the
    call. [extract_info] runs at most once on every path through the body. *)
Definition download (now : Q) (url : string) (song_id : option string)
    (run : proc_outcome) (fs : gset Cache.path)
  : (option (ErrorResponse + VideoInfo) * option Cache.path)
    * gset Cache.path :=
  match song_id with
  | None =>
      match extract_info now url run with
      | None => ((None, None), fs)
      | Some (inl err) => ((Some (inl err), None), fs)
      | Some (inr info) =>
          let opus_path := Cache.CacheFile (id_str info) in
          if bool_decide (opus_path ∈ fs)
          then ((Some (inr info), Some opus_path), fs)
          else fetch_and_convert url (id_str info) info fs
      end
  | Some song_id =>
      let opus_path := Cache.CacheFile song_id in
      if bool_decide (opus_path ∈ fs)
      then ((extract_info now url run, Some opus_path), fs)
      else
        match extract_info now url run with
        | None => ((None, None), fs)
        | Some (inl err) => ((Some (inl err), None), fs)
        | Some (inr info) => fetch_and_convert url song_id info fs
        end
  end.

End WithEnvironment.

(** The categories listed before [error_type] in a table, with their
    patterns flattened: the patterns that take precedence over it. *)
Fixpoint patterns_before (error_type : string)
    (table : list (string * list string)) : list string :=
  match table with
  | [] => []
  | (t, patterns) :: rest =>
      if String.eqb t error_type then []
      else patterns ++ patterns_before error_type rest
  end.

(** [YTDLPDownloader.INVALID_TITLE_PATTERNS] *)
Definition INVALID_TITLE_PATTERNS : list string :=
  [ "deleted video"; "private video"; "video unavailable";
    "track not found"; "private track"; "removed track";
    "track unavailable"; "not available";
    "not found"; "removed by artist";
    "content not available"; "no longer exists" ]%string.

(** A JSON number as [json.loads] reads it: an integer literal, which is an
    [int]; a literal with a fraction or an exponent, which is the float
    nearest to the value [x] written (an infinity when that is too large);
    or one of [NaN], [Infinity], [-Infinity]. A duration that is no number
    (a string, say) is outside this type. *)
Inductive json_number :=
| JInt (z : Z)
| JFloat (x : Q)
| NotFinite.

(** [int(float(duration))]; [None] where it raises: [OverflowError] for an
    [int] too large for a float and for an infinity, [ValueError] for a
    NaN. *)
Definition int_float (duration : json_number) : option Z :=
  match duration with
  | JInt z =>
      if F64.overflows (inject_Z z) then None
      else Some (State.int_of_float (F64.round (inject_Z z)))
  | JFloat x =>
      if F64.overflows x then None
      else Some (State.int_of_float (F64.round x))
  | NotFinite => None
  end.

(** The truth value of a number: zero is falsy, as an [int] and as a
    float. *)
Definition number_truthy (duration : json_number) : bool :=
  match duration with
  | JInt z => negb (z =? 0)
  | JFloat x => negb (Qeq_bool (F64.round x) 0)
  | NotFinite => true
  end.

(** What an entry of ["thumbnails"] has under ["width"] or ["height"]: no
    such key, an explicit [null], or an integer. *)
Inductive dimension :=
| Absent
| Null
| Pixels (n : Z).

(** [t.get(key, 0)]: the default stands in for an absent key only, a [null]
    comes back as [None]. *)
Definition get_or_0 (d : dimension) : option Z :=
  match d with
  | Absent => Some 0
  | Null => None
  | Pixels n => Some n
  end.

(** An entry of ["thumbnails"]; the URL is [None] when absent or [null]. *)
Record Thumbnail := mkThumbnail {
  t_url : option string;
  t_width : dimension;
  t_height : dimension
}.

(** What a call does: it returns a value, or raises [TypeError]. *)
Inductive result (A : Type) :=
| Returns (value : A)
| Raises.

Arguments Returns {A} value.
Arguments Raises {A}.

(** The fields of the JSON object of [yt-dlp] that the downloader reads;
    [None] is an absent key or [null]. *)
Record VideoData := mkData {
  d_id : option string;
  d_title : option string;
  d_uploader : option string;
  d_artist : option string;
  d_duration : option json_number;
  d_thumbnail : option string;
  d_thumbnails : option (list Thumbnail);
  d_channel_url : option string;
  d_uploader_url : option string;
  d_artist_url : option string;
  d_creator_url : option string;
  d_webpage_url : option string;
  d_url : option string;
  d_extractor : option string
}.

(** [data.get(key) or default] on strings: [None] and [""] are falsy. *)
Definition opt_or (value : option string) (default : string) : string :=
  match value with
  | Some s => str_or s default
  | None => default
  end.

Definition is_empty (s : string) : bool :=
  match s with EmptyString => true | _ => false end.

(** The key of [max]: [t.get("width", 0) * t.get("height", 0)]; [None] is
    the [TypeError] of a product with [None]. *)
Definition area (t : Thumbnail) : option Z :=
  match get_or_0 (t_width t), get_or_0 (t_height t) with
  | Some w, Some h => Some (w * h)
  | _, _ => None
  end.

(** [max(thumbnails, key=...)] from the second entry on, [best] being the
    entry of greatest key so far and [best_area] its key: the key of every
    entry is computed, and a later entry takes over only with a greater
    one. *)
Fixpoint max_by_area (best : Thumbnail) (best_area : Z)
    (rest : list Thumbnail) : option Thumbnail :=
  match rest with
  | [] => Some best
  | t :: rest' =>
      match area t with
      | None => None
      | Some a =>
          if best_area <? a then max_by_area t a rest'
          else max_by_area best best_area rest'
      end
  end.

Definition _pick_best_thumbnail (data : VideoData) : result string :=
  let thumb := opt_or (d_thumbnail data) "" in
  if is_empty thumb then
    match d_thumbnails data with
    | Some (first :: rest) =>
        match area first with
        | None => Raises
        | Some a =>
            match max_by_area first a rest with
            | None => Raises
            | Some best => Returns (opt_or (t_url best) "")
            end
        end
    | Some [] | None => Returns ""%string
    end
  else Returns thumb.

Section Parsing.

Variable str_lower : string -> string.

Definition _is_valid_video (data : VideoData) : bool :=
  let title := str_lower (opt_or (d_title data) "") in
  if existsb (fun pattern => contains pattern title) INVALID_TITLE_PATTERNS
  then false
  else if is_empty title
          || existsb (String.eqb title)
               ["unknown title"; "未知標題"; "untitled"]%string
  then false
  else
    match d_duration data with
    | None => true
    | Some duration =>
        match int_float duration with
        | Some seconds => negb (seconds <=? 0)
        | None => false
        end
    end.

(** [_parse_video_data]: [Returns None] for a video that is not valid,
    [Raises] where [_pick_best_thumbnail] does. *)
Definition _parse_video_data (data : VideoData)
  : result (option VideoInfo) :=
  if negb (_is_valid_video data) then Returns None
  else
    match _pick_best_thumbnail data with
    | Raises => Raises
    | Returns thumb =>
    let uploader_url :=
      opt_or (d_channel_url data)
        (opt_or (d_uploader_url data)
           (opt_or (d_artist_url data) (opt_or (d_creator_url data) ""))) in
    let page_url := opt_or (d_webpage_url data) (opt_or (d_url data) "") in
    let page_url :=
      if is_empty page_url && negb (is_empty (opt_or (d_id data) "")) then
        let extractor := str_lower (opt_or (d_extractor data) "") in
        if contains "youtube" extractor || is_empty extractor
        then ("https://www.youtube.com/watch?v=" +:+ opt_or (d_id data) "")
        else page_url
      else page_url in
    let duration :=
      match d_duration data with
      | Some duration =>
          if number_truthy duration then default 0 (int_float duration)
          else 0
      | None => 0
      end in
    Returns
      (Some {| vi_id := d_id data;
               vi_title := opt_or (d_title data) "未知標題";
               vi_uploader :=
                 opt_or (d_uploader data)
                   (opt_or (d_artist data) "未知上傳者");
               vi_uploader_url := uploader_url;
               vi_duration := duration;
               vi_url := page_url;
               vi_thumbnail := thumb |})
    end.

End Parsing.

End Downloader.

(** ** utils/errors.py *)

Module Errors.

(** [class MusicError]: the two messages every error carries. *)
Record MusicError := mkMusicError {
  message : string;
  user_message : string
}.

(** [MusicError.__init__]: [user_message or message]. *)
Definition music_error (message : string) (user_message : option string)
  : MusicError :=
  {| message := message;
     user_message := Downloader.opt_or user_message message |}.

(** [SongUnavailableError.REASON_MESSAGES] *)
Definition REASON_MESSAGES : gmap string string :=
  list_to_map
    [ ("age_restricted", "此影片有年齡限制，無法播放");
      ("copyright", "此影片因版權問題被阻擋");
      ("private", "此影片為私人或不公開");
      ("unavailable", "此影片已不可用");
      ("region_blocked", "此影片在您的地區無法觀看");
      ("unknown", "影片無法播放") ]%string.

(** [SongUnavailableError.__init__], with its [reason] (the URL is only
    stored). *)
Definition song_unavailable_error (message reason : string) : MusicError :=
  let user_message :=
    default (REASON_MESSAGES !!! "unknown"%string) (REASON_MESSAGES !! reason) in
  music_error message (Some user_message).

Definition download_error (message : string) : MusicError :=
  music_error message (Some "下載失敗，請稍後再試"%string).

Definition playback_error (message : string) : MusicError :=
  music_error message (Some "播放時發生錯誤"%string).

Definition queue_empty_error : MusicError :=
  music_error "Queue is empty" (Some "播放清單是空的"%string).

Definition voice_connection_error (message : string) : MusicError :=
  music_error message (Some "無法連接到語音頻道"%string).

End Errors.

(** ** cogs/music_cog.py: the end-of-song callback *)

Module Cog.

(** The part of [MusicPlayer] the callback reads and writes. *)
Record MusicPlayer := mkPlayer {
  state : State.PlaybackState;
  queue : Queue.MusicQueue
}.

Record MusicPlayerCog := mkCog {
  player : option MusicPlayer
}.

(** What the callback asks the rest of the cog to do, in order: the calls of
    [_show_empty_queue], [_update_player_message] (with the song shown as
    stopped), [_refresh_player_ui] and [_play_song]. *)
Inductive action :=
| ShowEmptyQueue
| UpdatePlayerMessage (song : Queue.Song)
| RefreshPlayerUI
| PlaySong (song : Queue.Song).

Definition with_queue (q : Queue.MusicQueue) (p : MusicPlayer) : MusicPlayer :=
  {| state := state p; queue := q |}.

Definition with_state (s : State.PlaybackState) (p : MusicPlayer)
  : MusicPlayer :=
  {| state := s; queue := queue p |}.

(** [x < y] on floats. *)
Definition Qltb (x y : Q) : bool := negb (Qle_bool y x).

(** Truth value of a float: zero is falsy. *)
Definition truthy (x : Q) : bool := negb (Qeq_bool x 0).

Definition _play_next_song (cog : MusicPlayerCog)
  : MusicPlayerCog * list action :=
  match player cog with
  | None => (cog, [])
  | Some p =>
      if Queue.size (queue p) =? 0 then (cog, [ShowEmptyQueue])
      else
        let r := Queue.next (queue p) in
        let cog' := {| player := Some (with_queue r.2 p) |} in
        match r.1 with
        | None =>
            match Queue.current_song r.2 with
            | Some current_song => (cog', [UpdatePlayerMessage current_song])
            | None => (cog', [])
            end
        | Some next_song => (cog', [PlaySong next_song])
        end
  end.

(** [MusicPlayer.stop], as far as the playback state goes. *)
Definition player_stop (p : MusicPlayer) : MusicPlayer :=
  with_state (State.stop (state p)) p.

(** The button handler [_handle_next], pressed when the clock shows [now]. *)
Definition _handle_next (now : Q) (cog : MusicPlayerCog)
  : MusicPlayerCog * list action :=
  match player cog with
  | None => (cog, [])
  | Some p =>
      let p1 := player_stop p in
      let p2 := with_state (State.mark_manual_operation now (state p1)) p1 in
      let r := Queue.next (queue p2) in
      let cog' := {| player := Some (with_queue r.2 p2) |} in
      match r.1 with
      | Some next_song => (cog', [PlaySong next_song])
      | None => (cog', [RefreshPlayerUI])
      end
  end.

Section Debounce.

(** [MANUAL_OPERATION_DEBOUNCE] of [module/music_player/constants.py], in
    seconds. *)
Variable MANUAL_OPERATION_DEBOUNCE : Q.

(** [_on_song_end], called when the clock shows [now]. *)
Definition _on_song_end (now : Q) (cog : MusicPlayerCog)
  : MusicPlayerCog * list action :=
  match player cog with
  | None => (cog, [])
  | Some p =>
      let last := State.last_manual_operation_time (state p) in
      if truthy last && Qltb (now - last)%Q MANUAL_OPERATION_DEBOUNCE
      then (cog, [])
      else _play_next_song cog
  end.

(** [MusicPlayer._handle_song_end] of [core/player.py], which the audio
    thread schedules when a song ends, with [_on_song_end] installed as its
    callback (as [cog_load] does): it stops the playback state and calls
    back. *)
Definition _handle_song_end (now : Q) (cog : MusicPlayerCog)
  : MusicPlayerCog * list action :=
  match player cog with
  | None => (cog, [])
  | Some p =>
      let p' := with_state (State.stop (state p)) p in
      _on_song_end now {| player := Some p' |}
  end.

End Debounce.

(** How a call of [_play_song] ends: by reaching [player.play(song)] with a
    file for the song (what [play] and the refresh of the UI do from there is
    not followed), or with what [_play_next_song] asked to be shown when no
    song was left to try. *)
Inductive ending :=
| Playing (song : Queue.Song)
| Showing (asked : list action).

(** A call of [_play_song] up to its ending: the cog as it is then, the songs
    given up on (each handed to [queue.remove] by its identifier), in order,
    and the ending. *)
Record play_outcome := mkPlayOutcome {
  cog_after : MusicPlayerCog;
  dropped : list Queue.Song;
  play_ending : ending
}.

Section PlaySong.

(** Whether the first half of [_play_song] gets hold of a file for the song,
    from [cache.get] or from [downloader.download], taken to depend on the
    song alone; where it does not, [SongUnavailableError] is raised and
    handled at the end of the method. *)
Variable obtainable : Queue.Song -> bool.

(** [_play_song], which calls [_play_next_song], which calls [_play_song]
    again: [fuel] bounds the depth of the calls, and [None] is a call that
    would go deeper. *)
Fixpoint _play_song (fuel : nat) (song : Queue.Song) (cog : MusicPlayerCog)
  : option play_outcome :=
  match fuel with
  | O => None
  | S fuel' =>
      match player cog with
      | None =>
          Some {| cog_after := cog; dropped := []; play_ending := Showing [] |}
      | Some p =>
          if obtainable song then
            Some {| cog_after := cog; dropped := [];
                    play_ending := Playing song |}
          else
            let q' := (Queue.remove (Queue.id song) (queue p)).2 in
            let r := _play_next_song {| player := Some (with_queue q' p) |} in
            match r.2 with
            | [PlaySong next_song] =>
                rest ← _play_song fuel' next_song r.1;
                Some {| cog_after := cog_after rest;
                        dropped := song :: dropped rest;
                        play_ending := play_ending rest |}
            | asked =>
                Some {| cog_after := r.1; dropped := [song];
                        play_ending := Showing asked |}
            end
      end
  end.

End PlaySong.

End Cog.

(** ** Concrete songs and states used by the examples *)

Module Sample.

Definition song (name : string) : Queue.Song :=
  {| Queue.id := name; Queue.title := name; Queue.url := name;
     Queue.duration := 180; Queue.uploader := "uploader";
     Queue.uploader_url := ""; Queue.thumbnail := "";
     Queue.requester_id := None; Queue.cached_path := None |}.

Definition A := song "A".
Definition B := song "B".
Definition C := song "C".

(** The queue [[A, B, C]] with the cursor on [A]. *)
Definition abc (loop : bool) : Queue.MusicQueue :=
  {| Queue._queue := [A; B; C]; Queue._current_index := 0;
     Queue._loop := loop |}.

(** A queue holding [A] alone, looping. *)
Definition single_loop : Queue.MusicQueue :=
  {| Queue._queue := [A]; Queue._current_index := 0; Queue._loop := true |}.

(** Ten songs [s0] .. [s9]. *)
Definition ten : list Queue.Song :=
  map song ["s0"; "s1"; "s2"; "s3"; "s4"; "s5"; "s6"; "s7"; "s8"; "s9"]%string.

End Sample.

(** * Properties *)

(** ** Python helpers *)

Lemma len_nonneg {A} (l : list A) : 0 <= Py.len l.
Proof. unfold Py.len. lia. Qed.

Lemma len_nil_iff {A} (l : list A) : Py.len l = 0 <-> l = [].
Proof.
  unfold Py.len. destruct l as [|x l]; simpl; split; intros H;
    first [reflexivity | discriminate | lia].
Qed.

Lemma len_app {A} (l k : list A) : Py.len (l ++ k) = Py.len l + Py.len k.
Proof. unfold Py.len. rewrite length_app. lia. Qed.

Lemma len_pop {A} (l : list A) (i : nat) :
  (i < length l)%nat -> Py.len (Py.pop l i) = Py.len l - 1.
Proof.
  intros Hi. unfold Py.len, Py.pop.
  rewrite length_app, length_take, length_drop. lia.
Qed.

Lemma index_nonneg {A} (l : list A) (i : Z) :
  0 <= i -> Py.index l i = l !! Z.to_nat i.
Proof.
  intros Hi. unfold Py.index. destruct (Z.leb_spec 0 i); [reflexivity | lia].
Qed.

Lemma index_in_range {A} (l : list A) (i : Z) :
  0 <= i < Py.len l -> is_Some (Py.index l i).
Proof.
  intros [H0 H1]. rewrite index_nonneg by lia.
  apply lookup_lt_is_Some. unfold Py.len in H1. lia.
Qed.

Lemma range_elem (a b i : Z) : i ∈ Py.range a b <-> a <= i < b.
Proof.
  unfold Py.range. rewrite list_elem_of_In, in_map_iff. split.
  - intros (k & <- & Hk). apply in_seq in Hk. lia.
  - intros H. exists (Z.to_nat (i - a)). split; [lia|].
    apply in_seq. lia.
Qed.

(** Case analysis on every integer comparison of the goal. *)
Ltac zcases :=
  rewrite ?Z.geb_leb, ?Z.gtb_ltb in *;
  repeat match goal with
    | |- context [?a =? ?b] => destruct (Z.eqb_spec a b)
    | |- context [?a <? ?b] => destruct (Z.ltb_spec a b)
    | |- context [?a <=? ?b] => destruct (Z.leb_spec a b)
    end.

(** ** Queue *)

Section QueueFacts.

Import Queue.

Lemma size_nonneg q : 0 <= size q.
Proof. apply len_nonneg. Qed.

Lemma current_song_in_range q :
  0 <= _current_index q < size q ->
  current_song q = Py.index (_queue q) (_current_index q) /\
  is_Some (current_song q).
Proof.
  intros H. unfold current_song.
  assert (E : (_current_index q <? 0) || (_current_index q >=? size q) = false).
  { zcases; simpl; try reflexivity; lia. }
  rewrite E. split; [reflexivity | by apply index_in_range].
Qed.

Lemma find_id_lt song_id l i : find_id song_id l = Some i -> (i < length l)%nat.
Proof.
  revert i. induction l as [|s l IH]; intros i; simpl; [discriminate|].
  destruct (String.eqb (id s) song_id).
  - intros [= <-]. lia.
  - destruct (find_id song_id l) as [j|]; simpl; [|discriminate].
    intros [= <-]. specialize (IH j eq_refl). lia.
Qed.

(** The song [remove] finds is the first one carrying the identifier. *)
Lemma find_id_first song_id l i :
  find_id song_id l = Some i ->
  (exists s, l !! i = Some s /\ id s = song_id) /\
  (forall j s, (j < i)%nat -> l !! j = Some s -> id s <> song_id).
Proof.
  revert i. induction l as [|s l IH]; intros i; simpl; [discriminate|].
  destruct (String.eqb_spec (id s) song_id) as [E|E].
  - intros [= <-]. split; [eauto | intros; lia].
  - destruct (find_id song_id l) as [k|]; simpl; [|discriminate].
    intros [= <-]. destruct (IH k eq_refl) as [Hk Hbefore]. split; [exact Hk|].
    intros [|j] s' Hj Hs'; simpl in Hs'.
    + by injection Hs' as <-.
    + apply (Hbefore j s'); [lia | exact Hs'].
Qed.

(** The index after a removal at position [i], for the three places the
    removed song can have relative to the cursor. *)
Lemma adjust_index_spec (l : list Song) (i : nat) (cur : Z) :
  (i < length l)%nat -> 0 <= cur < Py.len l ->
  let l' := Py.pop l i in
  let cur' := adjust_index l' (Z.of_nat i) cur in
  ((l' = [] /\ cur' = -1) \/ 0 <= cur' < Py.len l') /\
  (Z.of_nat i < cur -> cur' = cur - 1) /\
  (Z.of_nat i = cur -> cur' = Z.min cur (Py.len l' - 1)) /\
  (cur < Z.of_nat i -> cur' = cur).
Proof.
  intros Hi Hcur l' cur'. subst cur'.
  pose proof (len_pop l i Hi) as Hlen. fold l' in Hlen.
  pose proof (len_nil_iff l') as Hnil.
  assert (Hil : Z.of_nat i < Py.len l) by (unfold Py.len; lia).
  unfold adjust_index. zcases; repeat split; intros; try lia;
    first [ left; split; [tauto | lia] | right; lia ].
Qed.

Lemma index_inv_cases q :
  index_inv q ->
  (_queue q = [] /\ _current_index q = -1 /\ size q = 0) \/
  (_queue q <> [] /\ 0 <= _current_index q < size q).
Proof.
  intros [[Hq Hi]|H].
  - left. repeat split; try assumption. unfold size. by apply len_nil_iff.
  - right. split; [|exact H]. intros Hq. unfold size in H.
    apply len_nil_iff in Hq. lia.
Qed.

Lemma index_inv_add song q : index_inv q -> index_inv (add song q).2.
Proof.
  intros Hinv. apply index_inv_cases in Hinv. unfold index_inv, add, size.
  simpl. rewrite len_app. change (Py.len [song]) with 1. right.
  destruct Hinv as [(_ & Hi & Hs) | (_ & Hi)]; unfold size in *; zcases; lia.
Qed.


Lemma index_inv_add_many songs q :
  index_inv q -> index_inv (add_many songs q).2.
Proof.
  intros Hinv. apply index_inv_cases in Hinv. unfold index_inv, add_many, size.
  simpl. rewrite len_app. pose proof (len_nonneg songs) as Hs.
  destruct Hinv as [(Hq & Hi & Hz) | (_ & Hi)]; unfold size in *.
  - rewrite Hq. change (Py.len (@nil Song)) with 0.
    rewrite !Z.add_0_l, Z.eqb_refl. simpl.
    destruct (Z.gtb_spec (Py.len songs) 0) as [Hpos|Hzero]; simpl.
    + right. lia.
    + left. split; [|exact Hi]. apply len_nil_iff. lia.
  - right. zcases; simpl; lia.
Qed.

Lemma index_inv_pop (l : list Song) (i : nat) (cur : Z) (loop : bool) :
  (i < length l)%nat ->
  index_inv {| _queue := l; _current_index := cur; _loop := loop |} ->
  index_inv {| _queue := Py.pop l i;
               _current_index := adjust_index (Py.pop l i) (Z.of_nat i) cur;
               _loop := loop |}.
Proof.
  intros Hi Hinv. apply index_inv_cases in Hinv. simpl in Hinv.
  destruct Hinv as [(Hq & _) | (_ & Hcur)].
  - subst l. simpl in Hi. lia.
  - unfold index_inv, size. simpl.
    exact (proj1 (adjust_index_spec l i cur Hi Hcur)).
Qed.

Lemma index_inv_remove song_id q :
  index_inv q -> index_inv (remove song_id q).2.
Proof.
  intros Hinv. unfold remove.
  destruct (find_id song_id (_queue q)) as [i|] eqn:E; simpl; [|exact Hinv].
  destruct q as [l cur loop]. simpl in *.
  apply index_inv_pop; [by eapply find_id_lt | exact Hinv].
Qed.

Lemma remove_by_index_in_range index q :
  1 <= index <= size q ->
  remove_by_index index q =
    (_queue q !! Z.to_nat (index - 1),
     {| _queue := Py.pop (_queue q) (Z.to_nat (index - 1));
        _current_index :=
          adjust_index (Py.pop (_queue q) (Z.to_nat (index - 1)))
                       (index - 1) (_current_index q);
        _loop := _loop q |}).
Proof.
  intros H. unfold remove_by_index, size in *.
  assert (E : (index - 1 <? 0) || (index - 1 >=? Py.len (_queue q)) = false).
  { zcases; simpl; try reflexivity; lia. }
  by rewrite E.
Qed.

Lemma remove_by_index_out_of_range index q :
  index < 1 \/ size q < index -> remove_by_index index q = (None, q).
Proof.
  intros H. unfold remove_by_index, size in *.
  assert (E : (index - 1 <? 0) || (index - 1 >=? Py.len (_queue q)) = true).
  { zcases; simpl; try reflexivity; lia. }
  by rewrite E.
Qed.

Lemma index_inv_remove_by_index index q :
  index_inv q -> index_inv (remove_by_index index q).2.
Proof.
  intros Hinv.
  destruct (Z_lt_le_dec index 1) as [Hlo|Hlo];
    [rewrite remove_by_index_out_of_range by lia; exact Hinv|].
  destruct (Z_lt_le_dec (size q) index) as [Hhi|Hhi];
    [rewrite remove_by_index_out_of_range by lia; exact Hinv|].
  rewrite remove_by_index_in_range by lia. simpl.
  destruct q as [l cur loop]. unfold size, Py.len in *. simpl in *.
  set (i := Z.to_nat (index - 1)).
  assert (Ei : index - 1 = Z.of_nat i) by lia. rewrite Ei.
  apply index_inv_pop; [lia | exact Hinv].
Qed.

Lemma index_inv_set_index i q :
  0 <= i < size q -> index_inv (set_index i q).
Proof. intros H. right. exact H. Qed.

Lemma index_inv_next q : index_inv q -> index_inv (next q).2.
Proof.
  intros Hinv. unfold next. pose proof (size_nonneg q) as Hs. unfold size in *.
  destruct (Z.eqb_spec (Py.len (_queue q)) 0); [exact Hinv|].
  destruct (_loop q); simpl.
  - apply index_inv_set_index. unfold size. apply Z.mod_pos_bound. lia.
  - apply index_inv_cases in Hinv. unfold size in Hinv.
    destruct (Z.geb_spec (_current_index q + 1) (Py.len (_queue q))); simpl.
    + right. unfold size. lia.
    + apply index_inv_set_index. unfold size. lia.
Qed.

Lemma index_inv_previous q : index_inv q -> index_inv (previous q).2.
Proof.
  intros Hinv. unfold previous. pose proof (size_nonneg q) as Hs.
  unfold size in *.
  destruct (Z.eqb_spec (Py.len (_queue q)) 0); [exact Hinv|].
  destruct (_loop q); simpl.
  - apply index_inv_set_index. unfold size. apply Z.mod_pos_bound. lia.
  - apply index_inv_cases in Hinv. unfold size in Hinv.
    destruct (Z.leb_spec (_current_index q) 0); simpl.
    + right. unfold size. lia.
    + apply index_inv_set_index. unfold size. lia.
Qed.

Lemma jump_to_out_of_range index q :
  index < 0 \/ size q <= index -> jump_to index q = (None, q).
Proof.
  intros H. unfold jump_to, size in *.
  assert (E : (index <? 0) || (index >=? Py.len (_queue q)) = true).
  { zcases; simpl; try reflexivity; lia. }
  by rewrite E.
Qed.

Lemma jump_to_in_range index q :
  0 <= index < size q ->
  jump_to index q = (Py.index (_queue q) index, set_index index q) /\
  is_Some (Py.index (_queue q) index).
Proof.
  intros H. unfold jump_to.
  assert (E : (index <? 0) || (index >=? Py.len (_queue q)) = false).
  { unfold size in H. zcases; simpl; try reflexivity; lia. }
  rewrite E.
  destruct (current_song_in_range (set_index index q) H) as [-> Hsome].
  split; [reflexivity|]. by apply index_in_range.
Qed.

Lemma index_inv_jump_to index q : index_inv q -> index_inv (jump_to index q).2.
Proof.
  intros Hinv.
  destruct (Z_lt_le_dec index 0) as [Hlo|Hlo];
    [rewrite jump_to_out_of_range by lia; exact Hinv|].
  destruct (Z_lt_le_dec index (size q)) as [Hhi|Hhi];
    [|rewrite jump_to_out_of_range by lia; exact Hinv].
  destruct (jump_to_in_range index q) as [-> _]; [lia|].
  by apply index_inv_set_index.
Qed.

Lemma index_inv_run o q : index_inv q -> index_inv (run o q).
Proof.
  intros Hinv. destruct o; simpl.
  - by apply index_inv_add.
  - by apply index_inv_add_many.
  - by apply index_inv_remove.
  - by apply index_inv_remove_by_index.
  - left. split; reflexivity.
  - by apply index_inv_next.
  - by apply index_inv_previous.
  - by apply index_inv_jump_to.
Qed.

Lemma index_inv_reachable q : reachable q -> index_inv q.
Proof.
  induction 1 as [|value q _ IH|o q _ IH].
  - left. split; reflexivity.
  - exact IH.
  - by apply index_inv_run.
Qed.

(** What [next] and [previous] do on a non-empty looping queue: the cursor
    moves to the cyclic successor or predecessor, whose song is returned. *)
Lemma next_loop q :
  _loop q = true -> _queue q <> [] ->
  next q = (Py.index (_queue q) ((_current_index q + 1) mod size q),
            set_index ((_current_index q + 1) mod size q) q) /\
  is_Some (next q).1.
Proof.
  intros Hloop Hne. unfold next. rewrite Hloop.
  pose proof (size_nonneg q) as Hs. pose proof (len_nil_iff (_queue q)) as Hnil.
  unfold size in *.
  destruct (Z.eqb_spec (Py.len (_queue q)) 0) as [E|E]; [tauto|].
  assert (Hm : 0 <= (_current_index q + 1) mod Py.len (_queue q)
               < Py.len (_queue q)) by (apply Z.mod_pos_bound; lia).
  destruct (current_song_in_range
              (set_index ((_current_index q + 1) mod Py.len (_queue q)) q) Hm)
    as [Hc Hsome].
  simpl. split; [by rewrite Hc | exact Hsome].
Qed.

Lemma previous_loop q :
  _loop q = true -> _queue q <> [] ->
  previous q = (Py.index (_queue q) ((_current_index q - 1) mod size q),
                set_index ((_current_index q - 1) mod size q) q) /\
  is_Some (previous q).1.
Proof.
  intros Hloop Hne. unfold previous. rewrite Hloop.
  pose proof (size_nonneg q) as Hs. pose proof (len_nil_iff (_queue q)) as Hnil.
  unfold size in *.
  destruct (Z.eqb_spec (Py.len (_queue q)) 0) as [E|E]; [tauto|].
  assert (Hm : 0 <= (_current_index q - 1) mod Py.len (_queue q)
               < Py.len (_queue q)) by (apply Z.mod_pos_bound; lia).
  destruct (current_song_in_range
              (set_index ((_current_index q - 1) mod Py.len (_queue q)) q) Hm)
    as [Hc Hsome].
  simpl. split; [by rewrite Hc | exact Hsome].
Qed.

(** With the loop off the cursor only ever moves by one, and stops at the
    ends. *)
Lemma next_no_loop q :
  _loop q = false -> index_inv q ->
  (size q <= _current_index q + 1 -> next q = (None, q)) /\
  (_current_index q + 1 < size q ->
     next q = (Py.index (_queue q) (_current_index q + 1),
               set_index (_current_index q + 1) q) /\
     is_Some (next q).1).
Proof.
  intros Hloop Hinv. apply index_inv_cases in Hinv. unfold next. rewrite Hloop.
  unfold size in *. split; intros H.
  - destruct (Z.eqb_spec (Py.len (_queue q)) 0); [reflexivity|].
    destruct (Z.geb_spec (_current_index q + 1) (Py.len (_queue q)));
      [reflexivity | lia].
  - destruct (Z.eqb_spec (Py.len (_queue q)) 0); [lia|].
    destruct (Z.geb_spec (_current_index q + 1) (Py.len (_queue q))); [lia|].
    assert (Hm : 0 <= _current_index q + 1 < Py.len (_queue q)) by lia.
    destruct (current_song_in_range (set_index (_current_index q + 1) q) Hm)
      as [Hc Hsome].
    simpl. split; [by rewrite Hc | exact Hsome].
Qed.

Lemma previous_no_loop q :
  _loop q = false -> index_inv q ->
  (_current_index q <= 0 -> previous q = (None, q)) /\
  (0 < _current_index q ->
     previous q = (Py.index (_queue q) (_current_index q - 1),
                   set_index (_current_index q - 1) q) /\
     is_Some (previous q).1).
Proof.
  intros Hloop Hinv. apply index_inv_cases in Hinv. unfold previous.
  rewrite Hloop. unfold size in *. split; intros H.
  - destruct (Z.eqb_spec (Py.len (_queue q)) 0); [reflexivity|].
    destruct (Z.leb_spec (_current_index q) 0); [reflexivity | lia].
  - destruct (Z.eqb_spec (Py.len (_queue q)) 0); [lia|].
    destruct (Z.leb_spec (_current_index q) 0); [lia|].
    assert (Hm : 0 <= _current_index q - 1 < Py.len (_queue q)) by lia.
    destruct (current_song_in_range (set_index (_current_index q - 1) q) Hm)
      as [Hc Hsome].
    simpl. split; [by rewrite Hc | exact Hsome].
Qed.

Lemma mod_succ_last (n i : Z) : 0 < n -> i = n - 1 -> (i + 1) mod n = 0.
Proof.
  intros Hn ->. replace (n - 1 + 1) with (1 * n) by lia.
  apply Z.mod_mul. lia.
Qed.

Lemma mod_pred_first (n i : Z) : 0 < n -> i = 0 -> (i - 1) mod n = n - 1.
Proof.
  intros Hn ->. replace (0 - 1) with (n - 1 + (-1) * n) by lia.
  rewrite Z.mod_add by lia. apply Z.mod_small. lia.
Qed.

(** Repeated [next] with the loop off: the cursor climbs by one per call up
    to the last entry and stays there, and a call returns nothing exactly
    when the cursor already is on the last entry. *)
Lemma next_repeated_no_loop q (n : nat) :
  _loop q = false -> index_inv q -> _queue q <> [] ->
  next_times n q
  = set_index (Z.min (_current_index q + Z.of_nat n) (size q - 1)) q /\
  ((next (next_times n q)).1 = None <->
   size q - 1 <= _current_index q + Z.of_nat n).
Proof.
  intros Hloop Hinv Hne.
  destruct (index_inv_cases q Hinv) as [(Hq & _)|(_ & Hcur)]; [contradiction|].
  assert (Hn : next_times n q
               = set_index (Z.min (_current_index q + Z.of_nat n) (size q - 1)) q).
  { induction n as [|n IH]; simpl.
    - destruct q as [l cur loop]. unfold set_index, size in *. simpl in *.
      f_equal. lia.
    - rewrite IH.
      set (i := Z.min (_current_index q + Z.of_nat n) (size q - 1)).
      assert (Hi : index_inv (set_index i q))
        by (apply index_inv_set_index; lia).
      destruct (next_no_loop (set_index i q) Hloop Hi) as [Hend Hstep].
      change (size (set_index i q)) with (size q) in *.
      change (_current_index (set_index i q)) with i in *.
      destruct (Z_lt_le_dec (i + 1) (size q)) as [Hlt|Hge].
      + destruct (Hstep Hlt) as [-> _]. simpl. unfold set_index. simpl.
        f_equal. lia.
      + rewrite (Hend Hge). simpl. unfold set_index. simpl. f_equal. lia. }
  split; [exact Hn|]. rewrite Hn.
  set (i := Z.min (_current_index q + Z.of_nat n) (size q - 1)).
  assert (Hi : index_inv (set_index i q)) by (apply index_inv_set_index; lia).
  destruct (next_no_loop (set_index i q) Hloop Hi) as [Hend Hstep].
  change (size (set_index i q)) with (size q) in *.
  change (_current_index (set_index i q)) with i in *.
  split.
  - intros Hnone. destruct (Z_lt_le_dec (i + 1) (size q)) as [Hlt|Hge]; [|lia].
    destruct (Hstep Hlt) as [_ [x Hx]]. congruence.
  - intros Hlast. rewrite Hend by lia. reflexivity.
Qed.

End QueueFacts.

Section QueueClaims.

Import Queue.

(** C4. Every queue operation (add, add-many, remove by identifier, remove by
    1-based index, clear, next, previous, jump-to) keeps the current index at
    [-1] on the empty queue, and only there, and inside [[0, length)]
    otherwise. Adding the first song sets the index to [0]; removing the song
    under the cursor brings the index back into range (it becomes the smaller
    of the old index and the new last position); removing a song before the
    cursor lowers the index by one. *)
Theorem queue_index_invariant (q : MusicQueue) (Hinv : index_inv q) :
  (_current_index q = -1 <-> _queue q = []) /\
  (forall o, index_inv (run o q)) /\
  (forall song, _queue q = [] -> _current_index (add song q).2 = 0) /\
  (forall songs, _queue q = [] -> songs <> [] ->
     _current_index (add_many songs q).2 = 0) /\
  (forall index, 1 <= index -> index - 1 = _current_index q ->
     let q' := (remove_by_index index q).2 in
     index_inv q' /\
     _current_index q' = Z.min (_current_index q) (size q' - 1)) /\
  (forall song_id i,
     find_id song_id (_queue q) = Some i -> Z.of_nat i = _current_index q ->
     let q' := (remove song_id q).2 in
     index_inv q' /\
     _current_index q' = Z.min (_current_index q) (size q' - 1)) /\
  (forall index, 1 <= index -> index - 1 < _current_index q ->
     _current_index (remove_by_index index q).2 = _current_index q - 1) /\
  (forall song_id i,
     find_id song_id (_queue q) = Some i -> Z.of_nat i < _current_index q ->
     _current_index (remove song_id q).2 = _current_index q - 1).
Proof.
  pose proof (index_inv_cases q Hinv) as Hc.
  pose proof (len_nil_iff (_queue q)) as Hnil. unfold size in Hc.
  split; [|split; [|split; [|split; [|split; [|split; [|split]]]]]].
  - destruct Hc as [(Hq & Hi & _) | (Hq & Hi)]; split; intros H;
      first [assumption | lia | contradiction].
  - intros o. by apply index_inv_run.
  - intros song Hq. unfold add. simpl. rewrite Hq. reflexivity.
  - intros songs Hq Hs. unfold add_many. simpl. rewrite Hq. simpl.
    destruct songs as [|s songs]; [contradiction|].
    unfold Py.len. simpl.
    destruct (Z.gtb_spec (Z.pos (Pos.of_succ_nat (length songs))) 0);
      [reflexivity | lia].
  - intros index Hlo Hpos q'.
    split; [by apply index_inv_remove_by_index|]. subst q'.
    destruct Hc as [(_ & Hi & _) | (_ & Hi)]; [lia|].
    rewrite remove_by_index_in_range by (unfold size; lia). simpl.
    assert (Hlt : (Z.to_nat (index - 1) < length (_queue q))%nat)
      by (unfold Py.len in Hi; lia).
    destruct (adjust_index_spec (_queue q) _ (_current_index q) Hlt Hi)
      as (_ & _ & Hat & _).
    rewrite Z2Nat.id in Hat by lia. rewrite Hpos in *. unfold size. simpl.
    apply Hat. reflexivity.
  - intros song_id i Hfind Hpos q'.
    split; [by apply index_inv_remove|]. subst q'.
    unfold remove. rewrite Hfind. simpl. unfold size. simpl.
    pose proof (find_id_lt _ _ _ Hfind) as Hlt.
    destruct Hc as [(Hq & _) | (_ & Hi)];
      [rewrite Hq in Hlt; simpl in Hlt; lia|].
    destruct (adjust_index_spec (_queue q) i (_current_index q) Hlt Hi)
      as (_ & _ & Hat & _).
    by apply Hat.
  - intros index Hlo Hpos.
    destruct Hc as [(_ & Hi & _) | (_ & Hi)]; [lia|].
    rewrite remove_by_index_in_range by (unfold size; lia). simpl.
    assert (Hlt : (Z.to_nat (index - 1) < length (_queue q))%nat)
      by (unfold Py.len in Hi; lia).
    destruct (adjust_index_spec (_queue q) _ (_current_index q) Hlt Hi)
      as (_ & Hbefore & _).
    rewrite Z2Nat.id in Hbefore by lia. by apply Hbefore.
  - intros song_id i Hfind Hpos.
    unfold remove. rewrite Hfind. simpl.
    pose proof (find_id_lt _ _ _ Hfind) as Hlt.
    destruct Hc as [(Hq & _) | (_ & Hi)];
      [rewrite Hq in Hlt; simpl in Hlt; lia|].
    destruct (adjust_index_spec (_queue q) i (_current_index q) Hlt Hi)
      as (_ & Hbefore & _).
    by apply Hbefore.
Qed.

(** The invariant holds of [[A, B, C]] with the cursor on [B], and the
    theorem applies there: removing [A] (entry 1) moves the cursor to 0. *)
Lemma queue_index_invariant_witness :
  index_inv (set_index 1 (Sample.abc false)) /\
  _current_index (remove_by_index 1 (set_index 1 (Sample.abc false))).2 = 0.
Proof.
  assert (H : index_inv (set_index 1 (Sample.abc false))).
  { right. unfold size, Py.len. simpl. lia. }
  split; [exact H|].
  destruct (queue_index_invariant _ H) as (_ & _ & _ & _ & _ & _ & Hbefore & _).
  apply (Hbefore 1); simpl; lia.
Defined.

(** C1, as the design document words it, is contradicted by a looping queue
    of one song: loop-with-at-least-two-entries does not hold, the cursor is
    on the last (and first) entry, and yet [next] and [previous] return the
    song instead of nothing. *)
Lemma navigation_single_loop_counterexample :
  let q := Sample.single_loop in
  ~ (_loop q = true /\ 2 <= size q) /\
  size q <= _current_index q + 1 /\
  _current_index q <= 0 /\
  (next q).1 = Some Sample.A /\ (next q).1 <> None /\
  (previous q).1 = Some Sample.A /\ (previous q).1 <> None.
Proof.
  simpl. unfold size, Py.len. simpl.
  repeat split; try discriminate; lia.
Qed.

(** C1 (amended). [next] and [previous] wrap around whenever the loop flag is
    on and the queue is not empty: the cursor moves to the cyclic successor
    (predecessor), from the last entry to the first and from the first to the
    last, and the song there is returned, so that nothing is never returned;
    on a single entry the cursor wraps onto itself. With the loop off they
    return nothing at the ends, without wrapping and leaving the queue as it
    is, and move the cursor by exactly one position elsewhere. In particular
    a non-empty queue with the loop off and the cursor on its last entry
    answers [next] with nothing and keeps the cursor, and a looping queue of
    at least two entries never answers nothing. *)
Theorem navigation_loop_semantics (q : MusicQueue) (Hinv : index_inv q) :
  (_loop q = true -> _queue q <> [] ->
     next q = (Py.index (_queue q) ((_current_index q + 1) mod size q),
               set_index ((_current_index q + 1) mod size q) q) /\
     is_Some (next q).1 /\
     previous q = (Py.index (_queue q) ((_current_index q - 1) mod size q),
                   set_index ((_current_index q - 1) mod size q) q) /\
     is_Some (previous q).1 /\
     (_current_index q = size q - 1 -> _current_index (next q).2 = 0) /\
     (_current_index q = 0 -> _current_index (previous q).2 = size q - 1)) /\
  (_loop q = false ->
     (size q <= _current_index q + 1 -> next q = (None, q)) /\
     (_current_index q + 1 < size q ->
        next q = (Py.index (_queue q) (_current_index q + 1),
                  set_index (_current_index q + 1) q) /\
        is_Some (next q).1) /\
     (_current_index q <= 0 -> previous q = (None, q)) /\
     (0 < _current_index q ->
        previous q = (Py.index (_queue q) (_current_index q - 1),
                      set_index (_current_index q - 1) q) /\
        is_Some (previous q).1)) /\
  (_queue q <> [] -> _loop q = false -> _current_index q = size q - 1 ->
     next q = (None, q)) /\
  (_loop q = true -> 2 <= size q ->
     (next q).1 <> None /\ (previous q).1 <> None).
Proof.
  pose proof (len_nil_iff (_queue q)) as Hnil.
  pose proof (size_nonneg q) as Hs. unfold size in Hs.
  split; [|split; [|split]].
  - intros Hloop Hne.
    destruct (next_loop q Hloop Hne) as [Hn Hns].
    destruct (previous_loop q Hloop Hne) as [Hp Hps].
    assert (Hlen : Py.len (_queue q) <> 0) by (intros E; apply Hne, Hnil, E).
    assert (Hpos : 0 < size q) by (unfold size; lia).
    repeat split; try assumption.
    + intros Hlast. rewrite Hn. simpl. by apply mod_succ_last.
    + intros Hfirst. rewrite Hp. simpl. by apply mod_pred_first.
  - intros Hloop.
    destruct (next_no_loop q Hloop Hinv) as [Hn1 Hn2].
    destruct (previous_no_loop q Hloop Hinv) as [Hp1 Hp2].
    repeat split; first [exact Hn1 | exact Hp1 | apply Hn2 | apply Hp2];
      assumption.
  - intros Hne Hloop Hlast.
    apply (proj1 (next_no_loop q Hloop Hinv)). lia.
  - intros Hloop Hsize.
    assert (Hne : _queue q <> []).
    { intros E. apply Hnil in E. unfold size in Hsize. lia. }
    destruct (next_loop q Hloop Hne) as [_ [x Hx]].
    destruct (previous_loop q Hloop Hne) as [_ [y Hy]].
    rewrite Hx, Hy. split; discriminate.
Qed.

(** On [[A, B, C]] with the loop off and the cursor on [C], [next] returns
    nothing and changes nothing. *)
Lemma navigation_loop_semantics_witness :
  index_inv (set_index 2 (Sample.abc false)) /\
  next (set_index 2 (Sample.abc false))
  = (None, set_index 2 (Sample.abc false)).
Proof.
  assert (H : index_inv (set_index 2 (Sample.abc false))).
  { right. unfold size, Py.len. simpl. lia. }
  split; [exact H|].
  destruct (navigation_loop_semantics _ H) as (_ & _ & Hlast & _).
  apply Hlast; [discriminate | reflexivity | reflexivity].
Defined.

(** The scenario of the design document: [[A, B, C]], loop off, cursor on
    [A]; [next] gives [B], [next] gives [C], [next] gives nothing and the
    cursor stays on [C]; [previous] gives [B]; [jump_to 0] gives [A]. *)
Example navigation_scenario :
  let q0 := Sample.abc false in
  let r1 := next q0 in
  let r2 := next r1.2 in
  let r3 := next r2.2 in
  let r4 := previous r3.2 in
  let r5 := jump_to 0 r4.2 in
  r1.1 = Some Sample.B /\ r2.1 = Some Sample.C /\
  r3.1 = None /\ _current_index r3.2 = 2 /\
  r4.1 = Some Sample.B /\ r5.1 = Some Sample.A.
Proof. repeat split; reflexivity. Qed.

(** C7. [jump_to] with an index below zero or not below the length returns
    nothing and leaves the queue, the current index and the loop flag as they
    were; with an index in range it returns the song at that index and makes
    it the current index, leaving songs and loop flag alone. It is a total
    function: no input makes it raise. *)
Theorem jump_to_spec (q : MusicQueue) (index : Z) :
  (index < 0 \/ size q <= index -> jump_to index q = (None, q)) /\
  (0 <= index < size q ->
     exists song,
       Py.index (_queue q) index = Some song /\
       (jump_to index q).1 = Some song /\
       _current_index (jump_to index q).2 = index /\
       _queue (jump_to index q).2 = _queue q /\
       _loop (jump_to index q).2 = _loop q).
Proof.
  split.
  - apply jump_to_out_of_range.
  - intros H. destruct (jump_to_in_range index q H) as [E [song Hsong]].
    exists song. rewrite E. simpl. by repeat split.
Qed.

(** On [[A, B, C]], [jump_to 7] and [jump_to (-1)] change nothing and
    [jump_to 2] lands on [C]. *)
Lemma jump_to_spec_witness :
  jump_to 7 (Sample.abc true) = (None, Sample.abc true) /\
  jump_to (-1) (Sample.abc true) = (None, Sample.abc true) /\
  (jump_to 2 (Sample.abc true)).1 = Some Sample.C.
Proof.
  split; [|split].
  - apply (proj1 (jump_to_spec (Sample.abc true) 7)).
    right. unfold size, Py.len. simpl. lia.
  - apply (proj1 (jump_to_spec (Sample.abc true) (-1))). left. lia.
  - destruct (proj2 (jump_to_spec (Sample.abc true) 2)) as (song & Hs & Hj & _).
    + unfold size, Py.len. simpl. lia.
    + rewrite Hj, <- Hs. reflexivity.
Defined.

(** C9. On a looping queue that holds exactly one song, [next] and
    [previous] return that song and leave the queue, cursor included, as it
    is, although [has_next] and [has_previous] both answer false. *)
Theorem single_song_loop (q : MusicQueue) (song : Song) :
  _queue q = [song] -> _loop q = true -> index_inv q ->
  next q = (Some song, q) /\ previous q = (Some song, q) /\
  has_next q = false /\ has_previous q = false.
Proof.
  destruct q as [l cur loop]. simpl. intros -> -> Hinv.
  apply index_inv_cases in Hinv. unfold size, Py.len in Hinv. simpl in Hinv.
  destruct Hinv as [(Hq & _) | (_ & Hcur)]; [discriminate|].
  assert (cur = 0) as -> by lia.
  repeat split; reflexivity.
Qed.

(** The looping queue that holds [A] alone. *)
Lemma single_song_loop_witness :
  next Sample.single_loop = (Some Sample.A, Sample.single_loop) /\
  previous Sample.single_loop = (Some Sample.A, Sample.single_loop) /\
  has_next Sample.single_loop = false /\
  has_previous Sample.single_loop = false.
Proof.
  apply (single_song_loop Sample.single_loop Sample.A).
  - reflexivity.
  - reflexivity.
  - right. unfold size, Py.len. simpl. lia.
Defined.

End QueueClaims.

(** ** PlaybackState *)

Section StateFacts.

Import State.

(** Truncation is the floor of a non-negative number and the ceiling of a
    negative one. *)
Lemma int_of_float_nonneg (x : Q) : (0 <= x)%Q -> int_of_float x = Qfloor x.
Proof.
  destruct x as [n d]. unfold Qle, int_of_float. simpl. intros H.
  apply Z.quot_div_nonneg; lia.
Qed.

Lemma int_of_float_neg (x : Q) : (x < 0)%Q -> int_of_float x = Qceiling x.
Proof.
  destruct x as [n d]. unfold Qlt, int_of_float, Qceiling. simpl. intros H.
  rewrite <- (Z.opp_involutive n) at 1.
  rewrite Z.quot_opp_l by lia. f_equal.
  apply Z.quot_div_nonneg; lia.
Qed.

Lemma int_of_float_comp (x y : Q) : x == y -> int_of_float x = int_of_float y.
Proof.
  intros E. destruct (Qlt_le_dec x 0) as [Hx|Hx].
  - rewrite !int_of_float_neg by (try rewrite <- E; exact Hx).
    apply Qceiling_comp, E.
  - rewrite !int_of_float_nonneg by (try rewrite <- E; exact Hx).
    apply Qfloor_comp, E.
Qed.

Lemma int_of_float_mono (x y : Q) :
  (x <= y)%Q -> int_of_float x <= int_of_float y.
Proof.
  intros H. destruct (Qlt_le_dec x 0) as [Hx|Hx];
    destruct (Qlt_le_dec y 0) as [Hy|Hy].
  - rewrite !int_of_float_neg by assumption. by apply Qceiling_resp_le.
  - rewrite int_of_float_neg, int_of_float_nonneg by assumption.
    transitivity 0.
    + change 0 with (Qceiling 0). apply Qceiling_resp_le. lra.
    + change 0 with (Qfloor 0). by apply Qfloor_resp_le.
  - lra.
  - rewrite !int_of_float_nonneg by assumption. by apply Qfloor_resp_le.
Qed.

Lemma int_of_float_Z (n : Z) : int_of_float (inject_Z n) = n.
Proof. unfold int_of_float. simpl. apply Z.quot_1_r. Qed.

(** Every reachable state has a non-negative duration, and is paused only
    while playing. *)
Lemma reachable_inv s :
  reachable s ->
  0 <= _duration s /\ (is_paused s = true -> is_playing s = true).
Proof.
  induction 1 as [|now c s _ [IHd IHp] Hok].
  - simpl. split; [lia | discriminate].
  - destruct c; simpl in *.
    + split; [exact Hok | discriminate].
    + unfold pause. destruct (is_playing s) eqn:Ep; simpl.
      * destruct (is_paused s); simpl; split; auto.
      * split; [assumption | intros Hx; specialize (IHp Hx); congruence].
    + unfold resume. destruct (is_paused s) eqn:Ep; simpl.
      * split; [exact IHd | discriminate].
      * split; [exact IHd | rewrite Ep; discriminate].
    + split; [exact IHd | discriminate].
    + split; [lia | discriminate].
    + split; assumption.
Qed.

Lemma current_position_range (now : Q) s :
  0 <= _duration s -> 0 <= current_position now s <= _duration s.
Proof.
  intros Hd. unfold current_position. destruct (is_playing s); simpl; lia.
Qed.

Lemma current_position_mono (t1 t2 : Q) s :
  is_paused s = false -> (t1 <= t2)%Q ->
  current_position t1 s <= current_position t2 s.
Proof.
  intros Hp Ht. unfold current_position, elapsed. rewrite Hp.
  destruct (is_playing s); simpl; [|lia].
  assert (H : int_of_float (t1 - _start_time s - _total_paused s)
              <= int_of_float (t2 - _start_time s - _total_paused s))
    by (apply int_of_float_mono; lra).
  lia.
Qed.

Lemma current_position_paused (t1 t2 : Q) s :
  is_paused s = true -> current_position t1 s = current_position t2 s.
Proof.
  intros Hp. unfold current_position, elapsed. by rewrite Hp.
Qed.

Lemma current_position_derived (now : Q) s :
  is_playing s = true -> current_position now s = derived_position now s.
Proof.
  intros Hp. unfold current_position, derived_position, elapsed. rewrite Hp.
  simpl. f_equal. f_equal. apply int_of_float_comp.
  destruct (is_paused s); ring.
Qed.

(** A pause does not move the position, and neither does the [resume] that
    ends it, read at the moment of the call. *)
Lemma resume_keeps_position (now : Q) s :
  is_playing s = true -> is_paused s = true ->
  current_position now (resume now s).2 = current_position now s.
Proof.
  intros Hpl Hp. unfold resume, current_position, elapsed. rewrite Hp. simpl.
  rewrite Hpl. simpl. f_equal. f_equal. apply int_of_float_comp. ring.
Qed.

End StateFacts.

Section StateClaims.

Import State.

(** C2. In every reachable playback state the current position lies in
    [[0, duration]]; while the state is playing and not paused a later
    reading of the clock never gives a smaller position; while it is paused
    any two readings give the same position; and while it is playing the
    position is the time since the start, minus the accumulated paused time,
    minus the time since the pause began when paused, truncated and clamped.
    For example after [start] with a duration of 180, 45 seconds, [pause],
    10 seconds, [resume] and 5 more seconds the position is 50 (and it was 45
    all through the pause). *)
Theorem playback_position (s : PlaybackState) (Hreach : reachable s) :
  (forall now, 0 <= current_position now s <= _duration s) /\
  (is_playing s = true -> is_paused s = false ->
     forall t1 t2, (t1 <= t2)%Q ->
       current_position t1 s <= current_position t2 s) /\
  (is_paused s = true ->
     forall t1 t2, current_position t1 s = current_position t2 s) /\
  (is_playing s = true ->
     forall now, current_position now s = derived_position now s) /\
  (forall (t0 : Q) song_id,
     let s1 := start t0 180 song_id s in
     let s2 := (pause (t0 + 45) s1).2 in
     let s3 := (resume (t0 + 55) s2).2 in
     reachable s3 /\
     current_position (t0 + 45) s1 = 45 /\
     current_position (t0 + 55) s2 = 45 /\
     current_position (t0 + 60) s3 = 50).
Proof.
  destruct (reachable_inv s Hreach) as [Hd _].
  split; [|split; [|split; [|split]]].
  - intros now. by apply current_position_range.
  - intros _ Hp t1 t2 Ht. by apply current_position_mono.
  - intros Hp t1 t2. by apply current_position_paused.
  - intros Hp now. by apply current_position_derived.
  - intros t0 song_id s1 s2 s3. split; [|split; [|split]].
    + change s3 with
        (run (t0 + 55) Resume
           (run (t0 + 45) Pause (run t0 (Start 180 song_id) s))).
      apply reach_call; [apply reach_call; [apply reach_call|]|];
        first [exact Hreach | exact I | simpl; lia].
    + unfold current_position, elapsed. simpl.
      rewrite (int_of_float_comp _ (inject_Z 45)) by (simpl; ring).
      rewrite int_of_float_Z. reflexivity.
    + unfold current_position, elapsed. simpl.
      rewrite (int_of_float_comp _ (inject_Z 45)) by (simpl; ring).
      rewrite int_of_float_Z. reflexivity.
    + unfold current_position, elapsed. simpl.
      rewrite (int_of_float_comp _ (inject_Z 50)) by (simpl; ring).
      rewrite int_of_float_Z. reflexivity.
Qed.

(** A state reached by [start], [pause] and [resume], and the theorem
    applied to it: 100 seconds after the start, 20 of them paused. *)
Lemma playback_position_witness :
  let s := run 30 Resume (run 10 Pause (run 0 (Start 180 None) init)) in
  reachable s /\ 0 <= current_position 100 s <= 180.
Proof.
  assert (H : reachable
                (run 30 Resume (run 10 Pause (run 0 (Start 180 None) init)))).
  { repeat apply reach_call; simpl; try exact I; [apply reach_init | lia]. }
  split; [exact H|].
  exact (proj1 (playback_position _ H) 100%Q).
Defined.

End StateClaims.

(** ** The end-of-song callback *)

Section CogClaims.

Import Cog.

Lemma Qltb_true (x y : Q) : (x < y)%Q -> Qltb x y = true.
Proof.
  intros H. unfold Qltb. destruct (Qle_bool y x) eqn:E; [|reflexivity].
  apply Qle_bool_iff in E. lra.
Qed.

Lemma truthy_true (x : Q) : ~ x == 0 -> truthy x = true.
Proof.
  intros H. unfold truthy. destruct (Qeq_bool x 0) eqn:E; [|reflexivity].
  apply Qeq_bool_iff in E. contradiction.
Qed.

(** C5. A natural-completion signal that arrives less than the debounce
    window after [mark_manual_operation] stamped the playback state is
    dropped: [_on_song_end] returns with the cog, its queue cursor included,
    unchanged and without asking for anything to be played or shown. The
    same holds of every player whose stamp is that reading of the clock,
    whatever happened to the rest of its state since. (The stamp is a reading
    of [time.time()], which is not zero: zero is the value of a state that
    was never stamped.) The player's own handler, which runs first and calls
    [_on_song_end], stops the playback state and, likewise, neither touches
    the queue nor asks for anything. *)
Theorem completion_within_debounce_discarded
    (MANUAL_OPERATION_DEBOUNCE : Q) (p : MusicPlayer) (t_mark now : Q) :
  ~ t_mark == 0 ->
  (now - t_mark < MANUAL_OPERATION_DEBOUNCE)%Q ->
  (let p' := with_state (State.mark_manual_operation t_mark (state p)) p in
   _on_song_end MANUAL_OPERATION_DEBOUNCE now {| player := Some p' |}
   = ({| player := Some p' |}, [])) /\
  (forall p',
     State.last_manual_operation_time (state p') = t_mark ->
     _on_song_end MANUAL_OPERATION_DEBOUNCE now {| player := Some p' |}
     = ({| player := Some p' |}, [])) /\
  (forall p',
     State.last_manual_operation_time (state p') = t_mark ->
     _handle_song_end MANUAL_OPERATION_DEBOUNCE now {| player := Some p' |}
     = ({| player := Some (with_state (State.stop (state p')) p') |}, [])).
Proof.
  intros Hnz Hlt.
  assert (G : forall p',
             State.last_manual_operation_time (state p') = t_mark ->
             _on_song_end MANUAL_OPERATION_DEBOUNCE now {| player := Some p' |}
             = ({| player := Some p' |}, [])).
  { intros p' Hstamp. unfold _on_song_end. simpl. rewrite Hstamp.
    by rewrite truthy_true, Qltb_true. }
  split; [|split; [exact G|]].
  - intros p'. apply G. reflexivity.
  - intros p' Hstamp. unfold _handle_song_end. simpl. apply G. exact Hstamp.
Qed.

(** The scenario of the design document, with a window of 500 ms: the "next"
    button is pressed on [[A, B, C]] when the clock shows 1000 s, which
    moves the cursor to [B]; the completion callback of the song that was
    cut short arrives 100 ms later and changes nothing. *)
Lemma completion_within_debounce_discarded_witness :
  let cog0 :=
    {| player := Some {| state := State.init; queue := Sample.abc false |} |} in
  let pressed := _handle_next 1000 cog0 in
  pressed.2 = [PlaySong Sample.B] /\
  _on_song_end (1 # 2) (1000 + (1 # 10)) pressed.1 = (pressed.1, []).
Proof.
  split; [reflexivity|].
  refine (proj1 (proj2 (completion_within_debounce_discarded
                   (1 # 2) {| state := State.init; queue := Sample.abc false |}
                   1000 (1000 + (1 # 10)) _ _)) _ _).
  - intros H. discriminate H.
  - reflexivity.
  - reflexivity.
Defined.

(** Outside the window the callback does advance the queue. *)
Example completion_after_debounce_advances :
  let cog0 :=
    {| player := Some {| state := State.init; queue := Sample.abc false |} |} in
  let pressed := _handle_next 1000 cog0 in
  (_on_song_end (1 # 2) (1000 + (6 # 10)) pressed.1).2 = [PlaySong Sample.C].
Proof. reflexivity. Qed.

End CogClaims.

(** ** CacheManager *)

Section CacheFacts.

Import Cache.

Lemma mapM_elem {A B} (f : A -> option B) (l : list A) (k : list B) :
  mapM f l = Some k ->
  forall y, y ∈ k <-> exists x, x ∈ l /\ f x = Some y.
Proof.
  intros H. apply mapM_Some_1 in H.
  induction H as [|x y l k Hxy _ IH]; intros z.
  - split; [intros Hz; inversion Hz | intros (x & Hx & _); inversion Hx].
  - rewrite elem_of_cons, IH. split.
    + intros [->|(x' & Hx' & Hf)].
      * exists x. split; [left | exact Hxy].
      * exists x'. split; [by right | exact Hf].
    + intros (x' & Hx' & Hf). apply elem_of_cons in Hx' as [->|Hx'].
      * left. congruence.
      * right. eauto.
Qed.

(** The window never leaves the queue, [queue[i]] never raises, and the keep
    set is the set of identifiers found in the window. *)
Lemma update_keep_ids_spec (queue : list Queue.Song) (current_index : Z)
    (c : CacheManager) :
  exists keep,
    _update_keep_ids queue current_index c = Some (set_keep_ids keep c) /\
    forall x, x ∈ keep <->
      exists i song,
        keep_start c current_index <= i < keep_end c queue current_index /\
        Py.index queue i = Some song /\ Queue.id song = x.
Proof.
  unfold _update_keep_ids.
  set (f := fun i : Z => Queue.id <$> Py.index queue i).
  set (r := Py.range (keep_start c current_index)
                     (keep_end c queue current_index)).
  assert (Hsome : is_Some (mapM f r)).
  { apply mapM_is_Some_2, Forall_forall. intros i Hi.
    apply range_elem in Hi. unfold keep_start, keep_end in Hi.
    destruct (index_in_range queue i) as [song Hsong]; [lia|].
    unfold f. simpl. rewrite Hsong. by eexists. }
  destruct Hsome as [ids Hids]. rewrite Hids. simpl.
  exists (list_to_set ids). split; [reflexivity|].
  intros x. rewrite elem_of_list_to_set, (mapM_elem f r ids Hids). split.
  - intros (i & Hi & Hf). apply range_elem in Hi. unfold f in Hf.
    destruct (Py.index queue i) as [song|] eqn:E; [|discriminate].
    simpl in Hf. exists i, song. split; [exact Hi|]. split; congruence.
  - intros (i & song & Hi & Hs & Hx). exists i. split; [by apply range_elem|].
    unfold f. rewrite Hs. simpl. by rewrite Hx.
Qed.





Lemma stem_empty_id : stem (CacheFile "") = ".opus"%string.
Proof. reflexivity. Qed.

Lemma glob_opus_elem (fs : gset path) (file : path) :
  file ∈ glob_opus fs <-> file ∈ fs /\ in_cache_dir file = true.
Proof.
  unfold glob_opus. rewrite list_elem_of_filter, elem_of_elements. tauto.
Qed.

(** A file survives the loop of [_cleanup_old] unless it is listed, its stem
    is not to be kept, and its [unlink] goes through. *)
Lemma cleanup_fold (os : OS) (keep : gset string) (l : list path)
    (fs : gset path) (p : path) :
  p ∈ foldl (cleanup_step os keep) fs l <->
  p ∈ fs /\
  ~ (p ∈ l /\ (stem p ∉ keep) /\ unlink_raises os p = false).
Proof.
  revert fs. induction l as [|a l IH]; intros fs; simpl.
  - split; [intros H; split; [exact H|] | tauto].
    intros (Hs & _). inversion Hs.
  - rewrite IH. unfold cleanup_step.
    destruct (bool_decide_reflect (stem a ∉ keep)) as [Ha|Ha].
    + destruct (unlink_raises os a) eqn:Hr.
      * split; intros [Hp Hn]; (split; [exact Hp|]);
          intros (Hs & Hk & Hu); apply Hn.
        -- repeat split; try assumption.
           apply elem_of_cons in Hs as [->|Hs]; [congruence | exact Hs].
        -- repeat split; try assumption. by right.
      * split.
        -- intros [Hp Hn]. apply elem_of_difference in Hp as [Hp Hne].
           split; [exact Hp|]. intros (Hs & Hk & Hu).
           apply elem_of_cons in Hs as [->|Hs].
           ++ apply Hne. by apply elem_of_singleton.
           ++ apply Hn. by repeat split.
        -- intros [Hp Hn]. split.
           ++ apply elem_of_difference. split; [exact Hp|].
              intros Hs. apply elem_of_singleton in Hs as ->.
              apply Hn. repeat split; try assumption. by left.
           ++ intros (Hs & Hk & Hu). apply Hn.
              repeat split; try assumption. by right.
    + split; intros [Hp Hn]; (split; [exact Hp|]);
        intros (Hs & Hk & Hu); apply Hn.
      * repeat split; try assumption.
        apply elem_of_cons in Hs as [->|Hs]; [contradiction | exact Hs].
      * repeat split; try assumption. by right.
Qed.

Lemma cleanup_old_spec (os : OS) (c : CacheManager) (fs : gset path) (p : path) :
  p ∈ _cleanup_old os c fs <->
  p ∈ fs /\
  ~ (in_cache_dir p = true /\ (stem p ∉ _keep_ids c) /\
     unlink_raises os p = false).
Proof.
  unfold _cleanup_old. rewrite cleanup_fold. split; intros [Hp Hn];
    (split; [exact Hp|]); intros H; apply Hn.
  - destruct H as (Hd & Hk & Hu). repeat split; try assumption.
    by apply glob_opus_elem.
  - destruct H as (Hl & Hk & Hu). apply glob_opus_elem in Hl as [_ Hd].
    by repeat split.
Qed.

(** Past a non-negative cursor the loop of [_preload_ahead] never indexes
    outside the queue. *)
Lemma preload_loop_total (fs : gset path) (queue : list Queue.Song)
    (current_index : Z) (offsets : list Z) tasks created :
  0 <= current_index -> Forall (fun o => 0 <= o) offsets ->
  is_Some (preload_loop fs queue current_index offsets tasks created).
Proof.
  intros Hcur Hoff. revert tasks created.
  induction Hoff as [|o offsets Ho _ IH]; intros tasks created; simpl.
  - by eexists.
  - destruct (Z.geb_spec (current_index + o) (Py.len queue)); [by eexists|].
    destruct (index_in_range queue (current_index + o)) as [song ->]; [lia|].
    simpl. destruct (exists_ fs (Queue.id song)); [apply IH|].
    destruct (preload_pending tasks (Queue.id song)); apply IH.
Qed.


End CacheFacts.

Section CacheClaims.

Import Cache.



(** C10. Called with an empty list of songs or with a negative index,
    [on_song_change] returns at once: the manager, its keep set and task
    table included, and the file system are as before, and no task was
    created. *)
Theorem on_song_change_noop (os : OS) (queue : list Queue.Song)
    (current_index : Z) (c : CacheManager) (fs : gset path) :
  queue = [] \/ current_index < 0 ->
  on_song_change os queue current_index c fs
  = Some {| manager := c; files := fs; created_tasks := [] |}.
Proof.
  intros H. unfold on_song_change.
  assert (E : bool_decide (queue = []) || (current_index <? 0) = true).
  { destruct H as [->|H].
    - reflexivity.
    - destruct (Z.ltb_spec current_index 0); [|lia]. apply orb_true_r. }
  by rewrite E.
Qed.

(** An empty list of songs, and ten songs with the index [-1]. *)
Lemma on_song_change_noop_witness :
  let fs : gset path := {[ CacheFile "s0"; OtherFile "s1.webm" ]} in
  on_song_change reliable [] 0 (new 2 3) fs
  = Some {| manager := new 2 3; files := fs; created_tasks := [] |} /\
  on_song_change reliable Sample.ten (-1) (new 2 3) fs
  = Some {| manager := new 2 3; files := fs; created_tasks := [] |}.
Proof.
  intros fs. split.
  - apply on_song_change_noop. left. reflexivity.
  - apply on_song_change_noop. right. lia.
Defined.

Lemma moved_target_in (fs : gset path) (source target : path) :
  target ∈ ({[target]} ∪ (fs ∖ {[source]}) : gset path).
Proof. apply elem_of_union_l, elem_of_singleton. reflexivity. Qed.

Lemma moved_source_out (fs : gset path) (source target : path) :
  source <> target -> source ∉ ({[target]} ∪ (fs ∖ {[source]}) : gset path).
Proof.
  intros Hne H. apply elem_of_union in H as [H|H].
  - apply elem_of_singleton in H. contradiction.
  - apply elem_of_difference in H as [_ H]. apply H, elem_of_singleton.
    reflexivity.
Qed.

(** C8. [put] is idempotent: a second call with the same identifier and path
    changes nothing any more. It does nothing when the path already is the
    cache path of the identifier or when that cache path already exists;
    otherwise it moves an existing source file to the cache path. Whenever
    the source or the cache file existed (and the move, if one is needed, is
    not refused by the operating system), exactly one cache file is present
    for the identifier after the two calls. *)
Theorem put_idempotent (os : OS) (song_id : string) (file_path : path)
    (fs : gset path) :
  let target := get_path song_id in
  let fs1 := put os song_id file_path fs in
  let fs2 := put os song_id file_path fs1 in
  fs2 = fs1 /\
  (file_path = target -> fs1 = fs) /\
  (target ∈ fs -> fs1 = fs) /\
  (file_path <> target -> target ∉ fs -> file_path ∈ fs ->
   rename_raises os file_path target = false ->
     fs1 = {[target]} ∪ (fs ∖ {[file_path]}) /\
     target ∈ fs1 /\ file_path ∉ fs1) /\
  (file_path ∈ fs \/ target ∈ fs ->
   rename_raises os file_path target = false ->
     target ∈ fs2 /\
     size (filter (fun p => p = target) fs2) = 1%nat).
Proof.
  intros target fs1 fs2.
  assert (Hdesc :
    (file_path = target /\ fs1 = fs) \/
    (file_path <> target /\ target ∈ fs /\ fs1 = fs) \/
    (file_path <> target /\ (target ∉ fs) /\ file_path ∈ fs /\
       rename_raises os file_path target = true /\ fs1 = fs) \/
    (file_path <> target /\ (target ∉ fs) /\ file_path ∈ fs /\
       rename_raises os file_path target = false /\
       fs1 = {[target]} ∪ (fs ∖ {[file_path]})) \/
    (file_path <> target /\ (target ∉ fs) /\ (file_path ∉ fs) /\ fs1 = fs)).
  { subst fs1. unfold put. fold target.
    repeat case_bool_decide; try tauto.
    destruct (rename_raises os file_path target); tauto. }
  assert (Hidem : fs2 = fs1).
  { subst fs2. unfold put at 1. fold target.
    destruct Hdesc as [(E & _)|[(Hne & Hin & E)|[(Hne & Hn & Hs & Hr & E)
      |[(Hne & Hn & Hs & Hr & E)|(Hne & Hn & Hs & E)]]]].
    - by rewrite bool_decide_eq_true_2.
    - rewrite bool_decide_eq_false_2 by exact Hne.
      by rewrite bool_decide_eq_true_2 by (rewrite E; exact Hin).
    - rewrite bool_decide_eq_false_2 by exact Hne. rewrite E.
      rewrite bool_decide_eq_false_2 by exact Hn.
      rewrite bool_decide_eq_true_2 by exact Hs. by rewrite Hr.
    - rewrite bool_decide_eq_false_2 by exact Hne.
      by rewrite bool_decide_eq_true_2 by (rewrite E; apply moved_target_in).
    - rewrite bool_decide_eq_false_2 by exact Hne. rewrite E.
      rewrite bool_decide_eq_false_2 by exact Hn.
      by rewrite bool_decide_eq_false_2 by exact Hs. }
  split; [exact Hidem|]. split; [|split; [|split]].
  - intros E. destruct Hdesc as [(_ & H)|[(Hne & _)|[(Hne & _)
      |[(Hne & _)|(Hne & _)]]]]; first [exact H | contradiction].
  - intros Hin. destruct Hdesc as [(_ & H)|[(_ & _ & H)|[(_ & Hn & _)
      |[(_ & Hn & _)|(_ & Hn & _)]]]]; first [exact H | contradiction].
  - intros Hne Hn Hs Hr. destruct Hdesc as [(E & _)|[(_ & Hin & _)
      |[(_ & _ & _ & Hr' & _)|[(_ & _ & _ & _ & E)|(_ & _ & Hs' & _)]]]];
      try contradiction; try congruence.
    rewrite E. split; [reflexivity|].
    split; [apply moved_target_in | by apply moved_source_out].
  - intros Hex Hr. rewrite Hidem.
    assert (Hin : target ∈ fs1).
    { destruct Hdesc as [(E & ->)|[(_ & Hin & ->)|[(_ & _ & _ & Hr' & _)
        |[(_ & _ & _ & _ & ->)|(_ & Hn & Hs & ->)]]]].
      - destruct Hex as [Hex|Hex]; [by rewrite <- E | exact Hex].
      - exact Hin.
      - congruence.
      - apply moved_target_in.
      - destruct Hex as [Hex|Hex]; [contradiction | exact Hex]. }
    split; [exact Hin|].
    assert (Hf : filter (fun p => p = target) fs1 = {[target]}).
    { apply set_eq. intros p. rewrite elem_of_filter, elem_of_singleton.
      split; [tauto | intros ->; tauto]. }
    rewrite Hf. apply size_singleton.
Qed.

(** A file downloaded outside the cache directory is moved in by the first
    call, and the second call finds everything in place. *)
Lemma put_idempotent_witness :
  let fs : gset path := {[ OtherFile "/tmp/abc.opus" ]} in
  let fs2 :=
    put reliable "abc" (OtherFile "/tmp/abc.opus")
      (put reliable "abc" (OtherFile "/tmp/abc.opus") fs) in
  (OtherFile "/tmp/abc.opus" ∈ fs \/ get_path "abc" ∈ fs) /\
  get_path "abc" ∈ fs2 /\
  size (filter (fun p => p = get_path "abc") fs2) = 1%nat.
Proof.
  intros fs fs2. split; [left; set_solver|].
  apply (proj2 (proj2 (proj2 (proj2
           (put_idempotent reliable "abc" (OtherFile "/tmp/abc.opus") fs))))).
  - left. set_solver.
  - reflexivity.
Defined.

End CacheClaims.

(** ** Downloader *)

Section DownloaderFacts.

Import Downloader.

(** The classification over any table: without a matching pattern the result
    is [unknown]; any other result is a category of the table one of whose
    patterns occurs in the text; and the first category with such a pattern
    wins. *)
Lemma detect_in_unknown (table : list (string * list string)) (text : string) :
  (forall t patterns pattern,
     (t, patterns) ∈ table -> pattern ∈ patterns ->
     contains pattern text = false) ->
  detect_in table text = "unknown"%string.
Proof.
  induction table as [|[t patterns] rest IH]; intros H; simpl; [reflexivity|].
  destruct (existsb (fun pattern => contains pattern text) patterns) eqn:E.
  - apply existsb_exists in E as (pattern & Hin & Hc).
    rewrite (H t patterns pattern) in Hc;
      [discriminate | by left | by apply list_elem_of_In].
  - apply IH. intros t' ps p Ht Hp. apply (H t' ps p); [by right | exact Hp].
Qed.

Lemma detect_in_match (table : list (string * list string)) (text : string) :
  detect_in table text = "unknown"%string \/
  exists patterns pattern,
    (detect_in table text, patterns) ∈ table /\ pattern ∈ patterns /\
    contains pattern text = true.
Proof.
  induction table as [|[t patterns] rest IH]; simpl; [by left|].
  destruct (existsb (fun pattern => contains pattern text) patterns) eqn:E.
  - right. apply existsb_exists in E as (pattern & Hin & Hc).
    exists patterns, pattern. split; [by left|].
    split; [by apply list_elem_of_In | exact Hc].
  - destruct IH as [IH|(ps & p & Hin & Hp & Hc)]; [by left|].
    right. exists ps, p. split; [by right | by split].
Qed.

Lemma detect_in_first (before after : list (string * list string))
    (t : string) (patterns : list string) (pattern text : string) :
  (forall t' ps p, (t', ps) ∈ before -> p ∈ ps -> contains p text = false) ->
  pattern ∈ patterns -> contains pattern text = true ->
  detect_in (before ++ (t, patterns) :: after) text = t.
Proof.
  intros Hbefore Hin Hc.
  induction before as [|[t' ps] before IH]; simpl.
  - assert (E : existsb (fun p => contains p text) patterns = true).
    { apply existsb_exists. exists pattern.
      split; [by apply list_elem_of_In | exact Hc]. }
    by rewrite E.
  - assert (E : existsb (fun p => contains p text) ps = false).
    { apply not_true_is_false. intros E.
      apply existsb_exists in E as (p & Hp & Hpc).
      rewrite (Hbefore t' ps p) in Hpc;
        [discriminate | by left | by apply list_elem_of_In]. }
    rewrite E. apply IH. intros t'' ps' p Ht Hp.
    apply (Hbefore t'' ps' p); [by right | exact Hp].
Qed.

End DownloaderFacts.

Section DownloaderClaims.

Import Downloader.

(** Python's lower-casing of the text, the JSON parser and the download step
    are the same for every statement below. *)
Variable str_lower : string -> string.
Variable parse_video_json : string -> option VideoInfo.
Variable fetch_and_convert :
  string -> string -> VideoInfo -> gset Cache.path ->
  (option (ErrorResponse + VideoInfo) * option Cache.path) * gset Cache.path.

(** C6 (amended). When the extraction subprocess fails and its lower-cased
    message contains "private video" and none of the patterns of the
    categories listed before [private] in the table (age_restricted,
    copyright, region_blocked), the result is the error dict with reason
    [private] and the message "此影片為私人或不公開", and the download returns
    it with no file path and leaves the file system as it was. The reason is
    always found by looking for the patterns of the table in the lower-cased
    message, category by category in the order of the table: it is [unknown]
    when no pattern occurs, and otherwise a category one of whose patterns
    occurs. *)
Theorem private_video_classification
    (now : Q) (url : string) (returncode : Z) (stdout_str stderr_str : string)
    (fs : gset Cache.path) :
  let error_msg := failure_message returncode stdout_str stderr_str in
  let run := ProcExit returncode stdout_str stderr_str in
  let response := _create_error_response str_lower now error_msg url in
  returncode <> 0 ->
  contains "private video" (str_lower error_msg) = true ->
  Forall (fun pattern => contains pattern (str_lower error_msg) = false)
         (patterns_before "private" ERROR_PATTERNS) ->
  extract_info str_lower parse_video_json now url run = Some (inl response) /\
  error_type response = "private"%string /\
  display_message response = "此影片為私人或不公開"%string /\
  success response = false /\
  download str_lower parse_video_json fetch_and_convert now url None run fs
  = ((Some (inl response), None), fs) /\
  (forall song_id,
     Cache.CacheFile song_id ∉ fs ->
     download str_lower parse_video_json fetch_and_convert
              now url (Some song_id) run fs
     = ((Some (inl response), None), fs)) /\
  (forall song_id,
     (download str_lower parse_video_json fetch_and_convert
               now url (Some song_id) run fs).2 = fs) /\
  (forall msg,
     (forall t patterns pattern,
        (t, patterns) ∈ ERROR_PATTERNS -> pattern ∈ patterns ->
        contains pattern (str_lower msg) = false) ->
     _detect_error_type str_lower msg = "unknown"%string) /\
  (forall msg,
     _detect_error_type str_lower msg = "unknown"%string \/
     exists patterns pattern,
       (_detect_error_type str_lower msg, patterns) ∈ ERROR_PATTERNS /\
       pattern ∈ patterns /\ contains pattern (str_lower msg) = true).
Proof.
  intros error_msg run response Hrc Hpriv Hbefore.
  assert (Hex : extract_info str_lower parse_video_json now url run
                = Some (inl response)).
  { unfold extract_info, run. destruct (Z.eqb_spec returncode 0); [lia|].
    reflexivity. }
  assert (Htype : _detect_error_type str_lower error_msg = "private"%string).
  { unfold _detect_error_type.
    apply (detect_in_first
             [ ("age_restricted"%string, _); ("copyright"%string, _);
               ("region_blocked"%string, _) ]
             [ ("unavailable"%string, _) ]
             "private" _ "private video").
    - intros t ps p Ht Hp. rewrite Forall_forall in Hbefore. apply Hbefore.
      simpl. rewrite !elem_of_cons in Ht.
      destruct Ht as [[= -> ->]|[[= -> ->]|[[= -> ->]|Ht]]];
        [| | |inversion Ht];
        apply list_elem_of_In in Hp; apply list_elem_of_In; simpl in *; tauto.
    - by left.
    - exact Hpriv. }
  split; [exact Hex|]. split; [exact Htype|].
  split; [unfold response, _create_error_response; simpl; by rewrite Htype|].
  split; [reflexivity|].
  split; [unfold download; by rewrite Hex|].
  split; [|split; [|split]].
  - intros song_id Hn. unfold download.
    rewrite bool_decide_eq_false_2 by exact Hn. by rewrite Hex.
  - intros song_id. unfold download. case_bool_decide; [reflexivity|].
    by rewrite Hex.
  - intros msg H. by apply detect_in_unknown.
  - intros msg. apply detect_in_match.
Qed.

End DownloaderClaims.

(** C6, as the design document words it, is contradicted by a failure
    message that contains "private video" together with a pattern of a
    category listed earlier in the table: the extraction fails, the
    lower-cased message contains "private video", and the reason is
    [copyright], with the message of that category. *)
Lemma private_video_counterexample :
  let error_msg :=
    "ERROR: Private video: the content owner has blocked it"%string in
  let response :=
    Downloader._create_error_response Downloader.ascii_lower 0 error_msg "u" in
  Downloader.contains "private video" (Downloader.ascii_lower error_msg) = true /\
  Downloader.extract_info Downloader.ascii_lower (fun _ => None) 0 "u"
    (Downloader.ProcExit 1 "" error_msg) = Some (inl response) /\
  Downloader.error_type response = "copyright"%string /\
  Downloader.error_type response <> "private"%string /\
  Downloader.display_message response <> "此影片為私人或不公開"%string.
Proof.
  simpl. repeat split; try reflexivity; vm_compute; discriminate.
Qed.

(** The message [yt-dlp] prints for a private video: the extraction fails
    with exit code 1 and the download of the song, not cached yet, returns
    the error dict with reason [private] and no path. *)
Lemma private_video_classification_witness :
  let error_msg :=
    ("ERROR: [youtube] dQw4w9WgXcQ: Private video. " +:+
     "Sign in if you've been granted access to this video")%string in
  let response :=
    Downloader._create_error_response Downloader.ascii_lower 0 error_msg "u" in
  1 <> 0 /\
  Downloader.contains "private video" (Downloader.ascii_lower error_msg) = true /\
  Downloader.download Downloader.ascii_lower (fun _ => None)
    (fun _ _ _ fs => ((None, None), fs)) 0 "u" None
    (Downloader.ProcExit 1 "" error_msg) ∅
  = ((Some (inl response), None), ∅) /\
  Downloader.error_type response = "private"%string /\
  Downloader.display_message response = "此影片為私人或不公開"%string.
Proof.
  intros error_msg response.
  assert (Hrc : 1 <> 0) by lia.
  assert (Hc : Downloader.contains "private video"
                 (Downloader.ascii_lower error_msg) = true)
    by (vm_compute; reflexivity).
  split; [exact Hrc|]. split; [exact Hc|].
  destruct (private_video_classification Downloader.ascii_lower (fun _ => None)
              (fun _ _ _ fs => ((None, None), fs)) 0 "u" 1 "" error_msg ∅)
    as (_ & Ht & Hd & _ & Hdl & _).
  - exact Hrc.
  - exact Hc.
  - repeat constructor; vm_compute; reflexivity.
  - split; [exact Hdl|]. split; [exact Ht | exact Hd].
Defined.

(** * Further properties of the code *)

(** ** Floats: rounding keeps the order and leaves small integers alone *)

Section F64Facts.

Import F64.

Local Open Scope Q_scope.

Lemma pow2_pos (k : Z) : 0 < pow2 k.
Proof. apply Qpower_0_lt. reflexivity. Qed.

Lemma pow2_add (a b : Z) : pow2 (a + b) == pow2 a * pow2 b.
Proof. apply Qpower_plus. discriminate. Qed.

Lemma pow2_le (a b : Z) : (a <= b)%Z -> pow2 a <= pow2 b.
Proof. intros H. apply Qpower_le_compat_l; [exact H | discriminate]. Qed.

Lemma pow2_lt_inv (a b : Z) : pow2 a < pow2 b -> (a < b)%Z.
Proof. intros H. apply (Qpower_lt_compat_l_inv 2); [exact H | reflexivity]. Qed.

Lemma pow2_nonneg (k : Z) : (0 <= k)%Z -> pow2 k == inject_Z (2 ^ k).
Proof. intros H. unfold pow2. rewrite Zpower_Qpower by exact H. reflexivity. Qed.

Lemma pow2_inv (k : Z) : pow2 k * pow2 (- k) == 1.
Proof. rewrite <- pow2_add. replace (k + - k)%Z with 0%Z by lia. reflexivity. Qed.

Lemma pow2_opp (k : Z) : pow2 (- k) == / pow2 k.
Proof. apply Qpower_opp. Qed.

Lemma Qnum_pos (x : Q) : 0 < x <-> (0 < Qnum x)%Z.
Proof. unfold Qlt. simpl. lia. Qed.

Lemma Qnum_neg (x : Q) : x < 0 <-> (Qnum x < 0)%Z.
Proof. unfold Qlt. simpl. lia. Qed.

Lemma Qnum_zero (x : Q) : x == 0 <-> Qnum x = 0%Z.
Proof. unfold Qeq. simpl. lia. Qed.

(** [ilog2 x] is the integer part of the binary logarithm of [x]. *)
Lemma ilog2_spec (x : Q) :
  0 < x -> pow2 (ilog2 x) <= x /\ x < pow2 (ilog2 x + 1).
Proof.
  intros Hx. destruct x as [n d]. apply Qnum_pos in Hx. simpl in Hx.
  unfold ilog2. cbn [Qnum Qden].
  set (a := Z.log2 n). set (b := Z.log2 (Z.pos d)). set (k := (a - b)%Z).
  destruct (Z.log2_spec n Hx) as [Ha1 Ha2]. fold a in Ha1, Ha2.
  destruct (Z.log2_spec (Z.pos d) ltac:(lia)) as [Hb1 Hb2]. fold b in Hb1, Hb2.
  assert (Ha0 : (0 <= a)%Z) by apply Z.log2_nonneg.
  assert (Hb0 : (0 <= b)%Z) by apply Z.log2_nonneg.
  assert (Hn1 : inject_Z n < pow2 (a + 1)).
  { rewrite pow2_nonneg by lia. rewrite <- Zlt_Qlt. exact Ha2. }
  assert (Hn0 : pow2 a <= inject_Z n).
  { rewrite pow2_nonneg by lia. rewrite <- Zle_Qle. exact Ha1. }
  assert (Hd1 : inject_Z (Z.pos d) < pow2 (b + 1)).
  { rewrite pow2_nonneg by lia. rewrite <- Zlt_Qlt. exact Hb2. }
  assert (Hd0 : pow2 b <= inject_Z (Z.pos d)).
  { rewrite pow2_nonneg by lia. rewrite <- Zle_Qle. exact Hb1. }
  assert (Hdpos : 0 < inject_Z (Z.pos d)) by (rewrite <- (Zlt_Qlt 0); lia).
  assert (Hx' : n # d == inject_Z n / inject_Z (Z.pos d)) by apply Qmake_Qdiv.
  assert (Hup : n # d < pow2 (k + 1)).
  { rewrite Hx'. apply Qlt_shift_div_r; [exact Hdpos|].
    eapply Qlt_le_trans; [exact Hn1|].
    replace (a + 1)%Z with (k + 1 + b)%Z by lia. rewrite pow2_add.
    apply Qmult_le_l; [apply pow2_pos | exact Hd0]. }
  assert (Hlow : pow2 (k - 1) <= n # d).
  { rewrite Hx'. apply Qle_shift_div_l; [exact Hdpos|].
    eapply Qle_trans; [|exact Hn0].
    apply Qle_trans with (pow2 (k - 1) * pow2 (b + 1)).
    - apply Qmult_le_l; [apply pow2_pos | apply Qlt_le_weak, Hd1].
    - rewrite <- pow2_add. apply pow2_le. lia. }
  destruct (Qle_bool (pow2 k) (n # d)) eqn:E.
  - apply Qle_bool_iff in E. split; [exact E | exact Hup].
  - split; [exact Hlow|]. replace (k - 1 + 1)%Z with k by lia.
    apply Qnot_le_lt. intros H. apply Qle_bool_iff in H. congruence.
Qed.

Lemma ilog2_mono (x y : Q) : 0 < x -> x <= y -> (ilog2 x <= ilog2 y)%Z.
Proof.
  intros Hx Hxy. assert (Hy : 0 < y) by lra.
  destruct (ilog2_spec x Hx) as [H1 _]. destruct (ilog2_spec y Hy) as [_ H2].
  assert (H : pow2 (ilog2 x) < pow2 (ilog2 y + 1)) by lra.
  apply pow2_lt_inv in H. lia.
Qed.

Lemma ilog2_lt (x : Q) (k : Z) : 0 < x -> x < pow2 k -> (ilog2 x < k)%Z.
Proof.
  intros Hx H. destruct (ilog2_spec x Hx) as [H1 _].
  apply pow2_lt_inv. lra.
Qed.

(** Rounding to the nearest integer, ties to even. *)
Lemma rne_cases (x : Q) :
  (rne x = Qfloor x /\ x - inject_Z (Qfloor x) <= 1 # 2) \/
  (rne x = (Qfloor x + 1)%Z /\ 1 # 2 <= x - inject_Z (Qfloor x)).
Proof.
  unfold rne. destruct (Qcompare_spec (x - inject_Z (Qfloor x)) (1 # 2)) as [E|E|E].
  - destruct (Z.even (Qfloor x)); [left | right]; (split; [reflexivity | lra]).
  - left. split; [reflexivity | lra].
  - right. split; [reflexivity | lra].
Qed.

Lemma rne_mono (x y : Q) : x <= y -> (rne x <= rne y)%Z.
Proof.
  intros Hxy. pose proof (Qfloor_resp_le x y Hxy) as Hf.
  destruct (Z.eq_dec (Qfloor x) (Qfloor y)) as [E|Hne].
  - unfold rne. rewrite E.
    destruct (Qcompare_spec (x - inject_Z (Qfloor y)) (1 # 2)) as [Ex|Ex|Ex];
      destruct (Qcompare_spec (y - inject_Z (Qfloor y)) (1 # 2)) as [Ey|Ey|Ey];
      try lia; try (exfalso; lra); destruct (Z.even (Qfloor y)); try lia;
      exfalso; lra.
  - destruct (rne_cases x) as [[-> _]|[-> _]]; destruct (rne_cases y) as [[-> _]|[-> _]]; lia.
Qed.

Lemma rne_proper (x y : Q) : x == y -> rne x = rne y.
Proof.
  intros E. apply Z.le_antisymm; apply rne_mono; rewrite E; apply Qle_refl.
Qed.

Lemma rne_Z (n : Z) : rne (inject_Z n) = n.
Proof.
  destruct (rne_cases (inject_Z n)) as [[-> _]|[_ H]].
  - apply Qfloor_Z.
  - rewrite Qfloor_Z in H. exfalso. lra.
Qed.

Lemma exponent_mono (x y : Q) : 0 < x -> x <= y -> (exponent x <= exponent y)%Z.
Proof.
  intros Hx Hxy. unfold exponent. pose proof (ilog2_mono x y Hx Hxy). lia.
Qed.

Lemma round_pos_nonneg (x : Q) : 0 < x -> 0 <= round_pos x.
Proof.
  intros Hx. unfold round_pos.
  apply Qmult_le_0_compat; [|apply Qlt_le_weak, pow2_pos].
  rewrite <- (Zle_Qle 0). rewrite <- (rne_Z 0). apply rne_mono.
  apply Qle_shift_div_l; [apply pow2_pos|].
  change (inject_Z 0) with 0. rewrite Qmult_0_l. lra.
Qed.

Lemma round_pos_mono (x y : Q) : 0 < x -> x <= y -> round_pos x <= round_pos y.
Proof.
  intros Hx Hxy. assert (Hy : 0 < y) by lra.
  pose proof (exponent_mono x y Hx Hxy) as He. unfold round_pos.
  set (ex := exponent x) in *. set (ey := exponent y) in *.
  pose proof (pow2_pos ex) as Hpx. pose proof (pow2_pos ey) as Hpy.
  destruct (Z.eq_dec ex ey) as [E|Hne].
  - rewrite E. apply Qmult_le_r; [exact Hpy|].
    rewrite <- Zle_Qle. apply rne_mono.
    apply Qmult_le_r; [apply Qinv_lt_0_compat, Hpy | exact Hxy].
  - assert (Hey : ey = (ilog2 y - 52)%Z) by (unfold ey, ex, exponent in *; lia).
    assert (Hex : (ilog2 x - 52 <= ex)%Z) by (unfold ex, exponent; lia).
    destruct (ilog2_spec x Hx) as [_ Hxu]. destruct (ilog2_spec y Hy) as [Hyl _].
    apply Qle_trans with (pow2 (ex + 53)).
    + rewrite pow2_add, Qmult_comm. apply Qmult_le_l; [exact Hpx|].
      rewrite (pow2_nonneg 53) by lia. rewrite <- Zle_Qle.
      rewrite <- (rne_Z (2 ^ 53)). apply rne_mono.
      apply Qle_shift_div_r; [exact Hpx|].
      rewrite <- (pow2_nonneg 53) by lia. rewrite <- pow2_add.
      apply Qlt_le_weak. eapply Qlt_le_trans; [exact Hxu|].
      apply pow2_le. lia.
    + apply Qle_trans with (pow2 (52 + ey)); [apply pow2_le; lia|].
      rewrite pow2_add. apply Qmult_le_r; [exact Hpy|].
      rewrite (pow2_nonneg 52) by lia. rewrite <- Zle_Qle.
      rewrite <- (rne_Z (2 ^ 52)) at 1. apply rne_mono.
      apply Qle_shift_div_l; [exact Hpy|].
      rewrite <- (pow2_nonneg 52) by lia. rewrite <- pow2_add.
      replace (52 + ey)%Z with (ilog2 y) by lia. exact Hyl.
Qed.

Lemma round_sign (x : Q) :
  (x == 0 /\ round x = 0) \/
  (0 < x /\ round x = round_pos x) \/
  (x < 0 /\ round x = - round_pos (- x)).
Proof.
  unfold round. destruct (Qnum x) eqn:E.
  - left. split; [apply Qnum_zero, E | reflexivity].
  - right. left. split; [apply Qnum_pos; lia | reflexivity].
  - right. right. split; [apply Qnum_neg; lia | reflexivity].
Qed.

(** Rounding keeps the order. *)
Lemma round_mono (x y : Q) : x <= y -> round x <= round y.
Proof.
  intros Hxy.
  destruct (round_sign x) as [[Hx ->]|[[Hx ->]|[Hx ->]]];
    destruct (round_sign y) as [[Hy ->]|[[Hy ->]|[Hy ->]]];
    try (exfalso; lra).
  - lra.
  - by apply round_pos_nonneg.
  - by apply round_pos_mono.
  - pose proof (round_pos_nonneg (- x)). lra.
  - pose proof (round_pos_nonneg (- x)). pose proof (round_pos_nonneg y). lra.
  - pose proof (round_pos_mono (- y) (- x)). lra.
Qed.

#[global] Instance round_proper : Proper (Qeq ==> Qeq) round.
Proof.
  intros x y E. apply Qle_antisym; apply round_mono; rewrite E; apply Qle_refl.
Qed.

Lemma round_0 : round 0 = 0.
Proof. reflexivity. Qed.

Lemma round_nonneg (x : Q) : 0 <= x -> 0 <= round x.
Proof. intros H. rewrite <- round_0. by apply round_mono. Qed.

Lemma round_nonpos (x : Q) : x <= 0 -> round x <= 0.
Proof. intros H. rewrite <- round_0. by apply round_mono. Qed.

(** Integers below [2^53] in size are floats. *)
Lemma round_pos_int (z : Z) :
  (0 < z < 2 ^ 53)%Z -> round_pos (inject_Z z) == inject_Z z.
Proof.
  intros Hz. assert (Hq : 0 < inject_Z z) by (rewrite <- (Zlt_Qlt 0); lia).
  unfold round_pos. set (e := exponent (inject_Z z)).
  assert (He : (e <= 0)%Z).
  { unfold e, exponent.
    assert (ilog2 (inject_Z z) < 53)%Z; [|lia].
    apply ilog2_lt; [exact Hq|]. rewrite pow2_nonneg by lia.
    rewrite <- Zlt_Qlt. lia. }
  assert (Hs : inject_Z z / pow2 e == inject_Z (z * 2 ^ (- e))).
  { unfold Qdiv. rewrite <- pow2_opp, inject_Z_mult, <- pow2_nonneg by lia.
    reflexivity. }
  rewrite (rne_proper _ _ Hs), rne_Z.
  rewrite inject_Z_mult, <- pow2_nonneg by lia.
  rewrite <- Qmult_assoc, (Qmult_comm (pow2 (- e))), pow2_inv.
  apply Qmult_1_r.
Qed.

Lemma round_int (z : Z) :
  (- 2 ^ 53 < z < 2 ^ 53)%Z -> round (inject_Z z) == inject_Z z.
Proof.
  intros Hz. destruct (round_sign (inject_Z z)) as [[H ->]|[[H ->]|[H ->]]].
  - symmetry. exact H.
  - apply round_pos_int. rewrite <- (Zlt_Qlt 0) in H. lia.
  - rewrite <- (Zlt_Qlt _ 0) in H. rewrite <- inject_Z_opp.
    rewrite round_pos_int by lia. rewrite inject_Z_opp. ring.
Qed.

Lemma round_between (a b x : Q) :
  round a == a -> round b == b -> a <= x <= b -> a <= round x <= b.
Proof.
  intros Ha Hb [H1 H2]. split.
  - rewrite <- Ha. by apply round_mono.
  - rewrite <- Hb. by apply round_mono.
Qed.

Lemma round_1 : round 1 == 1.
Proof. vm_compute. reflexivity. Qed.

Lemma round_15 : round 15 == 15.
Proof. vm_compute. reflexivity. Qed.

Lemma round_100 : round 100 == 100.
Proof. vm_compute. reflexivity. Qed.

End F64Facts.


(** ** Queue: adding, current song, navigation *)

Section QueueMore.

Import Queue.

Lemma add_many_nil q : (add_many [] q).2 = q.
Proof.
  destruct q as [l cur loop]. unfold add_many. simpl. rewrite app_nil_r.
  f_equal. unfold Py.len. destruct l; reflexivity.
Qed.

Lemma add_many_cons song songs q :
  (add_many (song :: songs) q).2 = (add_many songs (add song q).2).2.
Proof.
  destruct q as [l cur loop]. unfold add_many, add. simpl.
  rewrite <- app_assoc. simpl. f_equal.
  rewrite !len_app. change (Py.len [song]) with 1.
  change (Py.len (song :: songs)) with (Z.of_nat (S (length songs))).
  pose proof (len_nonneg l) as Hl. pose proof (len_nonneg songs) as Hs.
  zcases; simpl; try reflexivity; lia.
Qed.

(** [add_many] does to the queue what adding its songs one at a time does. *)
Theorem add_many_as_adds (songs : list Song) (q : MusicQueue) :
  (add_many songs q).2 = foldl (fun q' song => (add song q').2) q songs.
Proof.
  revert q. induction songs as [|song songs IH]; intros q.
  - apply add_many_nil.
  - rewrite add_many_cons. cbn [foldl]. apply IH.
Qed.

(** Under the index invariant a queue has a current song exactly when it has
    a song, the current song is the one listed under the 1-based current
    index, and that index is 0 on the empty queue only. *)
Theorem current_song_exists (q : MusicQueue) (Hinv : index_inv q) :
  (current_song q = None <-> _queue q = []) /\
  current_song q = get_song (current_index_one_based q) q /\
  0 <= current_index_one_based q <= size q /\
  (current_index_one_based q = 0 <-> _queue q = []).
Proof.
  destruct (index_inv_cases q Hinv) as [(Hq & Hi & Hs)|(Hq & Hi)].
  - unfold current_song, get_song, current_index_one_based, size in *.
    rewrite Hi, Hq. simpl. repeat split; try reflexivity; try lia; tauto.
  - destruct (current_song_in_range q Hi) as [Hc [c Hsome]].
    unfold get_song, current_index_one_based, size in *.
    assert (E1 : (_current_index q >=? 0) = true) by (zcases; lia).
    rewrite E1.
    assert (E2 : (_current_index q + 1 - 1 <? 0)
                 || (_current_index q + 1 - 1 >=? Py.len (_queue q)) = false).
    { zcases; simpl; try reflexivity; lia. }
    rewrite E2. replace (_current_index q + 1 - 1) with (_current_index q) by lia.
    repeat split; try lia; try assumption.
    + rewrite Hsome. discriminate.
    + contradiction.
    + contradiction.
Qed.

Lemma current_song_exists_witness :
  index_inv (Sample.abc false) /\
  current_song (Sample.abc false) = get_song 1 (Sample.abc false).
Proof.
  assert (H : index_inv (Sample.abc false)).
  { right. unfold size, Py.len. simpl. lia. }
  split; [exact H|].
  exact (proj1 (proj2 (current_song_exists _ H))).
Defined.

Lemma set_index_same q : set_index (_current_index q) q = q.
Proof. by destruct q. Qed.

Lemma set_index_twice i j q : set_index j (set_index i q) = set_index j q.
Proof. reflexivity. Qed.

(** [previous] takes back a [next] that returned a song, and [next] takes
    back such a [previous]: the queue is as before and the song returned is
    the one that was current. *)
Theorem next_previous_round_trip (q : MusicQueue) (Hinv : index_inv q) :
  ((next q).1 <> None ->
     previous (next q).2 = (current_song q, q)) /\
  ((previous q).1 <> None ->
     next (previous q).2 = (current_song q, q)).
Proof.
  destruct (index_inv_cases q Hinv) as [(Hq & Hi & Hs)|(Hq & Hi)].
  - unfold next, previous, size in *. rewrite Hs. simpl. split; congruence.
  - assert (Hpos : 0 < size q) by lia.
    destruct (current_song_in_range q Hi) as [Hc _].
    destruct (_loop q) eqn:Hloop.
    + destruct (next_loop q Hloop Hq) as [Hn _].
      destruct (previous_loop q Hloop Hq) as [Hp _].
      split; intros _.
      * rewrite Hn. simpl.
        destruct (previous_loop
                    (set_index ((_current_index q + 1) mod size q) q))
          as [-> _]; [exact Hloop | exact Hq |].
        simpl. change (size (set_index _ q)) with (size q).
        rewrite Zminus_mod_idemp_l.
        replace (_current_index q + 1 - 1) with (_current_index q) by lia.
        rewrite Z.mod_small by lia. rewrite ?set_index_twice, set_index_same. by rewrite Hc.
      * rewrite Hp. simpl.
        destruct (next_loop
                    (set_index ((_current_index q - 1) mod size q) q))
          as [-> _]; [exact Hloop | exact Hq |].
        simpl. change (size (set_index _ q)) with (size q).
        rewrite Zplus_mod_idemp_l.
        replace (_current_index q - 1 + 1) with (_current_index q) by lia.
        rewrite Z.mod_small by lia. rewrite ?set_index_twice, set_index_same. by rewrite Hc.
    + destruct (next_no_loop q Hloop Hinv) as [Hn1 Hn2].
      destruct (previous_no_loop q Hloop Hinv) as [Hp1 Hp2].
      split; intros Hsome.
      * destruct (Z_lt_le_dec (_current_index q + 1) (size q)) as [Hlt|Hge];
          [|rewrite Hn1 in Hsome by lia; contradiction].
        destruct (Hn2 Hlt) as [-> _]. simpl.
        assert (Hi' : index_inv (set_index (_current_index q + 1) q))
          by (apply index_inv_set_index; lia).
        destruct (previous_no_loop (set_index (_current_index q + 1) q)
                    Hloop Hi') as [_ Hback].
        destruct Hback as [-> _]; [simpl; lia|]. simpl.
        replace (_current_index q + 1 - 1) with (_current_index q) by lia.
        rewrite ?set_index_twice, set_index_same. by rewrite Hc.
      * destruct (Z_lt_le_dec 0 (_current_index q)) as [Hlt|Hge];
          [|rewrite Hp1 in Hsome by lia; contradiction].
        destruct (Hp2 Hlt) as [-> _]. simpl.
        assert (Hi' : index_inv (set_index (_current_index q - 1) q))
          by (apply index_inv_set_index; lia).
        destruct (next_no_loop (set_index (_current_index q - 1) q)
                    Hloop Hi') as [_ Hforth].
        destruct Hforth as [-> _];
          [simpl; change (size (set_index _ q)) with (size q); lia|]. simpl.
        replace (_current_index q - 1 + 1) with (_current_index q) by lia.
        rewrite ?set_index_twice, set_index_same. by rewrite Hc.
Qed.

Lemma next_previous_round_trip_witness :
  index_inv (Sample.abc true) /\
  next (previous (Sample.abc true)).2 = (Some Sample.A, Sample.abc true).
Proof.
  assert (H : index_inv (Sample.abc true)).
  { right. unfold size, Py.len. simpl. lia. }
  split; [exact H|].
  apply (proj2 (next_previous_round_trip _ H)). discriminate.
Defined.

(** [has_next] and [has_previous] never promise a song that [next] and
    [previous] then fail to return; they answer false although a song would
    be returned only on a looping queue of one song. *)
Theorem has_next_sound (q : MusicQueue) (Hinv : index_inv q) :
  (has_next q = true -> is_Some (next q).1) /\
  (has_previous q = true -> is_Some (previous q).1) /\
  (is_Some (next q).1 ->
     has_next q = true \/ (_loop q = true /\ size q = 1)) /\
  (is_Some (previous q).1 ->
     has_previous q = true \/ (_loop q = true /\ size q = 1)).
Proof.
  destruct (index_inv_cases q Hinv) as [(Hq & Hi & Hs)|(Hq & Hi)].
  - unfold has_next, has_previous, next, previous, size in *. rewrite Hs.
    simpl. repeat split; first [discriminate | intros [x Hx]; discriminate].
  - assert (Hne : (Py.len (_queue q) =? 0) = false)
      by (unfold size in Hi; zcases; lia).
    unfold has_next, has_previous. rewrite Hne.
    destruct (_loop q) eqn:Hloop.
    + destruct (next_loop q Hloop Hq) as [_ Hn].
      destruct (previous_loop q Hloop Hq) as [_ Hp].
      unfold size in *.
      repeat split; try (intros _; assumption); intros _;
        (destruct (Z_lt_le_dec 1 (Py.len (_queue q)));
         [left; by apply Z.gtb_lt | right; split; [reflexivity | lia]]).
    + destruct (next_no_loop q Hloop Hinv) as [Hn1 Hn2].
      destruct (previous_no_loop q Hloop Hinv) as [Hp1 Hp2].
      unfold size in *. repeat split.
      * intros H. apply Hn2. apply Z.ltb_lt in H. lia.
      * intros H. apply Hp2. apply Z.gtb_lt in H. lia.
      * intros [x Hx]. left.
        destruct (Z.ltb_spec (_current_index q + 1) (Py.len (_queue q)));
          [reflexivity|]. rewrite Hn1 in Hx by lia. discriminate.
      * intros [x Hx]. left.
        destruct (Z.gtb_spec (_current_index q) 0); [reflexivity|].
        rewrite Hp1 in Hx by lia. discriminate.
Qed.

Lemma has_next_sound_witness :
  index_inv (Sample.abc false) /\ is_Some (next (Sample.abc false)).1.
Proof.
  assert (H : index_inv (Sample.abc false)).
  { right. unfold size, Py.len. simpl. lia. }
  split; [exact H|].
  apply (proj1 (has_next_sound _ H)). reflexivity.
Defined.

End QueueMore.

(** ** Queue: removing and listing *)

Section QueueListing.

Import Queue.

Lemma pop_lookup_lt {A} (l : list A) (i j : nat) :
  (j < i)%nat -> Py.pop l i !! j = l !! j.
Proof.
  intros H. unfold Py.pop.
  destruct (decide (j < length l)%nat) as [Hj|Hj].
  - rewrite lookup_app_l by (rewrite length_take; lia).
    by apply lookup_take_lt.
  - rewrite (lookup_ge_None_2 l j) by lia. apply lookup_ge_None_2.
    rewrite length_app, length_take, length_drop. lia.
Qed.

Lemma pop_lookup_ge {A} (l : list A) (i j : nat) :
  (i < length l)%nat -> (i <= j)%nat -> Py.pop l i !! j = l !! S j.
Proof.
  intros Hi H. unfold Py.pop.
  rewrite lookup_app_r by (rewrite length_take; lia).
  rewrite length_take, lookup_drop. f_equal. lia.
Qed.

Lemma pop_split {A} (l : list A) (i : nat) (x : A) :
  l !! i = Some x ->
  l = take i l ++ x :: drop (S i) l /\ Py.pop l i = take i l ++ drop (S i) l.
Proof. intros H. split; [by rewrite take_drop_middle | reflexivity]. Qed.

Lemma get_song_lookup index q :
  get_song index q
  = if index <? 1 then None else _queue q !! Z.to_nat (index - 1).
Proof.
  unfold get_song, Py.index, Py.len.
  destruct (Z.ltb_spec index 1) as [Hlo|Hlo].
  - assert (E : (index - 1 <? 0) = true) by (zcases; lia). by rewrite E.
  - assert (E : (index - 1 <? 0) = false) by (zcases; lia). rewrite E. simpl.
    destruct (Z.geb_spec (index - 1) (Z.of_nat (length (_queue q)))).
    + symmetry. apply lookup_ge_None_2. lia.
    + destruct (Z.leb_spec 0 (index - 1)); [reflexivity | lia].
Qed.

Lemma find_id_none song_id l :
  find_id song_id l = None <-> forall s, s ∈ l -> id s <> song_id.
Proof.
  induction l as [|x l IH]; simpl.
  - split; [intros _ s Hs; inversion Hs | reflexivity].
  - destruct (String.eqb_spec (id x) song_id) as [E|E].
    + split; [discriminate|]. intros H. exfalso. apply (H x); [by left | exact E].
    + destruct (find_id song_id l) as [i|] eqn:Hf; simpl.
      * split; [discriminate|]. intros H.
        destruct IH as [_ IH]. discriminate IH.
        intros s Hs. apply H. by right.
      * split; [|reflexivity]. intros _ s Hs.
        apply elem_of_cons in Hs as [->|Hs]; [exact E|].
        by apply (proj1 IH).
Qed.

(** [remove_by_index] takes out exactly the song that [get_song] shows under
    that number and hands it back; the songs before it keep their numbers and
    the songs after it move up by one. For a number that [get_song] does not
    know nothing is removed. *)
Theorem remove_by_index_get_song (index : Z) (q : MusicQueue) :
  (remove_by_index index q).1 = get_song index q /\
  (get_song index q = None -> (remove_by_index index q).2 = q) /\
  (forall song, get_song index q = Some song ->
     let q' := (remove_by_index index q).2 in
     size q' = size q - 1 /\
     _loop q' = _loop q /\
     (forall j, j < index -> get_song j q' = get_song j q) /\
     (forall j, index <= j -> get_song j q' = get_song (j + 1) q)).
Proof.
  rewrite get_song_lookup.
  destruct (Z.ltb_spec index 1) as [Hlo|Hlo].
  - rewrite remove_by_index_out_of_range by lia.
    split; [reflexivity|]. split; [reflexivity | discriminate].
  - destruct (Z_lt_le_dec (size q) index) as [Hhi|Hhi].
    + rewrite remove_by_index_out_of_range by lia. simpl.
      assert (Hn : _queue q !! Z.to_nat (index - 1) = None)
        by (apply lookup_ge_None_2; unfold size, Py.len in Hhi; lia).
      rewrite Hn. split; [reflexivity|]. split; [reflexivity | discriminate].
    + rewrite remove_by_index_in_range by lia. simpl.
      split; [reflexivity|].
      assert (Hlt : (Z.to_nat (index - 1) < length (_queue q))%nat)
        by (unfold size, Py.len in Hhi; lia).
      split.
      * intros Hn. apply lookup_ge_None_1 in Hn. lia.
      * intros song Hsong. unfold size. simpl.
        split; [by apply len_pop|]. split; [reflexivity|]. split.
        -- intros j Hj. rewrite !get_song_lookup. simpl.
           destruct (Z.ltb_spec j 1); [reflexivity|].
           apply pop_lookup_lt. lia.
        -- intros j Hj. rewrite !get_song_lookup. simpl.
           destruct (Z.ltb_spec j 1); [lia|].
           destruct (Z.ltb_spec (j + 1) 1); [lia|].
           rewrite pop_lookup_ge by lia. f_equal. lia.
Qed.

(** [remove] takes out the first song that carries the identifier and hands
    it back, leaving the other songs in their order; when no song carries it,
    nothing is returned and the queue is as before. *)
Theorem remove_first_with_id (song_id : string) (q : MusicQueue) :
  ((remove song_id q).1 = None <->
   forall s, s ∈ _queue q -> id s <> song_id) /\
  ((remove song_id q).1 = None -> (remove song_id q).2 = q) /\
  (forall song, (remove song_id q).1 = Some song ->
     id song = song_id /\
     exists before after,
       _queue q = before ++ song :: after /\
       (forall s, s ∈ before -> id s <> song_id) /\
       _queue (remove song_id q).2 = before ++ after).
Proof.
  unfold remove.
  destruct (find_id song_id (_queue q)) as [i|] eqn:Hf; simpl.
  - destruct (find_id_first _ _ _ Hf) as [(s & Hs & Hid) Hbefore].
    rewrite Hs. split; [|split].
    + split; [discriminate|]. intros H. exfalso.
      apply (H s); [by eapply list_elem_of_lookup_2 | exact Hid].
    + discriminate.
    + intros song [= <-]. split; [exact Hid|].
      destruct (pop_split _ _ _ Hs) as [Hl Hp].
      exists (take i (_queue q)), (drop (S i) (_queue q)).
      split; [exact Hl|]. split; [|exact Hp].
      intros x Hx. apply list_elem_of_lookup in Hx as [j Hj].
      apply lookup_take_Some in Hj as [Hj Hlt].
      by apply (Hbefore j x).
  - split; [|split].
    + split; [intros _; by apply find_id_none | reflexivity].
    + reflexivity.
    + discriminate.
Qed.

Lemma remove_by_index_get_song_witness :
  get_song 2 (Sample.abc false) = Some Sample.B /\
  get_song 2 (remove_by_index 2 (Sample.abc false)).2 = Some Sample.C.
Proof.
  split; [reflexivity|].
  destruct (remove_by_index_get_song 2 (Sample.abc false)) as (_ & _ & H).
  destruct (H Sample.B eq_refl) as (_ & _ & _ & Hafter).
  rewrite (Hafter 2) by lia. reflexivity.
Defined.

Lemma remove_first_with_id_witness :
  (remove "B" (Sample.abc false)).1 = Some Sample.B /\
  id Sample.B = "B"%string.
Proof.
  split; [reflexivity|].
  destruct (remove_first_with_id "B" (Sample.abc false)) as (_ & _ & H).
  exact (proj1 (H Sample.B eq_refl)).
Defined.

(** After a removal at position [i], away from the cursor, the song under
    the cursor is the one that was there before. *)
Lemma current_song_pop (l : list Song) (i : nat) (cur : Z) (loop : bool) :
  (i < length l)%nat -> 0 <= cur < Py.len l -> Z.of_nat i <> cur ->
  current_song {| _queue := Py.pop l i;
                  _current_index := adjust_index (Py.pop l i) (Z.of_nat i) cur;
                  _loop := loop |}
  = current_song {| _queue := l; _current_index := cur; _loop := loop |}.
Proof.
  intros Hi Hcur Hne.
  destruct (adjust_index_spec l i cur Hi Hcur) as (Hinv & Hlt & _ & Hgt).
  pose proof (len_pop l i Hi) as Hlen.
  set (q' := {| _queue := Py.pop l i;
                _current_index := adjust_index (Py.pop l i) (Z.of_nat i) cur;
                _loop := loop |}).
  assert (Hr : 0 <= _current_index q' < size q').
  { destruct Hinv as [[Hnil _]|Hr]; [|exact Hr].
    apply len_nil_iff in Hnil. unfold Py.len in *. lia. }
  destruct (current_song_in_range q' Hr) as [-> _].
  destruct (current_song_in_range
              {| _queue := l; _current_index := cur; _loop := loop |})
    as [-> _]; [exact Hcur|].
  simpl. rewrite !index_nonneg by (simpl in Hr; lia).
  destruct (Z_lt_le_dec (Z.of_nat i) cur) as [Hb|Ha].
  - rewrite (Hlt Hb). rewrite pop_lookup_ge by lia. f_equal. lia.
  - rewrite Hgt by lia. apply pop_lookup_lt. lia.
Qed.

(** Removing a song other than the current one, by number or by identifier,
    leaves the current song the current song. *)
Theorem remove_keeps_current_song (q : MusicQueue) (Hinv : index_inv q) :
  (forall index,
     index <> current_index_one_based q ->
     current_song (remove_by_index index q).2 = current_song q) /\
  (forall song_id current,
     current_song q = Some current -> id current <> song_id ->
     current_song (remove song_id q).2 = Some current).
Proof.
  destruct (index_inv_cases q Hinv) as [(Hq & Hi & Hs)|(Hq & Hi)].
  - split.
    + intros index _. rewrite remove_by_index_out_of_range by lia.
      reflexivity.
    + intros song_id current Hc. unfold current_song in Hc.
      rewrite Hi in Hc. discriminate.
  - assert (Hone : current_index_one_based q = _current_index q + 1).
    { unfold current_index_one_based.
      destruct (Z.geb_spec (_current_index q) 0); [reflexivity | lia]. }
    split.
    + intros index Hne. rewrite Hone in Hne.
      destruct (Z_lt_le_dec index 1) as [Hlo|Hlo];
        [by rewrite remove_by_index_out_of_range by lia|].
      destruct (Z_lt_le_dec (size q) index) as [Hhi|Hhi];
        [by rewrite remove_by_index_out_of_range by lia|].
      rewrite remove_by_index_in_range by lia. simpl.
      destruct q as [l cur loop]. unfold size, Py.len in *. simpl in *.
      set (i := Z.to_nat (index - 1)).
      assert (Ei : index - 1 = Z.of_nat i) by lia. rewrite Ei.
      apply current_song_pop; unfold Py.len; lia.
    + intros song_id current Hc Hid. unfold remove.
      destruct (find_id song_id (_queue q)) as [i|] eqn:Hf; simpl;
        [|exact Hc].
      destruct (find_id_first _ _ _ Hf) as [(s & Hs & Hsid) _].
      pose proof (find_id_lt _ _ _ Hf) as Hlt.
      destruct (current_song_in_range q Hi) as [Hcur _].
      rewrite Hcur, index_nonneg in Hc by lia.
      assert (Hne : Z.of_nat i <> _current_index q).
      { intros E. rewrite <- E, Nat2Z.id in Hc. congruence. }
      destruct q as [l cur loop]. simpl in *.
      rewrite current_song_pop by (unfold size in Hi; simpl in Hi; lia).
      destruct (current_song_in_range
                  {| _queue := l; _current_index := cur; _loop := loop |} Hi)
        as [-> _].
      simpl. by rewrite index_nonneg by lia.
Qed.

Lemma remove_keeps_current_song_witness :
  index_inv (set_index 1 (Sample.abc false)) /\
  current_song (remove "A" (set_index 1 (Sample.abc false))).2
  = Some Sample.B.
Proof.
  assert (H : index_inv (set_index 1 (Sample.abc false))).
  { right. unfold size, Py.len. simpl. lia. }
  split; [exact H|].
  apply (proj2 (remove_keeps_current_song _ H)); [reflexivity | discriminate].
Defined.

End QueueListing.

(** ** Queue: neighbours, pages, window *)

Section QueueViews.

Import Queue.

(** A slice between bounds that are not negative, without the clamping. *)
Lemma slice_nonneg {A} (l : list A) (a b : Z) :
  0 <= a -> 0 <= b ->
  Py.slice l a b = take (Z.to_nat (b - a)) (drop (Z.to_nat a) l).
Proof.
  intros Ha Hb. unfold Py.slice, Py.slice_bound, Py.len.
  destruct (Z.ltb_spec a 0); [lia|]. destruct (Z.ltb_spec b 0); [lia|].
  destruct (Z_le_gt_dec a (Z.of_nat (length l))) as [Hal|Hal].
  - rewrite (Z.min_l a) by lia.
    destruct (Z_le_gt_dec b (Z.of_nat (length l))) as [Hbl|Hbl].
    + by rewrite (Z.min_l b) by lia.
    + rewrite (Z.min_r b) by lia.
      rewrite !take_ge; [reflexivity | |]; rewrite length_drop; lia.
  - rewrite (Z.min_r a) by lia. rewrite !drop_ge by lia.
    by rewrite !take_nil.
Qed.

(** The songs before and after the cursor, as [get_previous_songs] and
    [get_upcoming] list them for counts that are not negative, are the
    neighbours of the current song in queue order: with the songs further
    away they make up the queue, and neither list is longer than asked or
    than the queue allows. *)
Theorem neighbours_in_order (q : MusicQueue) (n m : Z)
    (Hinv : index_inv q) (Hq : _queue q <> []) (Hn : 0 <= n) (Hm : 0 <= m) :
  exists current,
    current_song q = Some current /\
    _queue q
    = take (Z.to_nat (_current_index q - n)) (_queue q)
      ++ get_previous_songs n q ++ current :: get_upcoming m q
      ++ drop (Z.to_nat (_current_index q + 1 + m)) (_queue q) /\
    Py.len (get_previous_songs n q) = Z.min n (_current_index q) /\
    Py.len (get_upcoming m q) = Z.min m (size q - 1 - _current_index q).
Proof.
  destruct (index_inv_cases q Hinv) as [(Hq' & _)|(_ & Hi)]; [contradiction|].
  destruct (current_song_in_range q Hi) as [Hc [current Hcur]].
  exists current. split; [exact Hcur|].
  rewrite Hc, index_nonneg in Hcur by lia.
  unfold size, Py.len in Hi.
  set (l := _queue q) in *. set (cur := _current_index q) in *.
  set (c := Z.to_nat cur).
  assert (Hprev : get_previous_songs n q
                  = drop (Z.to_nat (cur - n)) (take c l)).
  { unfold get_previous_songs. fold l cur.
    destruct (Z.eqb_spec (Py.len l) 0) as [E|E]; [unfold Py.len in E; lia|].
    destruct (Z.leb_spec cur 0) as [Hz|Hz]; simpl.
    - assert (c = 0%nat) as -> by lia. by rewrite take_0, drop_nil.
    - rewrite slice_nonneg by lia. rewrite take_drop_commute. f_equal.
      + lia.
      + f_equal. lia. }
  assert (Hup : get_upcoming m q = take (Z.to_nat m) (drop (S c) l)).
  { unfold get_upcoming. fold l cur.
    destruct (Z.eqb_spec (Py.len l) 0) as [E|E]; [unfold Py.len in E; lia|].
    destruct (Z.ltb_spec cur 0) as [Hz|Hz]; [lia|]. simpl.
    rewrite slice_nonneg by (unfold Py.len; lia).
    replace (Z.to_nat (cur + 1)) with (S c) by lia.
    destruct (Z_le_gt_dec (cur + 1 + m) (Py.len l)) as [Hle|Hgt].
    - rewrite Z.min_l by lia. f_equal. lia.
    - rewrite Z.min_r by lia. unfold Py.len in *.
      rewrite !take_ge; [reflexivity | |]; rewrite length_drop; lia. }
  rewrite Hprev, Hup. split; [|split].
  - rewrite <- (take_drop_middle l c current Hcur) at 1.
    rewrite app_assoc. f_equal.
    + rewrite <- (take_drop (Z.to_nat (cur - n)) (take c l)) at 1.
      f_equal. rewrite take_take. f_equal. lia.
    + f_equal. rewrite <- (take_drop (Z.to_nat m) (drop (S c) l)) at 1.
      f_equal. rewrite drop_drop. f_equal. lia.
  - unfold Py.len. rewrite length_drop, length_take. lia.
  - unfold Py.len, size, Py.len. fold l. rewrite length_take, length_drop. lia.
Qed.

Lemma neighbours_in_order_witness :
  index_inv (set_index 1 (Sample.abc false)) /\
  get_previous_songs 2 (set_index 1 (Sample.abc false)) = [Sample.A] /\
  Py.len (get_upcoming 5 (set_index 1 (Sample.abc false))) = 1.
Proof.
  assert (H : index_inv (set_index 1 (Sample.abc false))).
  { right. unfold size, Py.len. simpl. lia. }
  split; [exact H|]. split; [reflexivity|].
  destruct (neighbours_in_order (set_index 1 (Sample.abc false)) 2 5 H)
    as (c & _ & _ & _ & Hup); [discriminate | lia | lia |].
  rewrite Hup. reflexivity.
Defined.

Lemma page_count_bounds (per_page : Z) (q : MusicQueue) :
  0 < per_page ->
  1 <= page_count per_page q /\
  size q <= page_count per_page q * per_page /\
  (0 < size q -> (page_count per_page q - 1) * per_page < size q).
Proof.
  intros Hpp. unfold page_count. pose proof (size_nonneg q) as Hs.
  pose proof (Z.mul_div_le (size q + per_page - 1) per_page Hpp) as H1.
  pose proof (Z.mul_succ_div_gt (size q + per_page - 1) per_page Hpp) as H2.
  set (d := (size q + per_page - 1) / per_page) in *.
  assert (0 <= d) by (apply Z.div_pos; lia).
  repeat split; first [lia | nia].
Qed.

Lemma get_page_in_range (k per_page : Z) (q : MusicQueue) :
  0 < per_page -> 1 <= k <= page_count per_page q ->
  get_page k per_page q
  = Some {| songs := take (Z.to_nat per_page)
                       (drop (Z.to_nat ((k - 1) * per_page)) (_queue q));
            start_index := (k - 1) * per_page + 1;
            current_page := k;
            total_pages := page_count per_page q;
            total_songs := size q;
            page_current_index := current_index_one_based q |}.
Proof.
  intros Hpp Hk. unfold get_page.
  destruct (Z.eqb_spec per_page 0); [lia|].
  fold (size q). fold (page_count per_page q).
  replace (Z.max 1 (Z.min k (page_count per_page q))) with k by lia.
  rewrite slice_nonneg by nia. do 2 f_equal. f_equal. lia.
Qed.

Lemma pages_upto_take (n : nat) (per_page : Z) (q : MusicQueue) :
  0 < per_page -> Z.of_nat n <= page_count per_page q ->
  pages_upto n per_page q
  = Some (take (n * Z.to_nat per_page) (_queue q)).
Proof.
  intros Hpp. induction n as [|n IH]; intros Hn.
  - reflexivity.
  - cbn [pages_upto]. rewrite IH by lia. simpl.
    rewrite get_page_in_range by lia. simpl. f_equal.
    replace (Z.to_nat ((Z.of_nat (S n) - 1) * per_page))
      with (n * Z.to_nat per_page)%nat by nia.
    rewrite take_take_drop. f_equal. lia.
Qed.

(** For a positive page size [get_page] always answers; it shows the page
    asked for, or the first or last one when the number is out of range; a
    page holds at most [per_page] songs, at least one unless the queue is
    empty, and they are the songs [get_song] knows under the numbers counted
    from [start_index]; and the pages from the first to the last, one after
    the other, are the queue. *)
Theorem pages_cover_queue (q : MusicQueue) (page per_page : Z)
    (Hpp : 0 < per_page) :
  exists pg,
    get_page page per_page q = Some pg /\
    total_pages pg = page_count per_page q /\
    current_page pg = Z.max 1 (Z.min page (total_pages pg)) /\
    1 <= current_page pg <= total_pages pg /\
    Py.len (songs pg) <= per_page /\
    (_queue q <> [] -> songs pg <> []) /\
    (forall (k : nat) song,
       songs pg !! k = Some song ->
       get_song (start_index pg + Z.of_nat k) q = Some song) /\
    pages_upto (Z.to_nat (total_pages pg)) per_page q = Some (_queue q).
Proof.
  destruct (page_count_bounds per_page q Hpp) as (Hc1 & Hc2 & Hc3).
  set (k := Z.max 1 (Z.min page (page_count per_page q))).
  assert (Hk : 1 <= k <= page_count per_page q) by lia.
  assert (Hget : get_page page per_page q = get_page k per_page q).
  { unfold get_page. destruct (Z.eqb_spec per_page 0); [lia|].
    fold (size q). fold (page_count per_page q). fold k.
    replace (Z.max 1 (Z.min k (page_count per_page q))) with k by lia.
    reflexivity. }
  rewrite Hget, get_page_in_range by assumption.
  eexists. split; [reflexivity|]. simpl.
  split; [reflexivity|]. split; [reflexivity|]. split; [exact Hk|].
  split; [|split; [|split]].
  - unfold Py.len. rewrite length_take. lia.
  - intros Hq Hnil. apply take_nil_inv in Hnil as [Hz|Hd]; [lia|].
    apply drop_nil_inv in Hd.
    assert (Hpos : 0 < size q).
    { pose proof (len_nil_iff (_queue q)). pose proof (size_nonneg q).
      unfold size in *. destruct (Z.eq_dec (Py.len (_queue q)) 0); [tauto|lia]. }
    specialize (Hc3 Hpos). unfold size, Py.len in *. nia.
  - intros j song Hj. apply lookup_take_Some in Hj as [Hj Hlt].
    rewrite lookup_drop in Hj. rewrite get_song_lookup.
    destruct (Z.ltb_spec ((k - 1) * per_page + 1 + Z.of_nat j) 1); [nia|].
    rewrite <- Hj. f_equal. nia.
  - rewrite pages_upto_take by lia. f_equal. apply take_ge.
    unfold size, Py.len in Hc2. nia.
Qed.

Lemma pages_cover_queue_witness :
  0 < 2 /\
  exists pg,
    get_page 7 2 (Sample.abc false) = Some pg /\
    current_page pg = 2 /\ songs pg = [Sample.C].
Proof.
  split; [lia|].
  destruct (pages_cover_queue (Sample.abc false) 7 2) as (pg & Hpg & _);
    [lia|].
  exists pg. split; [exact Hpg|].
  vm_compute in Hpg. injection Hpg as <-. split; reflexivity.
Defined.

(** The window of indices the queue computes for the cache manager is the
    window the cache manager keeps: both run from the current index less
    [behind], at least 0, up to the current index plus [ahead], at most the
    last index. Every index in it is a position of the queue, and for
    windows that are not negative the current index is one of them. *)
Theorem window_indices_valid (q : MusicQueue) (behind ahead : Z)
    (c : Cache.CacheManager) (Hinv : index_inv q) (Hq : _queue q <> []) :
  (Cache.window_behind c = behind -> Cache.window_ahead c = ahead ->
   _get_window_indices behind ahead q
   = Py.range (Cache.keep_start c (_current_index q))
              (Cache.keep_end c (_queue q) (_current_index q))) /\
  (forall i, i ∈ _get_window_indices behind ahead q ->
     0 <= i < size q /\
     _current_index q - behind <= i <= _current_index q + ahead) /\
  (0 <= behind -> 0 <= ahead ->
   _current_index q ∈ _get_window_indices behind ahead q).
Proof.
  destruct (index_inv_cases q Hinv) as [(Hq' & _)|(_ & Hi)]; [contradiction|].
  unfold _get_window_indices, size in *.
  destruct (Z.ltb_spec (_current_index q) 0); [lia|].
  split; [|split].
  - intros <- <-. reflexivity.
  - intros i Hin. apply range_elem in Hin. lia.
  - intros Hb Ha. apply range_elem. lia.
Qed.

Lemma window_indices_valid_witness :
  index_inv (set_index 1 (Sample.abc false)) /\
  _get_window_indices 2 3 (set_index 1 (Sample.abc false)) = [0; 1; 2].
Proof.
  assert (H : index_inv (set_index 1 (Sample.abc false))).
  { right. unfold size, Py.len. simpl. lia. }
  split; [exact H|].
  destruct (window_indices_valid (set_index 1 (Sample.abc false)) 2 3
              (Cache.new 2 3) H) as (Heq & _); [discriminate|].
  rewrite Heq by reflexivity. reflexivity.
Defined.

End QueueViews.

(** ** PlaybackState: remaining time, progress, pauses *)

Section StateMore.

Import State.

(** In a reachable state the position and the remaining time add up to the
    duration, and the remaining time lies between 0 and the duration; while
    the state is playing and not paused the remaining time never grows. *)
Theorem remaining_complements_position (s : PlaybackState)
    (Hreach : reachable s) :
  (forall now,
     current_position now s + remaining now s = _duration s /\
     0 <= remaining now s <= _duration s) /\
  (is_paused s = false -> forall t1 t2, (t1 <= t2)%Q ->
     remaining t2 s <= remaining t1 s).
Proof.
  destruct (reachable_inv s Hreach) as [Hd _]. split.
  - intros now. pose proof (current_position_range now s Hd).
    unfold remaining. lia.
  - intros Hp t1 t2 Ht.
    pose proof (current_position_mono t1 t2 s Hp Ht). unfold remaining. lia.
Qed.

Lemma remaining_complements_position_witness :
  let s := run 0 (Start 180 None) init in
  reachable s /\ current_position 45 s + remaining 45 s = 180.
Proof.
  assert (H : reachable (run 0 (Start 180 None) init)).
  { apply reach_call; [apply reach_init | simpl; lia]. }
  split; [exact H|].
  exact (proj1 (proj1 (remaining_complements_position _ H) 45%Q)).
Defined.

(** In a reachable state [is_finished] holds exactly when the state is
    playing and no time remains; once it holds of a state that is not paused
    it holds at every later reading of the clock; and it never holds of a
    stopped state. *)
Theorem finished_when_nothing_remains (s : PlaybackState)
    (Hreach : reachable s) :
  (forall now,
     is_finished now s = true <->
     is_playing s = true /\ remaining now s = 0) /\
  (is_paused s = false -> forall t1 t2, (t1 <= t2)%Q ->
     is_finished t1 s = true -> is_finished t2 s = true) /\
  (forall now, is_finished now (stop s) = false).
Proof.
  destruct (reachable_inv s Hreach) as [Hd _].
  assert (Hiff : forall now,
             is_finished now s = true <->
             is_playing s = true /\ remaining now s = 0).
  { intros now. pose proof (current_position_range now s Hd) as Hr.
    unfold is_finished, remaining. destruct (is_playing s); simpl.
    - rewrite Z.geb_leb, Z.leb_le. split; [intros H; split; [reflexivity|lia]|].
      intros [_ H]. lia.
    - split; [discriminate | intros [H _]; discriminate]. }
  split; [exact Hiff|]. split; [|reflexivity].
  intros Hp t1 t2 Ht H1. apply Hiff in H1 as [Hpl H1]. apply Hiff.
  split; [exact Hpl|].
  pose proof (current_position_mono t1 t2 s Hp Ht).
  pose proof (current_position_range t2 s Hd). unfold remaining in *. lia.
Qed.

Lemma finished_when_nothing_remains_witness :
  let s := run 0 (Start 180 None) init in
  reachable s /\ is_finished 200 s = true /\ is_finished 100 s = false.
Proof.
  assert (H : reachable (run 0 (Start 180 None) init)).
  { apply reach_call; [apply reach_init | simpl; lia]. }
  split; [exact H|]. split; [|reflexivity].
  apply (proj1 (finished_when_nothing_remains _ H) 200%Q).
  split; reflexivity.
Defined.

Lemma int_of_float_range (x : Q) (n : Z) :
  (0 <= x <= inject_Z n)%Q -> 0 <= int_of_float x <= n.
Proof.
  intros [H0 Hn]. split.
  - change 0 with (int_of_float (inject_Z 0)) at 1. by apply int_of_float_mono.
  - rewrite <- (int_of_float_Z n). by apply int_of_float_mono.
Qed.

Lemma fraction_range (a d : Z) :
  0 <= a <= d -> 0 < d -> (0 <= inject_Z a / inject_Z d <= 1)%Q.
Proof.
  intros [Ha Had] Hd.
  assert (Hdq : (0 < inject_Z d)%Q) by (rewrite (Zlt_Qlt 0 d) in Hd; exact Hd).
  split.
  - apply Qle_shift_div_l; [exact Hdq|]. rewrite Qmult_0_l.
    rewrite (Zle_Qle 0 a) in Ha. exact Ha.
  - apply Qle_shift_div_r; [exact Hdq|]. rewrite Qmult_1_l.
    rewrite (Zle_Qle a d) in Had. exact Had.
Qed.

Lemma string_length_app (s1 s2 : string) :
  String.length (s1 +:+ s2) = (String.length s1 + String.length s2)%nat.
Proof. induction s1 as [|c s1 IH]; simpl; [reflexivity | by rewrite IH]. Qed.

Lemma str_times_length (s : string) (n : Z) :
  String.length (str_times s n) = (Z.to_nat n * String.length s)%nat.
Proof.
  unfold str_times. induction (Z.to_nat n) as [|k IH]; simpl; [reflexivity|].
  rewrite string_length_app, IH. reflexivity.
Qed.

(** In a reachable state the progress, computed in floats as the code does,
    is a percentage between 0 and 100 (0 when there is no duration to divide
    by), and the progress bar always is 15 blocks long: some filled blocks,
    between 0 and 15, followed by empty ones. No block is filled at position
    0; once the song has finished the percentage is 100 and all blocks are
    filled; and while the state is not paused the number of filled blocks
    never goes down as time passes. *)
Theorem progress_bar_blocks (s : PlaybackState) (now : Q)
    (Hreach : reachable s) :
  (0 <= progress_percentage now s <= 100)%Q /\
  (_duration s = 0 -> progress_percentage now s = 0%Q) /\
  0 <= progress_filled now s <= 15 /\
  progress_bar now s
  = (str_times "▓" (progress_filled now s)
     +:+ str_times "░" (15 - progress_filled now s))%string /\
  String.length (progress_bar now s) = (15 * String.length "▓")%nat /\
  (current_position now s = 0 -> progress_filled now s = 0) /\
  (0 < _duration s -> is_finished now s = true ->
   (progress_percentage now s == 100)%Q /\ progress_filled now s = 15) /\
  (is_paused s = false -> forall later, (now <= later)%Q ->
   progress_filled now s <= progress_filled later s).
Proof.
  destruct (reachable_inv s Hreach) as [Hd _].
  assert (Hfrac : forall t, 0 < _duration s ->
            (0 <= F64.div (inject_Z (current_position t s))
                          (inject_Z (_duration s)) <= 1)%Q).
  { intros t Hpos. pose proof (current_position_range t s Hd) as Hr.
    apply round_between; [reflexivity | apply round_1|].
    apply fraction_range; lia. }
  assert (Hpct : forall t, (0 <= progress_percentage t s <= 100)%Q).
  { intros t. unfold progress_percentage.
    destruct (Z.leb_spec (_duration s) 0); [split; lra|].
    apply round_between; [reflexivity | apply round_100|].
    specialize (Hfrac t ltac:(lia)). split; lra. }
  assert (Hblocks : forall t,
            (0 <= F64.mul (F64.div (progress_percentage t s) 100)
                          (inject_Z 15) <= inject_Z 15)%Q).
  { intros t. change (inject_Z 15) with 15%Q.
    assert (H1 : (0 <= F64.div (progress_percentage t s) 100 <= 1)%Q).
    { apply round_between; [reflexivity | apply round_1|].
      specialize (Hpct t). split.
      - apply Qle_shift_div_l; lra.
      - apply Qle_shift_div_r; lra. }
    apply round_between; [reflexivity | apply round_15|]. split; lra. }
  assert (Hf : 0 <= progress_filled now s <= 15).
  { unfold progress_filled. apply int_of_float_range. apply Hblocks. }
  split; [apply Hpct|].
  split; [|split; [exact Hf|split; [reflexivity|split; [|split; [|split]]]]].
  - intros Hz. unfold progress_percentage. by rewrite Hz.
  - unfold progress_bar. rewrite string_length_app, !str_times_length.
    change (String.length "░") with 3%nat.
    change (String.length "▓") with 3%nat. lia.
  - intros Hz. unfold progress_filled.
    assert (E : (progress_percentage now s == 0)%Q).
    { unfold progress_percentage. rewrite Hz.
      destruct (Z.leb_spec (_duration s) 0); [reflexivity|].
      unfold F64.mul, F64.div.
      assert (E0 : (inject_Z 0 / inject_Z (_duration s) == 0)%Q)
        by (unfold Qdiv; ring).
      rewrite E0. change (F64.round 0) with 0%Q.
      assert (E1 : (0 * 100 == 0)%Q) by ring.
      rewrite E1. reflexivity. }
    rewrite (int_of_float_comp _ (inject_Z 0)); [apply int_of_float_Z|].
    unfold F64.mul, F64.div. rewrite E.
    assert (E0 : (0 / 100 == 0)%Q) by reflexivity.
    rewrite E0. change (F64.round 0) with 0%Q.
    assert (E1 : (0 * inject_Z 15 == 0)%Q) by ring.
    rewrite E1. reflexivity.
  - intros Hpos Hfin.
    assert (Hpl : is_playing s = true).
    { unfold is_finished in Hfin. destruct (is_playing s);
        [reflexivity | discriminate]. }
    assert (Hend : current_position now s = _duration s).
    { pose proof (current_position_range now s Hd) as Hr.
      unfold is_finished in Hfin. rewrite Hpl in Hfin. simpl in Hfin.
      rewrite Z.geb_leb, Z.leb_le in Hfin. lia. }
    assert (E : (progress_percentage now s == 100)%Q).
    { unfold progress_percentage. rewrite Hend.
      destruct (Z.leb_spec (_duration s) 0); [lia|].
      unfold F64.mul, F64.div.
      assert (E0 : (inject_Z (_duration s) / inject_Z (_duration s) == 1)%Q).
      { apply Qmult_inv_r. intros E.
        assert (Hq : (0 < inject_Z (_duration s))%Q)
          by (rewrite (Zlt_Qlt 0 (_duration s)) in Hpos; exact Hpos).
        rewrite E in Hq. lra. }
      rewrite E0, round_1.
      assert (E1 : (1 * 100 == 100)%Q) by ring.
      rewrite E1. apply round_100. }
    split; [exact E|]. unfold progress_filled.
    rewrite (int_of_float_comp _ (inject_Z 15)); [apply int_of_float_Z|].
    unfold F64.mul, F64.div. rewrite E.
    assert (E0 : (100 / 100 == 1)%Q) by reflexivity.
    rewrite E0, round_1.
    assert (E1 : (1 * inject_Z 15 == 15)%Q) by reflexivity.
    rewrite E1. apply round_15.
  - intros Hp later Hlater. unfold progress_filled.
    apply int_of_float_mono, round_mono.
    apply Qmult_le_compat_r; [|discriminate].
    apply round_mono. apply Qmult_le_compat_r; [|discriminate].
    unfold progress_percentage.
    destruct (Z.leb_spec (_duration s) 0); [apply Qle_refl|].
    apply round_mono. apply Qmult_le_compat_r; [|discriminate].
    apply round_mono. apply Qmult_le_compat_r.
    + rewrite <- Zle_Qle. by apply current_position_mono.
    + apply Qlt_le_weak, Qinv_lt_0_compat. rewrite <- (Zlt_Qlt 0). lia.
Qed.

(** A song of 180 seconds: after 60 seconds four blocks are filled, the
    third of 100 falling just short of five in floats; after 90 seconds
    seven. *)
Lemma progress_bar_blocks_witness :
  let s := run 0 (Start 180 None) init in
  reachable s /\ progress_filled 60 s = 4 /\ progress_filled 90 s = 7 /\
  0 <= progress_filled 61 s <= 15.
Proof.
  assert (H : reachable (run 0 (Start 180 None) init)).
  { apply reach_call; [apply reach_init | simpl; lia]. }
  split; [exact H|]. split; [vm_compute; reflexivity|].
  split; [vm_compute; reflexivity|].
  exact (proj1 (proj2 (proj2 (progress_bar_blocks _ 61%Q H)))).
Defined.

(** Time spent paused does not count: for a state that is playing and not
    paused, the position is frozen from [pause] on at its value at that
    moment, and after the [resume] it is what it would have been, without
    the pause, that much earlier. A second [pause], a [pause] while stopped
    and a [resume] without a pause are refused and change nothing. *)
Theorem pause_time_does_not_count (s : PlaybackState) (t1 t2 now : Q) :
  is_playing s = true -> is_paused s = false ->
  let paused := (pause t1 s).2 in
  let resumed := (resume t2 paused).2 in
  (pause t1 s).1 = true /\ (resume t2 paused).1 = true /\
  current_position now paused = current_position t1 s /\
  current_position now resumed = current_position (now - (t2 - t1)) s /\
  pause now paused = (false, paused) /\
  resume now s = (false, s) /\
  pause now (stop s) = (false, stop s).
Proof.
  intros Hpl Hp. unfold pause, resume. rewrite Hpl, Hp. simpl.
  repeat split.
  - unfold current_position, elapsed. simpl. by rewrite Hpl, Hp.
  - unfold current_position, elapsed. simpl. rewrite Hpl, Hp. simpl.
    do 2 f_equal. apply int_of_float_comp. ring.
Qed.

Lemma pause_time_does_not_count_witness :
  let s := run 0 (Start 180 None) init in
  is_playing s = true /\ is_paused s = false /\
  current_position 60 (resume 55 (pause 45 s).2).2 = 50.
Proof.
  intros s. split; [reflexivity|]. split; [reflexivity|].
  destruct (pause_time_does_not_count s 45 55 60 eq_refl eq_refl)
    as (_ & _ & _ & H & _).
  rewrite H. reflexivity.
Defined.

(** [start] begins afresh whatever the state was, paused or not: at the
    moment of the call the position is 0, and from then on it is the whole
    seconds gone by since, capped by the duration. *)
Theorem start_begins_afresh (s : PlaybackState) (t now : Q) (duration : Z)
    (song_id : option string) :
  0 <= duration -> (t <= now)%Q ->
  let s' := start t duration song_id s in
  is_playing s' = true /\ is_paused s' = false /\
  current_position t s' = 0 /\
  current_position now s' = Z.min (int_of_float (now - t)) duration.
Proof.
  intros Hd Ht s'. unfold s', current_position, elapsed, start. simpl.
  split; [reflexivity|]. split; [reflexivity|]. split.
  - rewrite (int_of_float_comp _ (inject_Z 0)) by (simpl; ring).
    rewrite int_of_float_Z. lia.
  - rewrite (int_of_float_comp _ (now - t)) by ring.
    assert (0 <= int_of_float (now - t)).
    { change 0 with (int_of_float (inject_Z 0)).
      apply int_of_float_mono. change (inject_Z 0) with 0%Q. lra. }
    lia.
Qed.

Lemma start_begins_afresh_witness :
  let paused := (pause 45 (run 0 (Start 180 None) init)).2 in
  0 <= 200 /\ (100 <= 130)%Q /\
  current_position 130 (start 100 200 None paused) = 30.
Proof.
  intros paused.
  assert (H0 : 0 <= 200) by lia.
  assert (H1 : (100 <= 130)%Q) by (unfold Qle; simpl; lia).
  split; [exact H0|]. split; [exact H1|].
  destruct (start_begins_afresh paused 100 130 200 None H0 H1)
    as (_ & _ & _ & H).
  rewrite H. reflexivity.
Defined.

Lemma run_all_app calls1 calls2 s :
  run_all (calls1 ++ calls2) s = run_all calls2 (run_all calls1 s).
Proof. unfold run_all. apply foldl_app. Qed.

Lemma last_mark_app calls t c :
  last_mark (calls ++ [(t, c)])
  = match c with
    | MarkManualOperation => Some t
    | _ => last_mark calls
    end.
Proof.
  induction calls as [|[t' c'] calls IH]; simpl.
  - by destruct c.
  - rewrite IH. destruct c; try reflexivity.
Qed.

(** The debounce stamp after any series of calls is the reading of the clock
    at the last [mark_manual_operation] among them, and the stamp from
    before when there is none: [start], [pause], [resume], [stop] and
    [reset] never touch it. *)
Theorem stamp_set_only_by_mark (calls : list (Q * call)) (s : PlaybackState) :
  last_manual_operation_time (run_all calls s)
  = default (last_manual_operation_time s) (last_mark calls).
Proof.
  induction calls as [|[t c] calls IH] using rev_ind; [reflexivity|].
  rewrite run_all_app, last_mark_app. unfold run_all at 1. simpl.
  destruct c; simpl; try exact IH.
  - unfold pause. by destruct (is_playing _ && negb (is_paused _)).
  - unfold resume. by destruct (is_paused _).
  - reflexivity.
Qed.

End StateMore.

(** ** CacheManager: the window, prefetching, cancelling *)

Section CacheMore.

Import Cache.

Lemma range_cons (a b : Z) : a < b -> Py.range a b = a :: Py.range (a + 1) b.
Proof.
  intros H. unfold Py.range.
  replace (Z.to_nat (b - a)) with (S (Z.to_nat (b - (a + 1)))) by lia.
  cbn [seq map]. f_equal; [lia|].
  rewrite <- seq_shift, map_map. apply map_ext. intros k. lia.
Qed.

Lemma range_empty (a b : Z) : b <= a -> Py.range a b = [].
Proof.
  intros H. unfold Py.range. by replace (Z.to_nat (b - a)) with 0%nat by lia.
Qed.

Lemma preload_pending_insert tasks song_id task other :
  task_done task = false ->
  preload_pending tasks other = true ->
  preload_pending (<[song_id := task]> tasks) other = true.
Proof.
  intros Hd Hp. unfold preload_pending in *.
  destruct (decide (song_id = other)) as [->|Hne].
  - rewrite lookup_insert_eq. by rewrite Hd.
  - by rewrite lookup_insert_ne.
Qed.

(** What the loop of [_preload_ahead] does over the offsets [lo] .. [hi - 1]:
    it never raises; the tasks it creates are new, pending tasks for songs
    of those offsets that have no file and had no pending task, one at most
    for an identifier; it leaves pending tasks alone; and at the end every
    song of those offsets has a file or a pending task. *)
Lemma preload_loop_spec (fs : gset path) (queue : list Queue.Song)
    (cur : Z) (n : nat) :
  forall (lo hi : Z) tasks created,
    0 <= cur -> 0 <= lo -> n = Z.to_nat (hi - lo) ->
    exists tasks' new,
      preload_loop fs queue cur (Py.range lo hi) tasks created
      = Some (tasks', created ++ new) /\
      (length new <= n)%nat /\
      (forall song_id, preload_pending tasks song_id = true ->
         preload_pending tasks' song_id = true /\
         tasks' !! song_id = tasks !! song_id) /\
      (forall task, task ∈ new ->
         task_done task = false /\
         exists_ fs (Queue.id (task_song task)) = false /\
         preload_pending tasks' (Queue.id (task_song task)) = true /\
         preload_pending tasks (Queue.id (task_song task)) = false /\
         exists o, lo <= o < hi /\
                   Py.index queue (cur + o) = Some (task_song task)) /\
      (forall o song, lo <= o < hi ->
         Py.index queue (cur + o) = Some song ->
         exists_ fs (Queue.id song) = true \/
         preload_pending tasks' (Queue.id song) = true) /\
      NoDup (map (fun task => Queue.id (task_song task)) new).
Proof.
  induction n as [|n IH]; intros lo hi tasks created Hcur Hlo Hn.
  - rewrite range_empty by lia. exists tasks, []. simpl.
    rewrite app_nil_r. split; [reflexivity|]. split; [lia|].
    split; [tauto|]. split; [intros t Ht; inversion Ht|].
    split; [|constructor]. intros o song Ho. lia.
  - rewrite range_cons by lia. cbn [preload_loop].
    destruct (Z.geb_spec (cur + lo) (Py.len queue)) as [Hout|Hin].
    + exists tasks, []. rewrite app_nil_r. split; [reflexivity|].
      split; [simpl; lia|]. split; [tauto|].
      split; [intros t Ht; inversion Ht|]. split; [|constructor].
      intros o song Ho Hsong. exfalso.
      rewrite index_nonneg in Hsong by lia.
      apply lookup_lt_Some in Hsong. unfold Py.len in Hout. lia.
    + destruct (index_in_range queue (cur + lo)) as [song Hsong]; [lia|].
      rewrite Hsong. simpl.
      destruct (exists_ fs (Queue.id song)) eqn:Hex.
      { destruct (IH (lo + 1) hi tasks created Hcur) as
          (tasks' & new & Hrun & Hlen & Hkeep & Hnew & Hcov & Hnd);
          [lia | lia |].
        exists tasks', new. split; [exact Hrun|]. split; [lia|].
        split; [exact Hkeep|]. split; [|split; [|exact Hnd]].
        - intros t Ht.
          destruct (Hnew t Ht) as (H1 & H2 & H3 & H5 & o & Ho & H4).
          repeat split; try assumption. exists o. split; [lia | exact H4].
        - intros o s Ho Hs. destruct (Z.eq_dec o lo) as [->|Hne].
          + left. congruence.
          + apply (Hcov o s); [lia | exact Hs]. }
      destruct (preload_pending tasks (Queue.id song)) eqn:Hpend.
      { destruct (IH (lo + 1) hi tasks created Hcur) as
          (tasks' & new & Hrun & Hlen & Hkeep & Hnew & Hcov & Hnd);
          [lia | lia |].
        exists tasks', new. split; [exact Hrun|]. split; [lia|].
        split; [exact Hkeep|]. split; [|split; [|exact Hnd]].
        - intros t Ht.
          destruct (Hnew t Ht) as (H1 & H2 & H3 & H5 & o & Ho & H4).
          repeat split; try assumption. exists o. split; [lia | exact H4].
        - intros o s Ho Hs. destruct (Z.eq_dec o lo) as [->|Hne].
          + right. assert (s = song) as -> by congruence.
            by apply Hkeep.
          + apply (Hcov o s); [lia | exact Hs]. }
      set (task := {| task_song := song; task_done := false |}).
      destruct (IH (lo + 1) hi (<[Queue.id song := task]> tasks)
                  (created ++ [task]) Hcur) as
        (tasks' & new & Hrun & Hlen & Hkeep & Hnew & Hcov & Hnd);
        [lia | lia |].
      assert (Hmine : preload_pending (<[Queue.id song := task]> tasks)
                        (Queue.id song) = true).
      { unfold preload_pending. by rewrite lookup_insert_eq. }
      assert (Hfresh : forall t, t ∈ new ->
                Queue.id (task_song t) <> Queue.id song).
      { intros t Ht E. destruct (Hnew t Ht) as (_ & _ & _ & H5 & _).
        rewrite E in H5. congruence. }
      exists tasks', (task :: new). split.
      { rewrite Hrun. by rewrite <- app_assoc. }
      split; [simpl; lia|]. split; [|split; [|split]].
      * intros song_id Hp.
        destruct (Hkeep song_id) as [Hk1 Hk2];
          [by apply preload_pending_insert|].
        split; [exact Hk1|]. rewrite Hk2. apply lookup_insert_ne.
        intros E. rewrite <- E in Hp. congruence.
      * intros t Ht. apply elem_of_cons in Ht as [->|Ht].
        -- split; [reflexivity|]. split; [exact Hex|].
           split; [by apply Hkeep|]. split; [exact Hpend|].
           exists lo. split; [lia | exact Hsong].
        -- destruct (Hnew t Ht) as (H1 & H2 & H3 & H5 & o & Ho & H4).
           split; [exact H1|]. split; [exact H2|]. split; [exact H3|]. split.
           ++ unfold preload_pending in *.
              rewrite lookup_insert_ne in H5; [exact H5|].
              intros E. by apply (Hfresh t Ht).
           ++ exists o. split; [lia | exact H4].
      * intros o s Ho Hs. destruct (Z.eq_dec o lo) as [->|Hne].
        -- right. assert (s = song) as -> by congruence. by apply Hkeep.
        -- apply (Hcov o s); [lia | exact Hs].
      * simpl. constructor; [|exact Hnd].
        intros Hin'. apply list_elem_of_fmap in Hin' as (t & Hid & Ht).
        by apply (Hfresh t Ht).
Qed.

(** [on_song_change] past its guard, step by step. *)
Lemma on_song_change_steps (os : OS) (queue : list Queue.Song) (cur : Z)
    (c : CacheManager) (fs : gset path) :
  queue <> [] -> 0 <= cur ->
  exists keep tasks' created,
    _update_keep_ids queue cur c = Some (set_keep_ids keep c) /\
    (forall x, x ∈ keep <->
       exists i song,
         keep_start c cur <= i < keep_end c queue cur /\
         Py.index queue i = Some song /\ Queue.id song = x) /\
    preload_loop (_cleanup_old os (set_keep_ids keep c) fs) queue cur
      (Py.range 1 (window_ahead c + 1)) (_preload_tasks c) []
    = Some (tasks', created) /\
    on_song_change os queue cur c fs
    = Some {| manager := set_preload_tasks tasks' (set_keep_ids keep c);
              files := _cleanup_old os (set_keep_ids keep c) fs;
              created_tasks := created |}.
Proof.
  intros Hq Hcur.
  destruct (update_keep_ids_spec queue cur c) as (keep & Hupd & Hkeep).
  destruct (preload_loop_total (_cleanup_old os (set_keep_ids keep c) fs)
              queue cur (Py.range 1 (window_ahead c + 1))
              (_preload_tasks c) []) as [[tasks' created] Hr]; [exact Hcur | |].
  { apply Forall_forall. intros o Ho. apply range_elem in Ho. lia. }
  exists keep, tasks', created. split; [exact Hupd|]. split; [exact Hkeep|].
  split; [exact Hr|].
  unfold on_song_change. rewrite bool_decide_eq_false_2 by exact Hq.
  destruct (Z.ltb_spec cur 0); [lia|]. simpl. rewrite Hupd. simpl.
  unfold _preload_ahead. simpl. rewrite Hr. reflexivity.
Qed.



(** After [on_song_change] every song up to [ahead] places after the cursor
    has its file or a task that is fetching it. A task is created only for
    such a song, only when it has no file and no task was still running for
    its identifier before the call, and (for a window behind that is not
    negative) only for an identifier of the new keep set; no two tasks are
    created for one identifier, at most [ahead] tasks are created, and a
    task that was still running is neither dropped nor replaced. *)
Theorem prefetch_covers_window (os : OS) (queue : list Queue.Song)
    (cur : Z) (c : CacheManager) (fs : gset path) :
  0 <= cur -> queue <> [] ->
  exists out,
    on_song_change os queue cur c fs = Some out /\
    (forall j song,
       cur < j <= cur + window_ahead c -> Py.index queue j = Some song ->
       exists_ (files out) (Queue.id song) = true \/
       is_preloading (manager out) (Queue.id song) = true) /\
    (forall task, task ∈ created_tasks out ->
       task_done task = false /\
       exists_ (files out) (Queue.id (task_song task)) = false /\
       is_preloading c (Queue.id (task_song task)) = false /\
       is_preloading (manager out) (Queue.id (task_song task)) = true /\
       (exists j, cur < j <= cur + window_ahead c /\
                  Py.index queue j = Some (task_song task)) /\
       (0 <= window_behind c ->
        Queue.id (task_song task) ∈ _keep_ids (manager out))) /\
    NoDup (map (fun task => Queue.id (task_song task)) (created_tasks out)) /\
    Py.len (created_tasks out) <= Z.max 0 (window_ahead c) /\
    (forall song_id,
       is_preloading c song_id = true ->
       _preload_tasks (manager out) !! song_id = _preload_tasks c !! song_id).
Proof.
  intros Hcur Hq.
  destruct (on_song_change_steps os queue cur c fs Hq Hcur)
    as (keep & tasks' & created & _ & Hkeep & Hloop & Hout).
  eexists. split; [exact Hout|]. simpl.
  destruct (preload_loop_spec (_cleanup_old os (set_keep_ids keep c) fs)
              queue cur (Z.to_nat (window_ahead c + 1 - 1))
              1 (window_ahead c + 1) (_preload_tasks c) [] Hcur)
    as (tasks2 & new & Hrun & Hlen & Hpend & Hnew & Hcov & Hnd);
    [lia | reflexivity |].
  rewrite Hloop in Hrun. simpl in Hrun. injection Hrun as -> ->.
  split; [|split; [|split; [exact Hnd|split]]].
  - intros j song Hj Hs.
    apply (Hcov (j - cur) song); [lia|].
    by replace (cur + (j - cur)) with j by lia.
  - intros task Ht.
    destruct (Hnew task Ht) as (H1 & H2 & H3 & H5 & o & Ho & H4).
    split; [exact H1|]. split; [exact H2|]. split; [exact H5|].
    split; [exact H3|]. split.
    + exists (cur + o). split; [lia | exact H4].
    + intros Hb. apply Hkeep. exists (cur + o), (task_song task).
      split; [|split; [exact H4 | reflexivity]].
      rewrite index_nonneg in H4 by lia. apply lookup_lt_Some in H4.
      unfold keep_start, keep_end, Py.len. lia.
  - unfold Py.len. lia.
  - intros song_id Hp. by apply Hpend.
Qed.

(** The cursor on [s2] with the file of [s3] in place: a task is fetching
    [s4] afterwards. *)
Lemma prefetch_covers_window_witness :
  let fs : gset path := {[ CacheFile "s3" ]} in
  0 <= 2 /\ Sample.ten <> [] /\
  exists out,
    on_song_change reliable Sample.ten 2 (new 2 3) fs = Some out /\
    is_preloading (manager out) "s4" = true.
Proof.
  intros fs. assert (H0 : 0 <= 2) by lia.
  assert (Hq : Sample.ten <> []) by discriminate.
  split; [exact H0|]. split; [exact Hq|].
  destruct (prefetch_covers_window reliable Sample.ten 2 (new 2 3) fs H0 Hq)
    as (out & Hout & Hcov & _).
  exists out. split; [exact Hout|].
  destruct (Hcov 4 (Sample.song "s4")) as [Hfile|Hp];
    [simpl; lia | reflexivity | | exact Hp].
  exfalso. vm_compute in Hout. injection Hout as <-.
  vm_compute in Hfile. discriminate Hfile.
Defined.

Lemma update_keep_ids_same_windows (queue : list Queue.Song) (cur : Z)
    (c c' : CacheManager) (keep : gset string) :
  window_behind c' = window_behind c -> window_ahead c' = window_ahead c ->
  _update_keep_ids queue cur c = Some (set_keep_ids keep c) ->
  _update_keep_ids queue cur c' = Some (set_keep_ids keep c').
Proof.
  intros Hb Ha. unfold _update_keep_ids, keep_start, keep_end.
  rewrite Hb, Ha.
  destruct (mapM _ _) as [ids|]; simpl; [|discriminate].
  unfold set_keep_ids. intros [= ->]. reflexivity.
Qed.

Lemma cleanup_old_twice (os : OS) (c c' : CacheManager) (fs : gset path) :
  _keep_ids c' = _keep_ids c ->
  _cleanup_old os c' (_cleanup_old os c fs) = _cleanup_old os c fs.
Proof.
  intros Hk. apply set_eq. intros p. rewrite !cleanup_old_spec, Hk. tauto.
Qed.

(** When every song of the offsets has a file or a pending task, the loop of
    [_preload_ahead] creates nothing. *)
Lemma preload_loop_noop (fs : gset path) (queue : list Queue.Song)
    (cur : Z) (n : nat) :
  forall (lo hi : Z) tasks created,
    0 <= cur -> 0 <= lo -> n = Z.to_nat (hi - lo) ->
    (forall o song, lo <= o < hi ->
       Py.index queue (cur + o) = Some song ->
       exists_ fs (Queue.id song) = true \/
       preload_pending tasks (Queue.id song) = true) ->
    preload_loop fs queue cur (Py.range lo hi) tasks created
    = Some (tasks, created).
Proof.
  induction n as [|n IH]; intros lo hi tasks created Hcur Hlo Hn Hcov.
  - by rewrite range_empty by lia.
  - rewrite range_cons by lia. cbn [preload_loop].
    destruct (Z.geb_spec (cur + lo) (Py.len queue)); [reflexivity|].
    destruct (index_in_range queue (cur + lo)) as [song Hsong]; [lia|].
    rewrite Hsong. simpl.
    assert (Hnext : preload_loop fs queue cur (Py.range (lo + 1) hi)
                      tasks created = Some (tasks, created)).
    { apply IH; try lia. intros o s Ho. apply Hcov. lia. }
    destruct (Hcov lo song) as [-> | Hp]; [lia | exact Hsong | exact Hnext |].
    destruct (exists_ fs (Queue.id song)); [exact Hnext|].
    by rewrite Hp.
Qed.

(** A second [on_song_change] for the same queue and cursor, straight after
    the first, changes nothing: the keep set and the files stay and no task
    is created again. *)
Theorem on_song_change_twice (os : OS) (queue : list Queue.Song) (cur : Z)
    (c : CacheManager) (fs : gset path) (out : outcome) :
  on_song_change os queue cur c fs = Some out ->
  on_song_change os queue cur (manager out) (files out)
  = Some {| manager := manager out; files := files out;
            created_tasks := [] |}.
Proof.
  intros Hfirst.
  destruct (decide (queue = [] \/ cur < 0)) as [Hguard|Hguard].
  - unfold on_song_change in *.
    assert (E : bool_decide (queue = []) || (cur <? 0) = true).
    { destruct Hguard as [->|H]; [reflexivity|].
      destruct (Z.ltb_spec cur 0); [apply orb_true_r | lia]. }
    rewrite E in *. reflexivity.
  - assert (Hq : queue <> []) by tauto. assert (Hcur : 0 <= cur) by lia.
    destruct (on_song_change_steps os queue cur c fs Hq Hcur)
      as (keep & tasks' & created & Hupd & _ & Hloop & Hout).
    rewrite Hout in Hfirst. injection Hfirst as <-. simpl.
    set (c1 := set_preload_tasks tasks' (set_keep_ids keep c)).
    set (fs1 := _cleanup_old os (set_keep_ids keep c) fs).
    assert (Hupd' : _update_keep_ids queue cur c1 = Some c1).
    { rewrite (update_keep_ids_same_windows queue cur c c1 keep);
        [reflexivity | reflexivity | reflexivity | exact Hupd]. }
    assert (Hclean : _cleanup_old os c1 fs1 = fs1)
      by (apply cleanup_old_twice; reflexivity).
    destruct (preload_loop_spec fs1 queue cur
                (Z.to_nat (window_ahead c + 1 - 1))
                1 (window_ahead c + 1) (_preload_tasks c) [] Hcur)
      as (tasks2 & new & Hrun & _ & _ & _ & Hcov & _); [lia | reflexivity |].
    fold fs1 in Hloop. rewrite Hloop in Hrun. injection Hrun as -> _.
    unfold on_song_change. rewrite bool_decide_eq_false_2 by exact Hq.
    destruct (Z.ltb_spec cur 0); [lia|]. simpl. rewrite Hupd'. simpl.
    rewrite Hclean. unfold _preload_ahead.
    change (window_ahead c1) with (window_ahead c).
    change (_preload_tasks c1) with tasks2.
    rewrite (preload_loop_noop fs1 queue cur
               (Z.to_nat (window_ahead c + 1 - 1)) 1 (window_ahead c + 1)
               tasks2 [] Hcur); [reflexivity | lia | reflexivity | exact Hcov].
Qed.

Lemma on_song_change_twice_witness :
  let fs : gset path := {[ CacheFile "s0"; CacheFile "s3" ]} in
  exists out,
    on_song_change reliable Sample.ten 2 (new 0 1) fs = Some out /\
    on_song_change reliable Sample.ten 2 (manager out) (files out)
    = Some {| manager := manager out; files := files out;
              created_tasks := [] |}.
Proof.
  intros fs.
  destruct (on_song_change_steps reliable Sample.ten 2 (new 0 1) fs)
    as (keep & tasks' & created & _ & _ & _ & Hout); [discriminate | lia |].
  eexists. split; [exact Hout|].
  exact (on_song_change_twice _ _ _ _ _ _ Hout).
Defined.

(** After [cancel_all_preloads] no song is preloading, the task table is
    empty and the keep set is what it was; the number returned is the number
    of identifiers that were preloading, that is of the tasks that were
    still running, so it is 0 exactly when nothing was preloading. [cleanup]
    does the same and leaves every file in place. *)
Theorem cancel_all_preloads_spec (c : CacheManager) (fs : gset path) :
  let r := cancel_all_preloads c in
  (forall song_id, is_preloading r.2 song_id = false) /\
  _preload_tasks r.2 = ∅ /\
  _keep_ids r.2 = _keep_ids c /\
  r.1 = Z.of_nat
          (size (filter (fun kv : string * Task => task_done kv.2 = false)
                        (_preload_tasks c))) /\
  (exists running : list string,
     NoDup running /\
     (forall song_id, song_id ∈ running <-> is_preloading c song_id = true) /\
     r.1 = Py.len running) /\
  (r.1 = 0 <-> forall song_id, is_preloading c song_id = false) /\
  cleanup c fs = (r.2, fs).
Proof.
  simpl.
  set (P := fun kv : string * Task => task_done kv.2 = false).
  assert (Hlist : filter P (map_to_list (_preload_tasks c))
                  ≡ₚ map_to_list (filter P (_preload_tasks c))).
  { apply NoDup_Permutation.
    - apply NoDup_filter, NoDup_map_to_list.
    - apply NoDup_map_to_list.
    - intros [k t]. rewrite list_elem_of_filter, !elem_of_map_to_list.
      rewrite map_lookup_filter_Some. tauto. }
  assert (Hpre : forall song_id,
            is_preloading c song_id = true <->
            song_id ∈ (map_to_list (filter P (_preload_tasks c))).*1).
  { intros song_id. unfold is_preloading. rewrite list_elem_of_fmap. split.
    - destruct (_preload_tasks c !! song_id) as [task|] eqn:E; [|discriminate].
      intros Hd. apply negb_true_iff in Hd. exists (song_id, task).
      split; [reflexivity|]. apply elem_of_map_to_list.
      apply map_lookup_filter_Some. by split.
    - intros ([k t] & -> & Hin). apply elem_of_map_to_list in Hin.
      apply map_lookup_filter_Some in Hin as [Hl Hd]. simpl.
      rewrite Hl. unfold P in Hd. simpl in Hd. by rewrite Hd. }
  assert (Hcount : Py.len (filter P (map_to_list (_preload_tasks c)))
                   = Z.of_nat (size (filter P (_preload_tasks c)))).
  { unfold Py.len. rewrite Hlist, length_map_to_list. reflexivity. }
  split; [|split; [reflexivity|split; [reflexivity|split;
    [exact Hcount|split; [|split]]]]].
  - intros song_id. unfold is_preloading. simpl. by rewrite lookup_empty.
  - exists (map_to_list (filter P (_preload_tasks c))).*1.
    split; [apply NoDup_fst_map_to_list|]. split.
    + intros song_id. symmetry. apply Hpre.
    + rewrite Hcount. unfold Py.len.
      by rewrite length_fmap, length_map_to_list.
  - rewrite Hcount. split.
    + intros Hz song_id.
      destruct (is_preloading c song_id) eqn:E; [|reflexivity]. exfalso.
      apply Hpre in E. apply list_elem_of_fmap in E as (kv & _ & Hin).
      assert (Hs : size (filter P (_preload_tasks c)) = 0%nat) by lia.
      apply map_size_empty_iff in Hs. rewrite Hs in Hin.
      rewrite map_to_list_empty in Hin. inversion Hin.
    + intros Hnone.
      assert (Hs : filter P (_preload_tasks c) = ∅).
      { apply map_empty. intros k.
        destruct (filter P (_preload_tasks c) !! k) as [t|] eqn:E;
          [|reflexivity]. exfalso.
        assert (Hin : k ∈ (map_to_list (filter P (_preload_tasks c))).*1).
        { apply list_elem_of_fmap. exists (k, t).
          split; [reflexivity | by apply elem_of_map_to_list]. }
        apply Hpre in Hin. rewrite Hnone in Hin. discriminate. }
      rewrite Hs, map_size_empty. reflexivity.
  - reflexivity.
Qed.



End CacheMore.

(** ** Downloader: classification, metadata *)

Section DownloaderMore.

Import Downloader.

(** Every error dict carries one of the six reason codes, and the message
    table has an entry for each code the classification can give: the
    fallback of [_get_user_friendly_message] is never needed for a missing
    key. The dict reports failure and carries the message and the URL it was
    made from. *)
Theorem classification_has_message (str_lower : string -> string)
    (now : Q) (error_msg url : string) :
  let response := _create_error_response str_lower now error_msg url in
  error_type response
    ∈ ["age_restricted"; "copyright"; "region_blocked"; "private";
       "unavailable"; "unknown"]%string /\
  messages !! error_type response = Some (display_message response) /\
  success response = false /\
  error_message response = error_msg /\
  Downloader.url response = url.
Proof.
  simpl. unfold _get_user_friendly_message.
  assert (H : _detect_error_type str_lower error_msg
              ∈ ["age_restricted"; "copyright"; "region_blocked"; "private";
                 "unavailable"; "unknown"]%string).
  { destruct (detect_in_match ERROR_PATTERNS (str_lower error_msg))
      as [Hu|(ps & p & Hin & _)]; unfold _detect_error_type.
    - rewrite Hu. apply list_elem_of_In. simpl. tauto.
    - unfold ERROR_PATTERNS in Hin at 2. apply list_elem_of_In in Hin.
      simpl in Hin. apply list_elem_of_In. simpl.
      destruct Hin as [E|[E|[E|[E|[E|[]]]]]]; injection E as E _;
        rewrite <- E; tauto. }
  split; [exact H|]. split; [|by repeat split].
  apply list_elem_of_In in H. simpl in H.
  destruct H as [<-|[<-|[<-|[<-|[<-|[<-|[]]]]]]]; reflexivity.
Qed.

Lemma area_none (t : Thumbnail) :
  area t = None <-> t_width t = Null \/ t_height t = Null.
Proof.
  unfold area. destruct (t_width t), (t_height t); simpl;
    split; try discriminate; try tauto; intros [H|H]; discriminate.
Qed.

(** [max] raises exactly when the key of some entry does; otherwise it gives
    an entry whose key no entry exceeds. *)
Lemma max_by_area_spec (rest : list Thumbnail) :
  forall (best : Thumbnail) (a : Z), area best = Some a ->
    (max_by_area best a rest = None <->
     exists t, t ∈ rest /\ area t = None) /\
    (forall b, max_by_area best a rest = Some b ->
       b ∈ best :: rest /\
       exists ab, area b = Some ab /\
         forall t, t ∈ best :: rest ->
           exists at', area t = Some at' /\ at' <= ab).
Proof.
  induction rest as [|x rest IH]; intros best a Ha; simpl.
  - split.
    + split; [discriminate | intros (t & Ht & _); inversion Ht].
    + intros b [= <-]. split; [by left|]. exists a. split; [exact Ha|].
      intros t Ht. apply elem_of_cons in Ht as [->|Ht]; [|inversion Ht].
      exists a. split; [exact Ha | lia].
  - destruct (area x) as [ax|] eqn:Hx.
    + destruct (Z.ltb_spec a ax) as [Hlt|Hge].
      * destruct (IH x ax Hx) as [Hnone Hsome]. split.
        -- rewrite Hnone. split; intros (t & Ht & Hn).
           ++ exists t. split; [by right | exact Hn].
           ++ exists t. split; [|exact Hn].
              apply elem_of_cons in Ht as [->|Ht]; [congruence | exact Ht].
        -- intros b Hb. destruct (Hsome b Hb) as (Hin & ab & Hab & Hmax).
           split; [by right|]. exists ab. split; [exact Hab|].
           intros t Ht. apply elem_of_cons in Ht as [->|Ht]; [|by apply Hmax].
           destruct (Hmax x ltac:(by left)) as (ax' & Hx' & Hle).
           exists a. split; [exact Ha|]. rewrite Hx in Hx'.
           injection Hx' as <-. lia.
      * destruct (IH best a Ha) as [Hnone Hsome]. split.
        -- rewrite Hnone. split; intros (t & Ht & Hn).
           ++ exists t. split; [by right | exact Hn].
           ++ exists t. split; [|exact Hn].
              apply elem_of_cons in Ht as [->|Ht]; [congruence | exact Ht].
        -- intros b Hb. destruct (Hsome b Hb) as (Hin & ab & Hab & Hmax).
           split.
           ++ apply elem_of_cons in Hin as [->|Hin];
                [by left | by right; right].
           ++ exists ab. split; [exact Hab|]. intros t Ht.
              apply elem_of_cons in Ht as [->|Ht]; [apply Hmax; by left|].
              apply elem_of_cons in Ht as [->|Ht]; [|apply Hmax; by right].
              destruct (Hmax best ltac:(by left)) as (a' & Ha' & Hle).
              exists ax. split; [exact Hx|]. rewrite Ha in Ha'.
              injection Ha' as <-. lia.
    + split.
      * split; [|reflexivity]. intros _. exists x. split; [by left | exact Hx].
      * discriminate.
Qed.

(** The thumbnail chosen is the one named by ["thumbnail"] when there is
    one. Otherwise, with entries under ["thumbnails"], the call raises
    [TypeError] exactly when some entry has an explicit [null] for its width
    or height, and else returns the URL (empty when the entry has none) of
    an entry whose area no entry exceeds. The result is empty when neither
    is there. *)
Theorem best_thumbnail_is_largest (data : VideoData) :
  (forall t, d_thumbnail data = Some t -> t <> ""%string ->
     _pick_best_thumbnail data = Returns t) /\
  (opt_or (d_thumbnail data) "" = ""%string ->
   (forall entries, d_thumbnails data = Some entries -> entries <> [] ->
      (_pick_best_thumbnail data = Raises <->
       exists t, t ∈ entries /\ (t_width t = Null \/ t_height t = Null)) /\
      (forall url, _pick_best_thumbnail data = Returns url ->
         exists best a,
           best ∈ entries /\ url = opt_or (t_url best) "" /\
           area best = Some a /\
           forall t, t ∈ entries ->
             exists at', area t = Some at' /\ at' <= a)) /\
   (d_thumbnails data = None \/ d_thumbnails data = Some [] ->
      _pick_best_thumbnail data = Returns ""%string)).
Proof.
  unfold _pick_best_thumbnail. split.
  - intros t -> Ht. simpl. destruct t; [contradiction | reflexivity].
  - intros ->. simpl. split.
    + intros entries -> Hne. destruct entries as [|first rest]; [done|].
      destruct (area first) as [a|] eqn:Ha.
      * destruct (max_by_area_spec rest first a Ha) as [Hnone Hsome].
        destruct (max_by_area first a rest) as [best|] eqn:Hm.
        -- split.
           ++ split; [discriminate|]. intros (t & Ht & Hn).
              apply area_none in Hn.
              apply elem_of_cons in Ht as [->|Ht]; [congruence|].
              assert (Hex : exists t, t ∈ rest /\ area t = None) by eauto.
              apply Hnone in Hex. discriminate.
           ++ intros url [= <-].
              destruct (Hsome best eq_refl) as (Hin & ab & Hab & Hmax).
              exists best, ab. by repeat split.
        -- split; [|discriminate]. split; [|reflexivity]. intros _.
           destruct (proj1 Hnone eq_refl) as (t & Ht & Hn).
           exists t. split; [by right | by apply area_none].
      * split; [|discriminate]. split; [|reflexivity]. intros _.
        exists first. split; [by left | by apply area_none].
    + intros [-> | ->]; reflexivity.
Qed.

(** Three entries with their sizes: the largest is chosen. *)
Lemma best_thumbnail_is_largest_witness :
  let small := {| t_url := Some "small.jpg"%string;
                  t_width := Pixels 120; t_height := Pixels 90 |} in
  let large := {| t_url := Some "large.jpg"%string;
                  t_width := Pixels 1280; t_height := Pixels 720 |} in
  let data :=
    {| d_id := Some "abc"%string; d_title := Some "Song"%string;
       d_uploader := None; d_artist := None; d_duration := None;
       d_thumbnail := None; d_thumbnails := Some [small; large; small];
       d_channel_url := None; d_uploader_url := None; d_artist_url := None;
       d_creator_url := None; d_webpage_url := None; d_url := None;
       d_extractor := None |} in
  opt_or (d_thumbnail data) "" = ""%string /\
  _pick_best_thumbnail data = Returns "large.jpg"%string /\
  exists best a,
    "large.jpg"%string = opt_or (t_url best) "" /\
    area best = Some a /\ 120 * 90 <= a.
Proof.
  intros small large data. split; [reflexivity|]. split; [reflexivity|].
  destruct (proj2 (proj1 (proj2 (best_thumbnail_is_largest data) eq_refl)
                     [small; large; small] eq_refl ltac:(discriminate))
              "large.jpg"%string eq_refl)
    as (best & a & _ & Hurl & Ha & Hmax).
  exists best, a. split; [exact Hurl|]. split; [exact Ha|].
  destruct (Hmax small ltac:(by left)) as (a' & Ha' & Hle).
  injection Ha' as <-. exact Hle.
Defined.

Lemma existsb_false_Forall {A} (f : A -> bool) (l : list A) :
  existsb f l = false -> Forall (fun x => f x = false) l.
Proof.
  induction l as [|x l IH]; simpl; [constructor|].
  intros H. apply orb_false_iff in H as [Hx Hl]. constructor; auto.
Qed.

Lemma round_threshold :
  (F64.round (inject_Z (2 ^ 1024 - 2 ^ 970)) == F64.pow2 1024)%Q.
Proof. vm_compute. reflexivity. Qed.

(** [int(float(duration))] of a JSON number: an integer below [2^53] in
    size comes back as it is; the result is below 1 for an integer below 1
    and for a literal whose float is below 1; and the conversion raises for
    an integer from [2^1024 - 2^970] on. *)
Lemma int_float_spec (duration : json_number) :
  (forall z, duration = JInt z -> Z.abs z < 2 ^ 53 ->
     int_float duration = Some z) /\
  (forall z seconds, duration = JInt z -> z < 1 ->
     int_float duration = Some seconds -> seconds <= 0) /\
  (forall z, duration = JInt z -> 2 ^ 1024 - 2 ^ 970 <= z ->
     int_float duration = None) /\
  (forall x seconds, duration = JFloat x -> (F64.round x < 1)%Q ->
     int_float duration = Some seconds -> seconds <= 0) /\
  (forall seconds, number_truthy duration = false ->
     int_float duration = Some seconds -> seconds = 0).
Proof.
  assert (Hbelow : forall y : Q, (y < 1)%Q -> State.int_of_float y <= 0).
  { intros y Hy. destruct (Qlt_le_dec y 0) as [Hneg|Hpos].
    - assert (H0 : (y <= inject_Z 0)%Q)
        by (change (inject_Z 0) with 0%Q; lra).
      apply int_of_float_mono in H0.
      rewrite int_of_float_Z in H0. exact H0.
    - rewrite int_of_float_nonneg by exact Hpos.
      pose proof (Qfloor_le y) as Hfl.
      assert (Hf : (inject_Z (Qfloor y) < inject_Z 1)%Q)
        by (change (inject_Z 1) with 1%Q; lra).
      rewrite <- Zlt_Qlt in Hf. lia. }
  split; [|split; [|split; [|split]]].
  - intros z -> Hz. simpl.
    assert (E : (F64.round (inject_Z z) == inject_Z z)%Q)
      by (apply round_int; lia).
    assert (Ho : F64.overflows (inject_Z z) = false).
    { unfold F64.overflows. apply not_true_is_false. intros H.
      apply Qle_bool_iff in H. rewrite E in H.
      assert (Hq : (Qabs (inject_Z z) < inject_Z (2 ^ 53))%Q).
      { apply Qabs_Qlt_condition. split.
        - rewrite <- inject_Z_opp, <- Zlt_Qlt. lia.
        - rewrite <- Zlt_Qlt. lia. }
      rewrite <- (pow2_nonneg 53) in Hq by lia.
      pose proof (pow2_le 53 1024 ltac:(lia)). lra. }
    rewrite Ho. f_equal.
    rewrite (int_of_float_comp _ _ E). apply int_of_float_Z.
  - intros z seconds -> Hz. simpl.
    destruct (F64.overflows (inject_Z z)); [discriminate|]. intros [= <-].
    apply Hbelow. apply Qle_lt_trans with 0%Q; [|reflexivity].
    apply round_nonpos. change 0%Q with (inject_Z 0).
    rewrite <- Zle_Qle. lia.
  - intros z -> Hz. simpl.
    assert (Ho : F64.overflows (inject_Z z) = true); [|by rewrite Ho].
    unfold F64.overflows. apply Qle_bool_iff.
    assert (Hr : (F64.pow2 1024 <= F64.round (inject_Z z))%Q).
    { rewrite <- round_threshold. apply round_mono.
      rewrite <- Zle_Qle. exact Hz. }
    rewrite Qabs_pos; [exact Hr|].
    pose proof (pow2_pos 1024). lra.
  - intros x seconds -> Hx. simpl.
    destruct (F64.overflows x); [discriminate|]. intros [= <-].
    by apply Hbelow.
  - intros seconds Hf. destruct duration as [z|x|]; simpl in *.
    + apply negb_false_iff, Z.eqb_eq in Hf. subst z.
      vm_compute. by intros [= <-].
    + apply negb_false_iff, Qeq_bool_iff in Hf.
      destruct (F64.overflows x); [discriminate|]. intros [= <-].
      rewrite (int_of_float_comp _ (inject_Z 0)) by exact Hf.
      apply int_of_float_Z.
    + discriminate.
Qed.

(** What gets through [_parse_video_data]: the title is the one of the data,
    not empty (the default title is never filled in), and its lower-cased
    form contains no pattern of an invalid title; the duration is
    [int(float(duration))] of the data's duration, computed in floats, and at
    least 1, or 0 when the data has none; an integer duration below [2^53]
    is passed on as it is, and so is the identifier. Data without a title,
    with a duration that is not finite, with an integer duration below 1 or
    too large for a float, or with one whose float is below 1 are turned
    down. The call raises only where [_pick_best_thumbnail] does, on data
    that is valid otherwise. (Lower-casing gives the empty string for the
    empty string only.) *)
Theorem parsed_video_is_sane (str_lower : string -> string)
    (Hlower : forall s, str_lower s = ""%string <-> s = ""%string)
    (data : VideoData) :
  (forall info, _parse_video_data str_lower data = Returns (Some info) ->
     (exists title,
        d_title data = Some title /\ title <> ""%string /\
        vi_title info = title /\
        Forall (fun pattern => contains pattern (str_lower title) = false)
               INVALID_TITLE_PATTERNS) /\
     vi_id info = d_id data /\
     0 <= vi_duration info /\
     (vi_duration info = 0 <-> d_duration data = None) /\
     (forall duration, d_duration data = Some duration ->
        int_float duration = Some (vi_duration info) /\
        1 <= vi_duration info) /\
     (forall z, d_duration data = Some (JInt z) -> z < 2 ^ 53 ->
        vi_duration info = z) /\
     (forall x, d_duration data = Some (JFloat x) ->
        vi_duration info = State.int_of_float (F64.round x))) /\
  (d_title data = None \/ d_title data = Some ""%string ->
   _parse_video_data str_lower data = Returns None) /\
  (d_duration data = Some NotFinite ->
   _parse_video_data str_lower data = Returns None) /\
  (forall z, d_duration data = Some (JInt z) ->
   z < 1 \/ 2 ^ 1024 - 2 ^ 970 <= z ->
   _parse_video_data str_lower data = Returns None) /\
  (forall x, d_duration data = Some (JFloat x) -> (F64.round x < 1)%Q ->
   _parse_video_data str_lower data = Returns None) /\
  (_parse_video_data str_lower data = Raises <->
   _is_valid_video str_lower data = true /\
   _pick_best_thumbnail data = Raises).
Proof.
  assert (Hempty : is_empty (str_lower "") = true)
    by (rewrite (proj2 (Hlower ""%string) eq_refl); reflexivity).
  assert (Hinvalid : _is_valid_video str_lower data = false ->
                     _parse_video_data str_lower data = Returns None).
  { intros H. unfold _parse_video_data. by rewrite H. }
  assert (Hseconds : forall duration seconds,
            d_duration data = Some duration ->
            int_float duration = Some seconds -> seconds <= 0 ->
            _parse_video_data str_lower data = Returns None).
  { intros duration seconds Hd Hi Hle. apply Hinvalid.
    unfold _is_valid_video. rewrite Hd, Hi.
    destruct (existsb _ INVALID_TITLE_PATTERNS); [reflexivity|].
    destruct (_ || _); [reflexivity|].
    apply negb_false_iff, Z.leb_le, Hle. }
  assert (Hraises : forall duration,
            d_duration data = Some duration ->
            int_float duration = None ->
            _parse_video_data str_lower data = Returns None).
  { intros duration Hd Hi. apply Hinvalid.
    unfold _is_valid_video. rewrite Hd, Hi.
    destruct (existsb _ INVALID_TITLE_PATTERNS); [reflexivity|].
    by destruct (_ || _). }
  split; [|split; [|split; [|split; [|split]]]].
  - intros info. unfold _parse_video_data.
    destruct (_is_valid_video str_lower data) eqn:Hv; [|discriminate].
    simpl. destruct (_pick_best_thumbnail data) as [thumb|]; [|discriminate].
    intros [= <-]. simpl. unfold _is_valid_video in Hv.
    destruct (existsb (fun pattern => contains pattern _)
                INVALID_TITLE_PATTERNS) eqn:Hpat; [discriminate|].
    destruct (is_empty (str_lower (opt_or (d_title data) ""))) eqn:Hemp;
      [discriminate|].
    simpl in Hv.
    match type of Hv with
    | (if ?b then _ else _) = _ => destruct b; [discriminate|]
    end.
    assert (Htitle : exists title,
              d_title data = Some title /\ title <> ""%string /\
              opt_or (d_title data) "" = title).
    { destruct (d_title data) as [[|ch t]|] eqn:Ht; simpl in Hemp.
      - congruence.
      - exists (String ch t). repeat split. discriminate.
      - congruence. }
    destruct Htitle as (title & Ht & Hne & Hopt).
    split; [|split; [reflexivity|]].
    + exists title. split; [exact Ht|]. split; [exact Hne|]. split.
      * rewrite Ht. simpl. by destruct title.
      * rewrite Hopt in Hpat. by apply existsb_false_Forall.
    + destruct (d_duration data) as [duration|] eqn:Hd.
      * destruct (int_float duration) as [seconds|] eqn:Hi; [|discriminate].
        apply negb_true_iff, Z.leb_gt in Hv.
        assert (Htruthy : number_truthy duration = true).
        { destruct (number_truthy duration) eqn:E; [reflexivity|].
          pose proof (proj2 (proj2 (proj2 (proj2 (int_float_spec duration))))
                        seconds E Hi). lia. }
        rewrite Htruthy. simpl.
        split; [lia|]. split; [split; [lia | discriminate]|].
        split; [|split].
        -- intros d [= <-]. split; [exact Hi | lia].
        -- intros z [= ->] Hz.
           destruct (Z.lt_ge_cases z 1) as [Hlow|Hhigh].
           ++ pose proof (proj1 (proj2 (int_float_spec (JInt z)))
                            z seconds eq_refl Hlow Hi). lia.
           ++ rewrite (proj1 (int_float_spec (JInt z)) z eq_refl) in Hi
                by lia. by injection Hi.
        -- intros x [= ->]. simpl in Hi.
           destruct (F64.overflows x); [discriminate|]. by injection Hi.
      * split; [lia|]. split; [tauto|]. split; [discriminate|].
        split; discriminate.
  - intros Ht. apply Hinvalid. unfold _is_valid_video.
    assert (E : opt_or (d_title data) "" = ""%string)
      by (destruct Ht as [-> | ->]; reflexivity).
    rewrite E. destruct (existsb _ INVALID_TITLE_PATTERNS); [reflexivity|].
    by rewrite Hempty.
  - intros Hd. by apply (Hraises NotFinite).
  - intros z Hd [Hlow|Hhigh].
    + destruct (int_float (JInt z)) as [seconds|] eqn:Hi.
      * apply (Hseconds (JInt z) seconds Hd Hi).
        exact (proj1 (proj2 (int_float_spec (JInt z)))
                 z seconds eq_refl Hlow Hi).
      * by apply (Hraises (JInt z)).
    + apply (Hraises (JInt z) Hd).
      exact (proj1 (proj2 (proj2 (int_float_spec (JInt z))))
               z eq_refl Hhigh).
  - intros x Hd Hx.
    destruct (int_float (JFloat x)) as [seconds|] eqn:Hi.
    + apply (Hseconds (JFloat x) seconds Hd Hi).
      exact (proj1 (proj2 (proj2 (proj2 (int_float_spec (JFloat x)))))
               x seconds eq_refl Hx Hi).
    + by apply (Hraises (JFloat x)).
  - unfold _parse_video_data.
    destruct (_is_valid_video str_lower data); simpl.
    + destruct (_pick_best_thumbnail data); split;
        first [discriminate | tauto | intros [_ H]; discriminate H].
    + split; [discriminate | intros [H _]; discriminate H].
Qed.

Lemma ascii_lower_empty (s : string) :
  ascii_lower s = ""%string <-> s = ""%string.
Proof. destruct s; simpl; split; first [reflexivity | discriminate]. Qed.

(** A video of 180.5 seconds: the duration passed on is 180, and the URL is
    built from the identifier. The integer [2^53 + 1] is no float: it would
    come back as [2^53]. *)
Lemma parsed_video_is_sane_witness :
  let data :=
    {| d_id := Some "abc"%string; d_title := Some "A Song"%string;
       d_uploader := Some "someone"%string; d_artist := None;
       d_duration := Some (JFloat (1805 # 10));
       d_thumbnail := None; d_thumbnails := None;
       d_channel_url := None; d_uploader_url := None; d_artist_url := None;
       d_creator_url := None; d_webpage_url := None; d_url := None;
       d_extractor := None |} in
  int_float (JInt (2 ^ 53 + 1)) = Some (2 ^ 53) /\
  exists info,
    _parse_video_data ascii_lower data = Returns (Some info) /\
    vi_duration info = 180 /\
    vi_url info = "https://www.youtube.com/watch?v=abc"%string.
Proof.
  intros data. split; [vm_compute; reflexivity|].
  assert (Hp : exists info,
            _parse_video_data ascii_lower data = Returns (Some info))
    by (eexists; vm_compute; reflexivity).
  destruct Hp as [info Hinfo]. exists info. split; [exact Hinfo|].
  destruct (proj1 (parsed_video_is_sane ascii_lower ascii_lower_empty data)
              info Hinfo) as (_ & _ & _ & _ & _ & _ & Hdur).
  split.
  - rewrite (Hdur _ eq_refl). vm_compute. reflexivity.
  - vm_compute in Hinfo. injection Hinfo as <-. reflexivity.
Defined.

End DownloaderMore.

(** ** The cog: giving up on songs that cannot be had *)

Section CogMore.

Import Cog.

Lemma next_frame (q : Queue.MusicQueue) :
  Queue._queue (Queue.next q).2 = Queue._queue q /\
  Queue._loop (Queue.next q).2 = Queue._loop q /\
  (forall s, (Queue.next q).1 = Some s ->
     s ∈ Queue._queue q /\ Queue.current_song (Queue.next q).2 = Some s).
Proof.
  unfold Queue.next.
  destruct (Py.len (Queue._queue q) =? 0);
    [repeat split; intros; discriminate|].
  assert (Hcur : forall i s,
            Queue.current_song (Queue.set_index i q) = Some s ->
            s ∈ Queue._queue q).
  { intros i s. unfold Queue.current_song. simpl.
    destruct ((i <? 0) || _) eqn:E; [discriminate|].
    apply orb_false_iff in E as [E _]. apply Z.ltb_ge in E.
    rewrite index_nonneg by lia. apply list_elem_of_lookup_2. }
  destruct (Queue._loop q) eqn:Hl; simpl.
  - split; [reflexivity|]. split; [exact Hl|].
    intros s Hs. split; [by eapply Hcur | exact Hs].
  - destruct (_ >=? _); simpl.
    + split; [reflexivity|]. split; [exact Hl | discriminate].
    + split; [reflexivity|]. split; [exact Hl|].
      intros s Hs. split; [by eapply Hcur | exact Hs].
Qed.

Lemma remove_frame (song_id : string) (q : Queue.MusicQueue) :
  Queue._loop (Queue.remove song_id q).2 = Queue._loop q /\
  (forall x, x ∈ Queue._queue (Queue.remove song_id q).2 ->
     x ∈ Queue._queue q) /\
  (length (Queue._queue (Queue.remove song_id q).2)
   <= length (Queue._queue q))%nat /\
  (forall s, s ∈ Queue._queue q -> Queue.id s = song_id ->
     S (length (Queue._queue (Queue.remove song_id q).2))
     = length (Queue._queue q)).
Proof.
  unfold Queue.remove.
  destruct (Queue.find_id song_id (Queue._queue q)) as [i|] eqn:Hf; simpl.
  - pose proof (find_id_lt _ _ _ Hf) as Hlt.
    assert (Hlen : S (length (Py.pop (Queue._queue q) i))
                   = length (Queue._queue q)).
    { unfold Py.pop. rewrite length_app, length_take, length_drop. lia. }
    split; [reflexivity|]. split; [|split; [lia | intros; exact Hlen]].
    intros x Hx. unfold Py.pop in Hx. apply elem_of_app in Hx as [Hx|Hx].
    + eapply elem_of_sublist; [exact Hx | apply sublist_take].
    + eapply elem_of_sublist; [exact Hx | apply sublist_drop].
  - split; [reflexivity|]. split; [tauto|]. split; [lia|].
    intros s Hs Hid. exfalso.
    by apply (proj1 (find_id_none song_id (Queue._queue q)) Hf s).
Qed.

Lemma play_song_general (obtainable : Queue.Song -> bool) (fuel : nat) :
  forall (song : Queue.Song) (p : MusicPlayer),
    (length (Queue._queue (queue p)) + 2 <= fuel)%nat \/
    (song ∈ Queue._queue (queue p) /\
     (length (Queue._queue (queue p)) + 1 <= fuel)%nat) ->
    exists r,
      _play_song obtainable fuel song {| player := Some p |} = Some r /\
      Forall (fun s => obtainable s = false) (dropped r) /\
      (forall s, play_ending r = Playing s -> obtainable s = true) /\
      (forall s, play_ending r = Playing s -> dropped r <> [] ->
         exists p', player (cog_after r) = Some p' /\
                    Queue.current_song (queue p') = Some s) /\
      (forall asked s, play_ending r = Showing asked -> PlaySong s ∉ asked) /\
      (song ∈ Queue._queue (queue p) ->
       (length (dropped r) <= length (Queue._queue (queue p)))%nat) /\
      (length (dropped r) <= S (length (Queue._queue (queue p))))%nat /\
      exists p',
        player (cog_after r) = Some p' /\
        state p' = state p /\
        Queue._loop (queue p') = Queue._loop (queue p) /\
        forall x, x ∈ Queue._queue (queue p') -> x ∈ Queue._queue (queue p).
Proof.
  induction fuel as [|fuel IH]; intros song p Hfuel; [lia|].
  cbn [_play_song player].
  destruct (obtainable song) eqn:Ho.
  { eexists. split; [reflexivity|]. simpl.
    split; [constructor|]. split; [intros s [= <-]; exact Ho|].
    split; [intros s _ H; contradiction|]. split; [discriminate|].
    split; [lia|]. split; [lia|]. exists p. tauto. }
  set (q' := (Queue.remove (Queue.id song) (queue p)).2).
  destruct (remove_frame (Queue.id song) (queue p))
    as (Hloop & Hsub & Hle & Hshrink). fold q' in Hloop, Hsub, Hle, Hshrink.
  unfold _play_next_song. cbn [player queue with_queue].
  destruct (Queue.size q' =? 0) eqn:Hsize.
  { cbn. eexists. split; [reflexivity|]. simpl.
    split; [by repeat constructor|]. split; [discriminate|].
    split; [discriminate|]. split.
    - intros asked s [= <-] Hin.
      apply list_elem_of_singleton in Hin. discriminate.
    - split; [intros Hin; specialize (Hshrink song Hin eq_refl); lia|].
      split; [lia|]. eexists. split; [reflexivity|]. simpl. tauto. }
  destruct (next_frame q') as (Hnq & Hnl & Hns).
  destruct (Queue.next q') as [[s|] q''] eqn:Hnext; cbn [fst snd] in *.
  - destruct (Hns s eq_refl) as [Hs_in Hs_cur].
    destruct (IH s (with_queue q'' (with_queue q' p)))
      as (rest & Hrest & Hdrop & Hplay & Hcur & Hshow & Hlen_in & _ & p2
          & Hp2 & Hstate & Hloop2 & Hsub2).
    { right. simpl. rewrite Hnq. split; [exact Hs_in|].
      destruct Hfuel as [Hf|[Hin Hf]]; [lia|].
      specialize (Hshrink song Hin eq_refl). lia. }
    simpl in Hlen_in, Hstate, Hloop2, Hsub2.
    rewrite Hnq in Hlen_in, Hsub2. specialize (Hlen_in Hs_in).
    cbn. rewrite Hrest. cbn. eexists. split; [reflexivity|]. simpl.
    split; [by constructor|]. split; [exact Hplay|]. split.
    + intros s' Hs' _. destruct (dropped rest) eqn:Hd.
      * exists p2. split; [exact Hp2|].
        (* the chain stopped at the next song *)
        clear IH. destruct fuel as [|fuel]; [discriminate|].
        cbn [_play_song player] in Hrest.
        destruct (obtainable s) eqn:Hos.
        -- injection Hrest as <-. simpl in *. injection Hp2 as <-.
           injection Hs' as <-. exact Hs_cur.
        -- exfalso. revert Hrest Hd. clear.
           destruct (_play_next_song _) as [c [|[] [|? ?]]]; cbn;
             try (intros [= <-]; discriminate).
           destruct (_play_song obtainable fuel song0 c); cbn;
             [intros [= <-]; discriminate | discriminate].
      * apply Hcur; [exact Hs' | discriminate].
    + split; [exact Hshow|]. split.
      * intros Hin. specialize (Hshrink song Hin eq_refl). lia.
      * split; [lia|]. exists p2. split; [exact Hp2|].
        split; [exact Hstate|]. split; [congruence|]. auto.
  - assert (Hrun : exists asked,
              (forall x, PlaySong x ∉ asked) /\
              match Queue.current_song q'' with
              | Some current_song => [UpdatePlayerMessage current_song]
              | None => []
              end = asked /\
              match asked with
              | [PlaySong _] => False
              | _ => True
              end).
    { destruct (Queue.current_song q'').
      - eexists. split; [|split; [reflexivity | exact I]].
        intros x Hin. apply list_elem_of_singleton in Hin. discriminate.
      - eexists. split; [|split; [reflexivity | exact I]].
        intros x Hin. inversion Hin. }
    destruct Hrun as (asked & Hno & Hasked & Hshape).
    cbn. destruct (Queue.current_song q''); subst asked; cbn;
      (eexists; split; [reflexivity|]; simpl;
       split; [by repeat constructor|]; split; [discriminate|];
       split; [discriminate|]; split;
       [intros a x [= <-]; apply Hno
       |split; [intros Hin; specialize (Hshrink song Hin eq_refl); lia|];
        split; [lia|]; eexists; split; [reflexivity|]; simpl;
        rewrite Hnq, Hnl; tauto]).
Qed.

(** [_play_song] gives up on every song it cannot get a file for and goes
    on to the next one, and it always comes to an end: a depth of calls of
    two more than the queue is long is never exceeded. Every song given up
    on had no file; a song is played only if it has one, and after at least
    one song was given up on it is the current song of the queue; when no
    song is played nothing is asked to be played; and up to that ending the
    queue only loses songs, with the playback state and the loop flag as
    they were. *)
Theorem play_song_gives_up (obtainable : Queue.Song -> bool) (fuel : nat)
    (song : Queue.Song) (p : MusicPlayer) :
  (length (Queue._queue (queue p)) + 2 <= fuel)%nat ->
  exists r,
    _play_song obtainable fuel song {| player := Some p |} = Some r /\
    Forall (fun s => obtainable s = false) (dropped r) /\
    (forall s, play_ending r = Playing s -> obtainable s = true) /\
    (forall s, play_ending r = Playing s -> dropped r <> [] ->
       exists p', player (cog_after r) = Some p' /\
                  Queue.current_song (queue p') = Some s) /\
    (forall asked s, play_ending r = Showing asked -> PlaySong s ∉ asked) /\
    (length (dropped r) <= S (length (Queue._queue (queue p))))%nat /\
    exists p',
      player (cog_after r) = Some p' /\
      state p' = state p /\
      Queue._loop (queue p') = Queue._loop (queue p) /\
      forall x, x ∈ Queue._queue (queue p') -> x ∈ Queue._queue (queue p).
Proof.
  intros Hfuel.
  destruct (play_song_general obtainable fuel song p)
    as (r & Hr & H1 & H2 & H3 & H4 & _ & H5 & H6); [by left|].
  exists r. tauto.
Qed.

(** Nothing in [[A, B, C]] can be had: all three songs are given up on and
    the empty queue is shown. *)
Lemma play_song_gives_up_witness :
  let p := {| state := State.init; queue := Sample.abc false |} in
  (length (Queue._queue (queue p)) + 2 <= 5)%nat /\
  exists r,
    _play_song (fun _ => false) 5 Sample.A {| player := Some p |} = Some r /\
    Forall (fun s => (fun _ : Queue.Song => false) s = false) (dropped r).
Proof.
  intros p.
  assert (H : (length (Queue._queue (queue p)) + 2 <= 5)%nat) by (simpl; lia).
  split; [exact H|].
  destruct (play_song_gives_up (fun _ => false) 5 Sample.A p H)
    as (r & Hr & Hd & _).
  exists r. split; [exact Hr | exact Hd].
Defined.

Lemma find_id_intro (song_id : string) (l : list Queue.Song) (i : nat)
    (s : Queue.Song) :
  l !! i = Some s -> Queue.id s = song_id ->
  (forall j s', (j < i)%nat -> l !! j = Some s' -> Queue.id s' <> song_id) ->
  Queue.find_id song_id l = Some i.
Proof.
  revert i. induction l as [|x l IH]; intros i Hi Hid Hbefore;
    [discriminate|]. simpl.
  destruct i as [|i]; simpl in Hi.
  - injection Hi as ->. rewrite Hid. by rewrite String.eqb_refl.
  - destruct (String.eqb_spec (Queue.id x) song_id) as [E|E].
    + exfalso. apply (Hbefore 0%nat x); [lia | reflexivity | exact E].
    + rewrite (IH i Hi Hid); [reflexivity|].
      intros j s' Hj Hs'. apply (Hbefore (S j) s'); [lia | exact Hs'].
Qed.

(** When the current song cannot be had, the song right after it is passed
    over. With the loop off, the current song the first one of its
    identifier and at least two songs after it: [_play_song] takes the
    current song out of the queue, which puts the cursor on the song after
    it, and then moves the cursor on once more, so that the second song
    after the one given up on is played, whether or not the first one could
    have been. *)
Theorem unobtainable_song_passes_over_next
    (obtainable : Queue.Song -> bool) (fuel : nat) (p : MusicPlayer)
    (song after third : Queue.Song) :
  let l := Queue._queue (queue p) in
  let c := Z.to_nat (Queue._current_index (queue p)) in
  0 <= Queue._current_index (queue p) ->
  Queue._loop (queue p) = false ->
  l !! c = Some song ->
  (forall j s, (j < c)%nat -> l !! j = Some s -> Queue.id s <> Queue.id song) ->
  l !! S c = Some after -> l !! S (S c) = Some third ->
  obtainable song = false -> obtainable third = true ->
  (2 <= fuel)%nat ->
  exists r p',
    _play_song obtainable fuel song {| player := Some p |} = Some r /\
    dropped r = [song] /\ play_ending r = Playing third /\
    player (cog_after r) = Some p' /\
    Queue._queue (queue p') = Py.pop l c /\
    Queue._current_index (queue p') = Queue._current_index (queue p) + 1 /\
    Queue.current_song (queue p') = Some third /\
    after ∈ Queue._queue (queue p').
Proof.
  intros l c Hcur Hloop Hsong Hfirst Hafter Hthird Ho1 Ho3 Hfuel.
  destruct fuel as [|[|fuel]]; [lia | lia |].
  destruct p as [st [l0 cur loop]]. simpl in *. subst l loop.
  assert (Hlen : (S (S c) < length l0)%nat) by (by eapply lookup_lt_Some).
  assert (Hfind : Queue.find_id (Queue.id song) l0 = Some c)
    by (by eapply find_id_intro).
  assert (Hadj : Queue.adjust_index (Py.pop l0 c) (Z.of_nat c) cur = cur).
  { destruct (adjust_index_spec l0 c cur) as (_ & _ & Hat & _);
      [lia | unfold Py.len; lia |].
    rewrite Hat by lia.
    rewrite len_pop by lia. unfold Py.len. lia. }
  assert (Hpoplen : Py.len (Py.pop l0 c) = Py.len l0 - 1) by (apply len_pop; lia).
  cbn [_play_song player]. rewrite Ho1.
  unfold Queue.remove. cbn [queue Queue._queue]. rewrite Hfind.
  cbn [snd Queue._loop Queue._current_index]. rewrite Hadj.
  unfold _play_next_song. cbn [player queue with_queue].
  unfold Queue.size. cbn [Queue._queue].
  destruct (Z.eqb_spec (Py.len (Py.pop l0 c)) 0) as [E|_];
    [unfold Py.len in *; lia|].
  unfold Queue.next. cbn [Queue._queue Queue._loop Queue._current_index].
  destruct (Z.eqb_spec (Py.len (Py.pop l0 c)) 0) as [E|_];
    [unfold Py.len in *; lia|].
  destruct (Z.geb_spec (cur + 1) (Py.len (Py.pop l0 c))) as [E|_];
    [unfold Py.len in *; lia|].
  set (q2 := Queue.set_index (cur + 1)
               {| Queue._queue := Py.pop l0 c; Queue._current_index := cur;
                  Queue._loop := false |}).
  assert (Hcs : Queue.current_song q2 = Some third).
  { destruct (current_song_in_range q2) as [-> _].
    - unfold Queue.size. simpl. unfold Py.len in *. lia.
    - simpl. rewrite index_nonneg by lia.
      rewrite pop_lookup_ge by lia.
      replace (S (Z.to_nat (cur + 1))) with (S (S c)) by lia. exact Hthird. }
  rewrite Hcs. cbn [fst snd _play_song player]. rewrite Ho3. cbn.
  eexists _, _. split; [reflexivity|]. simpl.
  split; [reflexivity|]. split; [reflexivity|]. split; [reflexivity|].
  split; [reflexivity|]. split; [reflexivity|]. split; [exact Hcs|].
  change (after ∈ Py.pop l0 c).
  apply list_elem_of_lookup. exists c. rewrite pop_lookup_ge by lia.
  exact Hafter.
Qed.

(** [[A, B, C]] with the cursor on [A], of which only [A] cannot be had: [C]
    is played and [B] stays in the queue unplayed. *)
Lemma unobtainable_song_passes_over_next_witness :
  let p := {| state := State.init; queue := Sample.abc false |} in
  let obtainable := fun s : Queue.Song => negb (String.eqb (Queue.id s) "A") in
  exists r,
    _play_song obtainable 2 Sample.A {| player := Some p |} = Some r /\
    dropped r = [Sample.A] /\ play_ending r = Playing Sample.C.
Proof.
  intros p obtainable.
  destruct (unobtainable_song_passes_over_next obtainable 2 p
              Sample.A Sample.B Sample.C)
    as (r & p' & Hr & Hd & He & _);
    [simpl; lia | reflexivity | reflexivity | simpl; intros j s Hj; lia
    | reflexivity | reflexivity | reflexivity | reflexivity | lia |].
  exists r. split; [exact Hr|]. split; [exact Hd | exact He].
Defined.

End CogMore.

(** ** Errors: the messages shown to the user *)

Section ErrorsMore.

Import Errors.

Lemma list_to_map_lookup_none (m : list (string * string)) (k : string) :
  (list_to_map m : gmap string string) !! k = None <->
  Forall (fun kv => kv.1 <> k) m.
Proof.
  rewrite <- not_elem_of_list_to_map. rewrite Forall_forall. split.
  - intros H kv Hin E. apply H. apply list_elem_of_fmap. by exists kv.
  - intros H Hin. apply list_elem_of_fmap in Hin as (kv & -> & Hin).
    by apply (H kv Hin).
Qed.

(** A [SongUnavailableError] keeps the technical message it was given and
    always has something to show to the user, also when the technical message
    is empty. For the five reasons the downloader's classification knows, the
    text shown is the one the downloader shows for that reason; for every
    other reason, the spelled-out [unknown] among them, it is the fallback
    text, which is not the downloader's fallback text. *)
Theorem song_unavailable_message (msg reason : string) :
  let e := song_unavailable_error msg reason in
  let known := ["age_restricted"; "copyright"; "region_blocked"; "private";
                "unavailable"]%string in
  message e = msg /\
  user_message e <> ""%string /\
  (reason ∈ known ->
   user_message e = Downloader._get_user_friendly_message reason) /\
  (reason ∉ known ->
   user_message e = "影片無法播放"%string /\
   Downloader._get_user_friendly_message reason = "無法取得影片資訊"%string).
Proof.
  intros e known.
  assert (Hcases : reason ∈ known \/ reason = "unknown"%string \/
                   ((reason ∉ known) /\ REASON_MESSAGES !! reason = None /\
                    Downloader.messages !! reason = None)).
  { destruct (decide (reason ∈ known)) as [Hin|Hnin]; [by left|]. right.
    destruct (decide (reason = "unknown"%string)) as [E|E]; [by left|].
    right. split; [exact Hnin|].
    assert (Hne : forall k, k ∈ known -> k <> reason) by (intros k Hk ->; done).
    split; apply list_to_map_lookup_none; repeat constructor; simpl;
      try (apply Hne, list_elem_of_In; simpl; tauto); congruence. }
  split; [reflexivity|].
  destruct Hcases as [Hin|[->|(Hnin & Hr & Hm)]].
  - apply list_elem_of_In in Hin. simpl in Hin.
    destruct Hin as [<-|[<-|[<-|[<-|[<-|[]]]]]];
      (split; [by vm_compute|]); (split; [intros _; by vm_compute|]);
      intros Hn; exfalso; apply Hn, list_elem_of_In; simpl; tauto.
  - split; [by vm_compute|]. split.
    + intros Hin. apply list_elem_of_In in Hin. simpl in Hin.
      exfalso. intuition discriminate.
    + intros _. split; by vm_compute.
  - subst e. unfold song_unavailable_error, Downloader._get_user_friendly_message.
    rewrite Hr, Hm. split; [by vm_compute|]. split; [done|].
    intros _. split; by vm_compute.
Qed.

End ErrorsMore.
